(** * Footnote syntax for markdown: tokenizer, event resolver, tree builder
      and serializer of the inkdrop footnotes plugin, embedded in Rocq.

    The definitions below follow the bundled JavaScript source function by
    function and keep its names.  Character codes are integers (the virtual
    codes are negative), JavaScript strings are lists of UTF-16 code units,
    tokens live in a heap and events refer to them by reference, so that a
    mutation of a token is seen through every event that carries it. *)

From stdpp Require Import base list strings gmap.
From Stdlib Require Import ZArith Lia.
From Equations Require Import Equations.

Set Warnings "-register-all".
Open Scope Z_scope.

(** ** JavaScript strings *)

(** A JavaScript string is a sequence of UTF-16 code units. *)
Abbreviation jsstring := (list Z).

(** A string literal of the source, written as a Rocq string. *)
Definition str (s : string) : jsstring :=
  map (fun a => Z.of_nat (Ascii.nat_of_ascii a)) (String.list_ascii_of_string s).

(** [String.prototype.toLowerCase] and [String.prototype.toUpperCase] are
    built-ins of the host language; the development is parametric in them. *)
Class CaseMapping := {
  toLowerCase : jsstring -> jsstring;
  toUpperCase : jsstring -> jsstring
}.

(** The two built-ins restricted to the ASCII letters; every other code unit
    is left as it is.  On strings of ASCII code units this is what the
    built-ins compute. *)
Definition asciiLower (c : Z) : Z :=
  if (65 <=? c) && (c <=? 90) then c + 32 else c.
Definition asciiUpper (c : Z) : Z :=
  if (97 <=? c) && (c <=? 122) then c - 32 else c.

Definition asciiCase : CaseMapping :=
  {| toLowerCase := map asciiLower; toUpperCase := map asciiUpper |}.

(** ** Character classifier *)

(** A [Code] is a character code, a virtual code (negative) or [null] at the
    end of the input; [None] stands for [null]. *)
Abbreviation Code := (option Z).

Definition markdownLineEnding (code : Code) : bool :=
  match code with
  | None => false
  | Some c => c <? -2
  end.

Definition markdownLineEndingOrSpace (code : Code) : bool :=
  match code with
  | None => false
  | Some c => (c <? 0) || (c =? 32)
  end.

Definition markdownSpace (code : Code) : bool :=
  match code with
  | None => false
  | Some c => (c =? -2) || (c =? -1) || (c =? 32)
  end.

(** ** normalizeIdentifier *)

(** The character class [[\t\n\r ]]. *)
Definition isWhitespaceUnit (c : Z) : bool :=
  (c =? 9) || (c =? 10) || (c =? 13) || (c =? 32).

(** [.replace(/[\t\n\r ]+/g, ' ')]: every maximal run becomes one space.
    [inRun] records that the previous unit belonged to the current run. *)
Fixpoint collapseFrom (inRun : bool) (value : jsstring) : jsstring :=
  match value with
  | [] => []
  | c :: rest =>
      if isWhitespaceUnit c
      then (if inRun then collapseFrom true rest else 32 :: collapseFrom true rest)
      else c :: collapseFrom false rest
  end.

Definition collapseWhitespace (value : jsstring) : jsstring :=
  collapseFrom false value.

(** [.replace(/^ | $/g, '')]: the alternative [^ ] matches a space at index
    0 only, the alternative [ $] a space at the last index only. *)
Definition trimLeadingSpace (value : jsstring) : jsstring :=
  match value with
  | c :: rest => if c =? 32 then rest else value
  | [] => []
  end.

Fixpoint trimTrailingSpace (value : jsstring) : jsstring :=
  match value with
  | [] => []
  | c :: rest =>
      match rest with
      | [] => if c =? 32 then [] else [c]
      | _ :: _ => c :: trimTrailingSpace rest
      end
  end.

Definition trimSpace (value : jsstring) : jsstring :=
  trimTrailingSpace (trimLeadingSpace value).

Definition normalizeIdentifier `{CaseMapping} (value : jsstring) : jsstring :=
  toUpperCase (toLowerCase (trimSpace (collapseWhitespace value))).

(** ** Tokens, events and the tokenizer's effects *)

(** A position in the code stream.  The host keeps line, column and offset
    as well; the tokenizer and [sliceSerialize] only ever use the index of
    the code in the stream, which is what a [Point] is here. *)
Abbreviation Point := nat.

Record Token := {
  type : string;
  start : option Point;
  end_ : option Point;           (* unset until the token is exited *)
  contentType : option string;
  _container : bool
}.

Definition retype (t : string) (token : Token) : Token :=
  {| type := t; start := start token; end_ := end_ token;
     contentType := contentType token; _container := _container token |}.

Inductive Phase := enter | exit.

Global Instance Phase_eq_dec : EqDecision Phase.
Proof. solve_decision. Defined.

(** An event is [[phase, token, context]]; the token is a reference into the
    heap of token objects (the context is the single tokenize context). *)
Abbreviation Event := (Phase * nat)%type.

(** The tokenize context: the code stream fed by the host, the token
    objects, the event list, the stack of open tokens and the position. *)
Record Context := {
  chunks : list Z;
  heap : list Token;
  events : list Event;
  stack : list nat;
  now : Point
}.

Definition initialContext (input : list Z) : Context :=
  {| chunks := input; heap := []; events := []; stack := []; now := 0%nat |}.

(** [effects.enter(type)]: a new token object, pushed on the event list and
    on the stack; [fields] are the two optional fields the source sets on
    the returned token. *)
Definition effects_enter_with (ty : string) (ct : option string) (cont : bool)
    (ctx : Context) : Context :=
  let ref := length (heap ctx) in
  {| chunks := chunks ctx;
     heap := heap ctx ++ [ {| type := ty; start := Some (now ctx); end_ := None;
                              contentType := ct; _container := cont |} ];
     events := events ctx ++ [(enter, ref)];
     stack := ref :: stack ctx;
     now := now ctx |}.

Definition effects_enter (ty : string) (ctx : Context) : Context :=
  effects_enter_with ty None false ctx.

Definition setEnd (p : Point) (token : Token) : Token :=
  {| type := type token; start := start token; end_ := Some p;
     contentType := contentType token; _container := _container token |}.

(** [effects.exit(type)]: pops the open token, sets its end, pushes the exit
    event and returns the token reference.  Every exit of this file follows
    its enter, so the stack is never empty there. *)
Definition effects_exit (ty : string) (ctx : Context) : Context * nat :=
  match stack ctx with
  | ref :: open =>
      ({| chunks := chunks ctx;
          heap := alter (setEnd (now ctx)) ref (heap ctx);
          events := events ctx ++ [(exit, ref)];
          stack := open;
          now := now ctx |}, ref)
  | [] => (ctx, 0%nat)
  end.

(** [effects.consume(code)]: move one code ahead. *)
Definition effects_consume (ctx : Context) : Context :=
  {| chunks := chunks ctx; heap := heap ctx; events := events ctx;
     stack := stack ctx; now := S (now ctx) |}.

(** The codes a token covers. *)
Definition sliceStream (ctx : Context) (ref : nat) : list Z :=
  match heap ctx !! ref with
  | Some token =>
      match start token, end_ token with
      | Some s, Some e => take (e - s) (drop s (chunks ctx))
      | _, _ => []
      end
  | None => []
  end.

(** The host's serialisation of a run of codes.  The virtual codes are the
    ones documented with the character classifier: -5 is CR, -4 is LF, -3 is
    CR LF, -2 is a tab and -1 a virtual space that fills a tab up to its tab
    stop; with [expandTabs] a tab and each virtual space count as one space,
    without it the virtual spaces after a tab vanish. *)
Fixpoint serializeChunks (atTab : bool) (expandTabs : bool) (codes : list Z) : jsstring :=
  match codes with
  | [] => []
  | c :: rest =>
      (if c =? -5 then [13]
       else if c =? -4 then [10]
       else if c =? -3 then [13; 10]
       else if c =? -2 then (if expandTabs then [32] else [9])
       else if c =? -1 then (if negb expandTabs && atTab then [] else [32])
       else [c])
      ++ serializeChunks ((c =? -2) || ((c =? -1) && negb expandTabs && atTab))
           expandTabs rest
  end.

Definition sliceSerialize (ctx : Context) (ref : nat) (expandTabs : bool) : jsstring :=
  serializeChunks false expandTabs (sliceStream ctx ref).

(** What a tokenizer hands back to the host: [ok] with the context it has
    built and the code it stopped at still unconsumed, or [nok], on which the
    host rewinds and every effect of the attempt is dropped. *)
Inductive Result (A : Type) :=
  | Ok (value : A)
  | Nok.
Arguments Ok {A} value.
Arguments Nok {A}.

(** The code at the current position; [null] after the last one. *)
Definition codeAt (input : list Z) : Code := head input.

(** ** Space and blank-line consumers *)

(** The [prefix] state of [factorySpace]: consumes markdown spaces while
    [size++ < limit]; [limit = None] stands for [Infinity].  It hands the
    context and the remaining codes to the [ok] continuation. *)
Fixpoint factorySpace_prefix (ty : string) (limit : option Z) (size : Z)
    (ctx : Context) (input : list Z) : Context * list Z :=
  match input with
  | c :: rest =>
      if markdownSpace (Some c) &&
         match limit with Some l => size <? l | None => true end
      then factorySpace_prefix ty limit (size + 1) (effects_consume ctx) rest
      else (fst (effects_exit ty ctx), input)
  | [] => (fst (effects_exit ty ctx), input)
  end.

(** [factorySpace(effects, ok, type, max)], started on the current code. *)
Definition factorySpace (ty : string) (max : option Z) (ctx : Context)
    (input : list Z) : Context * list Z :=
  let limit := match max with
               | Some m => if m =? 0 then None else Some (m - 1)
               | None => None
               end in
  if markdownSpace (codeAt input)
  then factorySpace_prefix ty limit 0 (effects_enter ty ctx) input
  else (ctx, input).

Definition tokenizeBlankLine (ctx : Context) (input : list Z) : Result Context :=
  let '(ctx', rest) :=
    if markdownSpace (codeAt input)
    then factorySpace "linePrefix" None ctx input
    else (ctx, input) in
  (* after *)
  match codeAt rest with
  | None => Ok ctx'
  | Some c => if markdownLineEnding (Some c) then Ok ctx' else Nok
  end.

(** [effects.check(blankLine, onBlank, nonBlank)]: the construct is tried on
    the codes ahead and its effects are dropped; only the verdict is kept. *)
Definition check_blankLine (ctx : Context) (input : list Z) : bool :=
  match tokenizeBlankLine ctx input with
  | Ok _ => true
  | Nok => false
  end.

(** ** State machines *)

(** What a state function does with the code it is given: it consumes the
    code and returns the next state, it passes the same code on to another
    state function ([return next(code)]), or it ends the construct. *)
Inductive Transition (M A : Type) : Type :=
  | Consume (next : M)
  | Goto (next : M)
  | Finish (r : Result A).
Arguments Consume {M A} next.
Arguments Goto {M A} next.
Arguments Finish {M A} r.

(** Follows [return next(code)] calls on one code. *)
Fixpoint settle {M A : Type} (step : M -> list Z -> Transition M A)
    (n : nat) (m : M) (input : list Z) : Transition M A :=
  match step m input with
  | Goto m' =>
      match n with
      | O => Goto m'
      | S n' => settle step n' m' input
      end
  | t => t
  end.

(** The host's loop: it feeds the codes one by one to the current state
    function until the construct ends.  No state function of this file
    passes a code on more than twice in a row. *)
Fixpoint run {M A : Type} (step : M -> list Z -> Transition M A)
    (m : M) (input : list Z) : Result A :=
  match settle step 3 m input with
  | Consume m' =>
      match input with
      | _ :: rest => run step m' rest
      | [] => Nok
      end
  | Goto _ => Nok
  | Finish r => r
  end.

(** ** Footnote call: [[^id]] *)

Module Call.

Inductive State := S_start | S_callStart | S_callData | S_callEscape | S_end.

Record Machine := {
  state : State;
  size : Z;
  data : bool;
  ctx : Context
}.

Definition initial (c : Context) : Machine :=
  {| state := S_start; size := 0; data := false; ctx := c |}.

Definition step `{CaseMapping} (defined : list jsstring) (m : Machine)
    (input : list Z) : Transition Machine Context :=
  let code := codeAt input in
  match state m with
  | S_start =>
      let c := effects_enter "footnoteCall" (ctx m) in
      let c := effects_enter "footnoteCallLabelMarker" c in
      let c := effects_consume c in
      let c := fst (effects_exit "footnoteCallLabelMarker" c) in
      Consume {| state := S_callStart; size := size m; data := data m; ctx := c |}
  | S_callStart =>
      if negb (bool_decide (code = Some 94)) then Finish Nok
      else
        let c := effects_enter "footnoteCallMarker" (ctx m) in
        let c := effects_consume c in
        let c := fst (effects_exit "footnoteCallMarker" c) in
        let c := effects_enter "footnoteCallString" c in
        let c := effects_enter_with "chunkString" (Some "string"%string) false c in
        Consume {| state := S_callData; size := size m; data := data m; ctx := c |}
  | S_callData =>
      match code with
      | None => Finish Nok
      | Some cd =>
          if cd =? 91 then Finish Nok
          else if size m >? 999 then Finish Nok     (* size++ > 999 *)
          else
            let size' := size m + 1 in
            if cd =? 93 then
              if negb (data m) then Finish Nok
              else
                let c := fst (effects_exit "chunkString" (ctx m)) in
                let '(c, token) := effects_exit "footnoteCallString" c in
                if bool_decide
                     (normalizeIdentifier (sliceSerialize c token false) ∈ defined)
                then Goto {| state := S_end; size := size'; data := data m; ctx := c |}
                else Finish Nok
            else
              let c := effects_consume (ctx m) in
              let data' := if negb (markdownLineEndingOrSpace code) then true
                           else data m in
              Consume {| state := if cd =? 92 then S_callEscape else S_callData;
                         size := size'; data := data'; ctx := c |}
      end
  | S_callEscape =>
      if bool_decide (code = Some 91 ∨ code = Some 92 ∨ code = Some 93) then
        Consume {| state := S_callData; size := size m + 1; data := data m;
                   ctx := effects_consume (ctx m) |}
      else Goto {| state := S_callData; size := size m; data := data m; ctx := ctx m |}
  | S_end =>
      let c := effects_enter "footnoteCallLabelMarker" (ctx m) in
      let c := effects_consume c in
      let c := fst (effects_exit "footnoteCallLabelMarker" c) in
      let c := fst (effects_exit "footnoteCall" c) in
      Finish (Ok c)
  end.

End Call.

(** [tokenizeFootnoteCall], entered by the host at the current position of
    [c] with the per-parse list [defined] ([self.parser.footnotes]). *)
Definition tokenizeFootnoteCall `{CaseMapping} (defined : list jsstring)
    (c : Context) : Result Context :=
  run (Call.step defined) (Call.initial c) (drop (now c) (chunks c)).

(** The codes between [[^] and []] of a call that was read from [c] up to
    [c']. *)
Definition callLabel (c c' : Context) : list Z :=
  take (now c' - now c - 3) (drop (now c + 2) (chunks c)).

(** The token object of the label: the fourth one the call allocates. *)
Definition callStringToken (c : Context) : nat := (length (heap c) + 3)%nat.

(** ** Inline note markers: [^[] and []] *)

Definition tokenizeNoteStart (c : Context) : Result Context :=
  match drop (now c) (chunks c) with
  | [] => Nok
  | _ :: rest =>
      (* start *)
      let c := effects_enter "inlineNoteStart" c in
      let c := effects_enter "inlineNoteMarker" c in
      let c := effects_consume c in
      let c := fst (effects_exit "inlineNoteMarker" c) in
      (* noteStart *)
      if negb (bool_decide (codeAt rest = Some 91)) then Nok
      else
        let c := effects_enter "inlineNoteStartMarker" c in
        let c := effects_consume c in
        let c := fst (effects_exit "inlineNoteStartMarker" c) in
        let c := fst (effects_exit "inlineNoteStart" c) in
        Ok c
  end.

(** The type of the token an event carries. *)
Definition eventType (h : list Token) (e : Event) : option string :=
  type <$> h !! e.2.

Definition isType (h : list Token) (e : Event) (t : string) : bool :=
  bool_decide (eventType h e = Some t).

Definition tokenizeNoteEnd (c : Context) : Result Context :=
  (* start: look back for an opening *)
  let hasStart := existsb (fun e => isType (heap c) e "inlineNoteStart") (events c) in
  if negb hasStart then Nok
  else
    let c := effects_enter "inlineNoteEnd" c in
    let c := effects_enter "inlineNoteEndMarker" c in
    let c := effects_consume c in
    let c := fst (effects_exit "inlineNoteEndMarker" c) in
    let c := fst (effects_exit "inlineNoteEnd" c) in
    Ok c.

(** ** Footnote definition: [[^id]:] at the start of a container *)

(** [self.containerState], shared by the start and the continuation of one
    definition; an unset flag is [false]. *)
Record ContainerState := {
  initialBlankLine : bool;
  furtherBlankLines : bool
}.

Definition emptyContainerState : ContainerState :=
  {| initialBlankLine := false; furtherBlankLines := false |}.

(** What a successful definition start leaves behind: the context, the list
    of known identifiers and the container state. *)
Record Started := {
  context : Context;
  footnotes : list jsstring;
  containerState : ContainerState
}.

Module Definition_.

Inductive State :=
  | S_start | S_labelStart | S_atBreak | S_label | S_labelEscape
  | S_labelAfter | S_check | S_onBlank | S_nonBlank.

Record Machine := {
  state : State;
  identifier : jsstring;
  size : Z;
  data : bool;
  ctx : Context;
  cstate : ContainerState
}.

Definition initial (c : Context) (cs : ContainerState) : Machine :=
  {| state := S_start; identifier := []; size := 0; data := false;
     ctx := c; cstate := cs |}.

Definition goto (s : State) (c : Context) (m : Machine) : Machine :=
  {| state := s; identifier := identifier m; size := size m; data := data m;
     ctx := c; cstate := cstate m |}.

Definition withSize (n : Z) (m : Machine) : Machine :=
  {| state := state m; identifier := identifier m; size := n; data := data m;
     ctx := ctx m; cstate := cstate m |}.

Definition withData (d : bool) (m : Machine) : Machine :=
  {| state := state m; identifier := identifier m; size := size m; data := d;
     ctx := ctx m; cstate := cstate m |}.

Definition withIdentifier (i : jsstring) (m : Machine) : Machine :=
  {| state := state m; identifier := i; size := size m; data := data m;
     ctx := ctx m; cstate := cstate m |}.

(** [done]: the identifier is registered unless it is known already. *)
Definition done (defined : list jsstring) (m : Machine) : Result Started :=
  Ok {| context := ctx m;
        footnotes := if bool_decide (identifier m ∈ defined) then defined
                     else defined ++ [identifier m];
        containerState := cstate m |}.

Definition step `{CaseMapping} (defined : list jsstring) (m : Machine)
    (input : list Z) : Transition Machine Started :=
  let code := codeAt input in
  match state m with
  | S_start =>
      let c := effects_enter_with "footnoteDefinition" None true (ctx m) in
      let c := effects_enter "footnoteDefinitionLabel" c in
      let c := effects_enter "footnoteDefinitionLabelMarker" c in
      let c := effects_consume c in
      let c := fst (effects_exit "footnoteDefinitionLabelMarker" c) in
      Consume (goto S_labelStart c m)
  | S_labelStart =>
      if negb (bool_decide (code = Some 94)) then Finish Nok
      else
        let c := effects_enter "footnoteDefinitionMarker" (ctx m) in
        let c := effects_consume c in
        let c := fst (effects_exit "footnoteDefinitionMarker" c) in
        let c := effects_enter "footnoteDefinitionLabelString" c in
        Consume (goto S_atBreak c m)
  | S_atBreak =>
      match code with
      | None => Finish Nok
      | Some cd =>
          if (cd =? 91) || (size m >? 999) then Finish Nok
          else if cd =? 93 then
            if negb (data m) then Finish Nok
            else
              let '(c, token) := effects_exit "footnoteDefinitionLabelString" (ctx m) in
              let id := normalizeIdentifier (sliceSerialize c token false) in
              let c := effects_enter "footnoteDefinitionLabelMarker" c in
              let c := effects_consume c in
              let c := fst (effects_exit "footnoteDefinitionLabelMarker" c) in
              let c := fst (effects_exit "footnoteDefinitionLabel" c) in
              Consume (withIdentifier id (goto S_labelAfter c m))
          else if markdownLineEnding code then
            let c := effects_enter "lineEnding" (ctx m) in
            let c := effects_consume c in
            let c := fst (effects_exit "lineEnding" c) in
            Consume (withSize (size m + 1) (goto S_atBreak c m))
          else
            let c := effects_enter_with "chunkString" (Some "string"%string) false (ctx m) in
            Goto (goto S_label c m)
      end
  | S_label =>
      if bool_decide (code = None) || markdownLineEnding code
         || bool_decide (code = Some 91) || bool_decide (code = Some 93)
         || (size m >? 999)
      then Goto (goto S_atBreak (fst (effects_exit "chunkString" (ctx m))) m)
      else
        let data' := if negb (markdownLineEndingOrSpace code) then true else data m in
        Consume (withData data' (withSize (size m + 1)
                   (goto (if bool_decide (code = Some 92) then S_labelEscape else S_label)
                         (effects_consume (ctx m)) m)))
  | S_labelEscape =>
      if bool_decide (code = Some 91 ∨ code = Some 92 ∨ code = Some 93) then
        Consume (withSize (size m + 1) (goto S_label (effects_consume (ctx m)) m))
      else Goto (goto S_label (ctx m) m)
  | S_labelAfter =>
      if negb (bool_decide (code = Some 58)) then Finish Nok
      else
        let c := effects_enter "definitionMarker" (ctx m) in
        let c := effects_consume c in
        let c := fst (effects_exit "definitionMarker" c) in
        Consume (goto S_check c m)
  | S_check =>
      (* effects.check(blankLine, onBlank, nonBlank) *)
      if check_blankLine (ctx m) input then Goto (goto S_onBlank (ctx m) m)
      else Goto (goto S_nonBlank (ctx m) m)
  | S_onBlank =>
      Finish (done defined
        {| state := state m; identifier := identifier m; size := size m;
           data := data m; ctx := ctx m;
           cstate := {| initialBlankLine := true;
                        furtherBlankLines := furtherBlankLines (cstate m) |} |})
  | S_nonBlank =>
      if markdownSpace code then
        let c := effects_enter "footnoteDefinitionWhitespace" (ctx m) in
        let c := effects_consume c in
        let c := fst (effects_exit "footnoteDefinitionWhitespace" c) in
        Finish (done defined (goto S_nonBlank c m))
      else Finish (done defined m)
  end.

End Definition_.

(** [tokenizeDefinitionStart], entered by the host at the current position. *)
Definition tokenizeDefinitionStart `{CaseMapping} (defined : list jsstring)
    (cs : ContainerState) (c : Context) : Result Started :=
  run (Definition_.step defined) (Definition_.initial c cs) (drop (now c) (chunks c)).

(** The token object of the label of a definition: the fifth one the start
    allocates; and the codes it covers once the start has succeeded. *)
Definition definitionLabelToken (c : Context) : nat := (length (heap c) + 4)%nat.

Definition definitionLabel (c : Context) (st : Started) : list Z :=
  sliceStream (context st) (definitionLabelToken c).

(** [tokenizeIndent]: up to four markdown spaces, accepted when the indent
    token that was just closed is four columns wide. *)
Definition tokenizeIndent (c : Context) (input : list Z) : Result Context :=
  let '(c', _) := factorySpace "footnoteDefinitionIndent" (Some (4 + 1)) c input in
  (* afterPrefix *)
  match last (events c') with
  | Some tail =>
      if isType (heap c') tail "footnoteDefinitionIndent" &&
         bool_decide (length (sliceSerialize c' tail.2 true) = 4%nat)
      then Ok c' else Nok
  | None => Nok
  end.

(** [tokenizeDefinitionContinuation], run by the host at the start of each
    further line while the definition is open.  The flags of the container
    state are plain assignments, so they are returned whatever the verdict. *)
Definition tokenizeDefinitionContinuation (cs : ContainerState) (c : Context)
    : Result Context * ContainerState :=
  let input := drop (now c) (chunks c) in
  if check_blankLine c input then
    (* onBlank *)
    (Ok c, if initialBlankLine cs
           then {| initialBlankLine := initialBlankLine cs; furtherBlankLines := true |}
           else cs)
  else
    (* notBlank *)
    if furtherBlankLines cs || negb (markdownSpace (codeAt input)) then (Nok, cs)
    else (tokenizeIndent c input, emptyContainerState).

(** ** Lists as JavaScript arrays *)

(** The state of an array after the built-in [lst.splice(start,
    deleteCount, ...items)] on integer arguments: a negative [start] counts
    from the end, both arguments are clamped to the array. *)
Definition Array_splice {A : Type} (lst : list A) (start deleteCount : Z)
    (items : list A) : list A :=
  let len := Z.of_nat (length lst) in
  let actualStart := if start <? 0 then Z.max (len + start) 0 else Z.min start len in
  let actualDeleteCount := Z.min (Z.max deleteCount 0) (len - actualStart) in
  take (Z.to_nat actualStart) lst ++ items
    ++ drop (Z.to_nat (actualStart + actualDeleteCount)) lst.

(** [items.slice(from, to)] for [0 <= from <= to]; [to] may lie beyond the
    end. *)
Definition Array_slice {A : Type} (items : list A) (from to : Z) : list A :=
  take (Z.to_nat (to - from)) (drop (Z.to_nat from) items).

(** The [while (chunkStart < items.length)] loop of [splice]. *)
Equations? splice_chunks {A : Type} (lst : list A) (start : Z) (items : list A)
    (chunkStart : Z) : list A
    by wf (Z.to_nat (Z.of_nat (length items) - chunkStart)) lt :=
  splice_chunks lst start items chunkStart
    with decide (chunkStart < Z.of_nat (length items)) := {
    | left _ =>
        splice_chunks
          (Array_splice lst start 0 (Array_slice items chunkStart (chunkStart + 10000)))
          (start + 10000) items (chunkStart + 10000)
    | right _ => lst }.
Proof. lia. Qed.

(** [splice(lst, start, remove, items)]: what [lst] holds afterwards. *)
Definition splice {A : Type} (lst : list A) (start remove : Z) (items : list A)
    : list A :=
  let end' := Z.of_nat (length lst) in
  let start := if start <? 0
               then (if - start >? end' then 0 else end' + start)
               else (if start >? end' then end' else start) in
  let remove := if remove >? 0 then remove else 0 in
  if Z.of_nat (length items) <? 10000 then Array_splice lst start remove items
  else
    let lst := if negb (remove =? 0) then Array_splice lst start remove [] else lst in
    splice_chunks lst start items 0.

(** ** Event resolver *)

(** A resolver rewrites the event list and may change token objects. *)
Abbreviation Resolver := (list Token * list Event -> list Token * list Event)%type.

(** A construct of the host, as far as [resolveAll] looks at it: its
    optional [resolveAll] function, with the identity of that function. *)
Record Construct := {
  resolveAll_ : option (nat * Resolver)
}.

(** The loop of [resolveAll]; [called] holds the resolvers already run. *)
Fixpoint resolveAll_from (called : list nat) (constructs : list Construct)
    (he : list Token * list Event) : list Token * list Event :=
  match constructs with
  | [] => he
  | construct :: more =>
      match resolveAll_ construct with
      | Some (id, resolve) =>
          if bool_decide (id ∈ called) then resolveAll_from called more he
          else resolveAll_from (called ++ [id]) more (resolve he)
      | None => resolveAll_from called more he
      end
  end.

Definition resolveAll (constructs : list Construct) (he : list Token * list Event)
    : list Token * list Event :=
  resolveAll_from [] constructs he.

(** The loop of [resolveAllNote], entered with [index] already incremented. *)
Equations? resolveAllNote_from (h : list Token) (events : list Event) (index : nat)
    : list Token * list Event by wf (length events - index)%nat lt :=
  resolveAllNote_from h events index with decide (index < length events)%nat := {
    | left _ =>
        match events !! index with
        | Some e =>
            if bool_decide (e.1 = enter) && isType h e "inlineNoteStart"
            then resolveAllNote_from (alter (retype "data") e.2 h)
                   (Array_splice events (Z.of_nat index + 1) 4 []) (S index)
            else resolveAllNote_from h events (S index)
        | None => (h, events)
        end
    | right _ => (h, events) }.
Proof.
  - unfold Array_splice.
    rewrite !length_app, length_take, length_drop. simpl. lia.
  - lia.
Qed.

(** [resolveAllNote]: remove remaining note starts. *)
Definition resolveAllNote (he : list Token * list Event) : list Token * list Event :=
  resolveAllNote_from he.1 he.2 0.

(** The [while (index--)] loop of [resolveToNoteEnd]: [index] is the value
    the condition tests; the result is the opening found, [None] when the
    loop runs out. *)
Fixpoint findOpening (h : list Token) (events : list Event) (index : nat) : option nat :=
  match index with
  | O => None
  | S i =>
      match events !! i with
      | Some e =>
          if bool_decide (e.1 = enter) && isType h e "inlineNoteStart" then Some i
          else findOpening h events i
      | None => None
      end
  end.

Definition tokenStart (h : list Token) (e : Event) : option Point :=
  h !! e.2 ≫= start.
Definition tokenEnd (h : list Token) (e : Event) : option Point :=
  h !! e.2 ≫= end_.

(** [resolveToNoteEnd]; [insideSpan] is the host's
    [context.parser.constructs.insideSpan.null].  [None] is the [TypeError]
    the source runs into when no opening is found. *)
Definition resolveToNoteEnd (insideSpan : list Construct)
    (he : list Token * list Event) : option (list Token * list Event) :=
  let '(h, events) := he in
  let len := length events in
  if (len <? 4)%nat then None
  else
    match findOpening h events (len - 4) with
    | None => None
    | Some openIndex =>
        let index := openIndex in
        match events !! openIndex, events !! (openIndex + 4)%nat,
              events !! (len - 1)%nat, events !! (len - 3)%nat,
              events !! (len - 2)%nat,
              events !! (openIndex + 1)%nat, events !! (openIndex + 2)%nat,
              events !! (openIndex + 3)%nat with
        | Some eOpen, Some e4, Some eLast, Some eLast3, Some eLast2,
          Some e1, Some e2, Some e3 =>
            let group := {| type := "inlineNote";
                            start := tokenStart h eOpen;
                            end_ := tokenEnd h eLast;
                            contentType := None; _container := false |} in
            let text := {| type := "inlineNoteText";
                           start := tokenEnd h e4;
                           end_ := tokenStart h eLast3;
                           contentType := None; _container := false |} in
            let groupRef := length h in
            let textRef := S (length h) in
            let h := h ++ [group; text] in
            let note := [(enter, groupRef); e1; e2; e3; e4; (enter, textRef)] in
            let '(h, inside) :=
              resolveAll insideSpan
                (h, take (len - 4 - (openIndex + 6)) (drop (openIndex + 6) events)) in
            let note := splice note (Z.of_nat (length note)) 0 inside in
            let note := note ++ [(exit, textRef); eLast2; eLast3; (exit, groupRef)] in
            Some (h, splice events (Z.of_nat index)
                       (Z.of_nat (length events) - Z.of_nat index) note)
        | _, _, _, _, _, _, _, _ => None
        end
    end.

(** ** Tree builder *)

(** A node of the document tree.  An absent field is the empty string or the
    empty list, which is how the source reads it ([node.label || ''],
    [parent.children || []]). *)
Inductive Node := mkNode {
  ntype : string;
  identifier : jsstring;
  label : jsstring;
  value : jsstring;
  children : list Node
}.


Definition setLabelIdentifier (l i : jsstring) (node : Node) : Node :=
  {| ntype := ntype node; identifier := i; label := l;
     value := value node; children := children node |}.

(** The host's text of a node: its value, or the text of its children. *)
Fixpoint toString (node : Node) : jsstring :=
  match children node with
  | [] => value node
  | kids => concat (map toString kids)
  end.

(** The compile context of the host: the stack of open nodes, innermost
    first, and the tokenize context the events came from.  A node is a child
    of the node below it on the stack; it is written into that node's
    children when it is closed, so a field set on the open node is in the
    tree. *)
Record CompileContext := {
  nodes : list Node;
  tokenizer : Context
}.




(** [this.resume()]: the fragment is taken off and its text returned. *)
Definition compile_resume (cc : CompileContext) : jsstring * CompileContext :=
  match nodes cc with
  | fragment :: below => (toString fragment, {| nodes := below; tokenizer := tokenizer cc |})
  | [] => ([], cc)
  end.

Definition onTop (f : Node -> Node) (cc : CompileContext) : CompileContext :=
  match nodes cc with
  | node :: below => {| nodes := f node :: below; tokenizer := tokenizer cc |}
  | [] => cc
  end.

Section TreeBuilder.
Context `{CaseMapping}.



Definition exitFootnoteDefinitionLabelString (token : nat) (cc : CompileContext)
    : CompileContext :=
  let '(label, cc) := compile_resume cc in
  onTop (setLabelIdentifier label
           (toLowerCase (normalizeIdentifier (sliceSerialize (tokenizer cc) token false))))
        cc.




Definition exitFootnoteCallString (token : nat) (cc : CompileContext) : CompileContext :=
  let '(label, cc) := compile_resume cc in
  onTop (setLabelIdentifier label
           (toLowerCase (normalizeIdentifier (sliceSerialize (tokenizer cc) token false))))
        cc.







End TreeBuilder.

(** ** Decoding of character escapes and references *)

(** The character class [[!-/:-@[-`{-~]]: ASCII punctuation. *)
Definition isAsciiPunctuation (c : Z) : bool :=
  ((33 <=? c) && (c <=? 47)) || ((58 <=? c) && (c <=? 64))
  || ((91 <=? c) && (c <=? 96)) || ((123 <=? c) && (c <=? 126)).

Definition isDigit (c : Z) : bool := (48 <=? c) && (c <=? 57).
Definition isHexDigit (c : Z) : bool :=
  isDigit c || ((97 <=? c) && (c <=? 102)) || ((65 <=? c) && (c <=? 70)).
Definition isAlphanumeric (c : Z) : bool :=
  isDigit c || ((97 <=? c) && (c <=? 122)) || ((65 <=? c) && (c <=? 90)).

(** The longest prefix whose units all satisfy [p], and what follows the
    longest such prefix. *)
Fixpoint takeWhile {A : Type} (p : A -> bool) (l : list A) : list A :=
  match l with
  | x :: rest => if p x then x :: takeWhile p rest else []
  | [] => []
  end.

Fixpoint dropWhile {A : Type} (p : A -> bool) (l : list A) : list A :=
  match l with
  | x :: rest => if p x then dropWhile p rest else l
  | [] => []
  end.

(** The white space and the line terminators of the language, which
    [parseInt] passes over at the start of its argument. *)
Definition isStrWhiteSpace (c : Z) : bool :=
  (c =? 9) || (c =? 10) || (c =? 11) || (c =? 12) || (c =? 13) || (c =? 32)
  || (c =? 160) || (c =? 5760) || ((8192 <=? c) && (c <=? 8202))
  || (c =? 8232) || (c =? 8233) || (c =? 8239) || (c =? 8287) || (c =? 12288)
  || (c =? 65279).

(** The value of a digit or letter as a digit of some radix. *)
Definition radixDigit (c : Z) : option Z :=
  if (48 <=? c) && (c <=? 57) then Some (c - 48)
  else if (97 <=? c) && (c <=? 122) then Some (c - 87)
  else if (65 <=? c) && (c <=? 90) then Some (c - 55)
  else None.

Definition isRadixDigit (radix : Z) (c : Z) : bool :=
  match radixDigit c with
  | Some v => v <? radix
  | None => false
  end.

(** [ToInt32] on an integer. *)
Definition ToInt32 (n : Z) : Z := (n + 2147483648) mod 4294967296 - 2147483648.

(** [Number.parseInt(value, radix)] for an integer [radix]: white space is
    passed over, a sign is read, a radix outside 2..36 gives [NaN], with the
    radix 16 a prefix [0x] is passed over, and the digits of the radix that
    follow are read up to the first unit that is none; [NaN], here [None],
    when there is no digit.  The result is the integer the digits denote;
    the number of the language is the double nearest to it, which is the
    same integer below 2^53 (and -0 is 0 here). *)
Definition parseInt (value : jsstring) (radix : Z) : option Z :=
  let s := dropWhile isStrWhiteSpace value in
  let negative := bool_decide (head s = Some 45) in
  let s := match s with
           | c :: rest => if (c =? 43) || (c =? 45) then rest else s
           | [] => s
           end in
  let r := ToInt32 radix in
  if negb (r =? 0) && ((r <? 2) || (r >? 36)) then None
  else
    let stripPrefix := (r =? 0) || (r =? 16) in
    let r := if r =? 0 then 10 else r in
    let '(s, r) :=
      match s with
      | a :: b :: rest =>
          if stripPrefix && (a =? 48) && ((b =? 120) || (b =? 88)) then (rest, 16)
          else (s, r)
      | _ => (s, r)
      end in
    match takeWhile (isRadixDigit r) s with
    | [] => None
    | digits =>
        let n := foldl (fun n c => n * r + default 0 (radixDigit c)) 0 digits in
        Some (if negative then - n else n)
    end.

(** Every comparison with [NaN] is false and [String.fromCharCode(NaN)] is
    the unit 0.  [String.fromCharCode] keeps the low sixteen bits of its
    argument.  Where the double is not the integer itself, the integer is
    below -2^53 or above 2^53, so that the first or the last test sends it
    to U+FFFD whatever the tests between them say. *)
Definition decodeNumericCharacterReference (value : jsstring) (base : Z) : jsstring :=
  match parseInt value base with
  | None => [0]
  | Some code =>
      if (code <? 9) || (code =? 11) || ((code >? 13) && (code <? 32))
         || ((code >? 126) && (code <? 160))
         || ((code >? 55295) && (code <? 57344))
         || ((code >? 64975) && (code <? 65008))
         || (Z.land code 65535 =? 65535) || (Z.land code 65535 =? 65534)
         || (code >? 1114111)
      then [65533]
      else [code mod 65536]                       (* String.fromCharCode *)
  end.

(** The table [characterEntities] of the source has 2125 entries; the
    development takes the lookup as a parameter. *)
Class CharacterEntities := {
  characterEntities : jsstring -> option jsstring
}.

Definition decodeNamedCharacterReference `{CharacterEntities} (value : jsstring)
    : option jsstring :=
  characterEntities value.

(** What [characterEscapeOrReference] matches at the head of [value]: the
    length of the match and its two groups. *)
Definition matchEscapeOrReference (value : jsstring)
    : option (nat * jsstring * jsstring) :=
  match value with
  | c :: rest =>
      if c =? 92 then
        match rest with
        | p :: _ => if isAsciiPunctuation p then Some (2%nat, [p], []) else None
        | [] => None
        end
      else if c =? 38 then
        let closes (body : jsstring) :=
          bool_decide (head (drop (length body) rest) = Some 59) in
        match rest with
        | h :: more =>
            if h =? 35 then
              let digits := takeWhile isDigit more in
              if bool_decide (1 <= length digits <= 7)%nat && closes (h :: digits)
              then Some (S (S (S (length digits))), [], h :: digits)
              else
                match more with
                | x :: hexPart =>
                    let hex := takeWhile isHexDigit hexPart in
                    if ((x =? 120) || (x =? 88))
                       && bool_decide (1 <= length hex <= 6)%nat
                       && closes (h :: x :: hex)
                    then Some (S (S (S (S (length hex)))), [], h :: x :: hex)
                    else None
                | [] => None
                end
            else
              let name := takeWhile isAlphanumeric rest in
              if bool_decide (1 <= length name <= 31)%nat && closes name
              then Some (S (S (length name)), [], name)
              else None
        | [] => None
        end
      else None
  | [] => None
  end.

(** [decode($0, $1, $2)]. *)
Definition decode `{CharacterEntities} (m0 m1 m2 : jsstring) : jsstring :=
  match m1 with
  | _ :: _ => m1
  | [] =>
      if bool_decide (head m2 = Some 35) then
        let hex := bool_decide (m2 !! 1%nat = Some 120 ∨ m2 !! 1%nat = Some 88) in
        decodeNumericCharacterReference (drop (if hex then 2 else 1)%nat m2)
          (if hex then 16 else 10)
      else
        match decodeNamedCharacterReference m2 with
        | Some (c :: s) => c :: s
        | _ => m0
        end
  end.

(** [value.replace(characterEscapeOrReference, decode)]; [skip] counts the
    units of the current match that are still to be passed over. *)
Fixpoint decodeString_from `{CharacterEntities} (skip : nat) (value : jsstring) : jsstring :=
  match value with
  | [] => []
  | c :: rest =>
      match skip with
      | S k => decodeString_from k rest
      | O =>
          match matchEscapeOrReference value with
          | Some (n, m1, m2) => decode (take n value) m1 m2 ++ decodeString_from (n - 1) rest
          | None => c :: decodeString_from 0 rest
          end
      end
  end.

Definition decodeString `{CharacterEntities} (value : jsstring) : jsstring :=
  decodeString_from 0 value.

(** [association(node)]: the label, or else the decoded identifier. *)
Definition association `{CharacterEntities} (node : Node) : jsstring :=
  match label node, identifier node with
  | _ :: _, _ => label node
  | [], [] => []
  | [], _ :: _ => decodeString (identifier node)
  end.

(** ** Serializer *)

(** What the regular expression [/\r?\n|\r/] matches at the head of a
    string: the length of the line ending there, [0] if there is none. *)
Definition eolAt (value : jsstring) : nat :=
  match value with
  | c :: rest =>
      if c =? 13 then (if bool_decide (head rest = Some 10) then 2%nat else 1%nat)
      else if c =? 10 then 1%nat
      else 0%nat
  | [] => 0%nat
  end.

(** [value.split(/\r?\n|\r/g)]; [current] is the chunk being read and [skip]
    the second unit of a CR LF still to be passed over. *)
Fixpoint split_eol (skip : bool) (current : jsstring) (value : jsstring)
    : list jsstring :=
  match value with
  | [] => [current]
  | c :: rest =>
      if skip then split_eol false current rest
      else match eolAt value with
           | O => split_eol false (current ++ [c]) rest
           | S n => current :: split_eol (bool_decide (n = 1%nat)) [] rest
           end
  end.

(** The position tracker: [track(config)] and its three operations. *)
Record Tracker := {
  line : Z;
  column : Z;
  lineShift : Z
}.

(** The fields of [info]/[safeOptions] the serializer passes around; a
    missing number is [0], which [track] replaces by its default. *)
Record Info := {
  before : jsstring;
  after : jsstring;
  now_line : Z;
  now_column : Z;
  info_lineShift : Z
}.

Definition track (config : Info) : Tracker :=
  {| lineShift := info_lineShift config;
     line := if now_line config =? 0 then 1 else now_line config;
     column := if now_column config =? 0 then 1 else now_column config |}.

Definition current (t : Tracker) (b a : jsstring) : Info :=
  {| before := b; after := a; now_line := line t; now_column := column t;
     info_lineShift := lineShift t |}.

Definition shift (n : Z) (t : Tracker) : Tracker :=
  {| line := line t; column := column t; lineShift := lineShift t + n |}.

(** [move(input)] returns its input; this is the tracker afterwards. *)
Definition move (input : jsstring) (t : Tracker) : Tracker :=
  let chunks := split_eol false [] input in
  let tail := default [] (last chunks) in
  {| line := line t + (Z.of_nat (length chunks) - 1);
     column := if bool_decide (length chunks = 1%nat)
               then column t + Z.of_nat (length tail)
               else 1 + Z.of_nat (length tail) + lineShift t;
     lineShift := lineShift t |}.

(** [indentLines(value, map)]: [current] is the line being read, [line] its
    number; [one] hands it to [map] with the flag [!value]. *)
Fixpoint indentLines_from (map : jsstring -> Z -> bool -> jsstring) (skip : bool)
    (line : Z) (current : jsstring) (value : jsstring) : jsstring :=
  let one (v : jsstring) := map v line (bool_decide (v = [])) in
  match value with
  | [] => one current
  | c :: rest =>
      if skip then indentLines_from map false line current rest
      else match eolAt value with
           | O => indentLines_from map false line (current ++ [c]) rest
           | S n => one current ++ take (S n) value
                    ++ indentLines_from map (bool_decide (n = 1%nat)) (line + 1) [] rest
           end
  end.

Definition indentLines (value : jsstring) (map : jsstring -> Z -> bool -> jsstring)
    : jsstring :=
  indentLines_from map false 0 [] value.

(** The mutable part of the serializer's [state]. *)
Record State := {
  constructs : list string;          (* state.stack *)
  indexStack : list Z;
  bulletLastUsed : option jsstring
}.

(** [state.enter(name)] and the [exit] function it returns. *)
Definition state_enter (name : string) (st : State) : State :=
  {| constructs := constructs st ++ [name]; indexStack := indexStack st;
     bulletLastUsed := bulletLastUsed st |}.
Definition state_exit (st : State) : State :=
  {| constructs := removelast (constructs st); indexStack := indexStack st;
     bulletLastUsed := bulletLastUsed st |}.

(** An unsafe pattern. *)
Record Unsafe := {
  character : jsstring;
  u_before : option string;          (* source of a regular expression *)
  u_after : option string;
  atBreak : bool;
  inConstruct : list string;
  notInConstruct : list string
}.

(** What a join function answers. *)
Inductive JoinResult :=
  | J_true
  | J_false
  | J_number (n : nat)
  | J_undefined.

(** The host of the serializer: the handlers of the other node types, the
    join functions, the unsafe patterns, and the regular-expression engine,
    which for a compiled pattern yields the successive matches on a string
    as pairs of [match.index] and the length of [match[1]]. *)
Class ToMarkdownHost := {
  handle : Node -> Node -> State -> Info -> jsstring * State;
  join : list (Node -> Node -> Node -> State -> JoinResult);
  unsafe : list Unsafe;
  patternCompile : Unsafe -> jsstring -> list (nat * nat)
}.

Definition listInScope (stack : list string) (lst : list string) (none : bool) : bool :=
  match lst with
  | [] => none
  | _ => existsb (fun name => bool_decide (name ∈ stack)) lst
  end.

Definition patternInScope (stack : list string) (pattern : Unsafe) : bool :=
  listInScope stack (inConstruct pattern) true
  && negb (listInScope stack (notInConstruct pattern) false).

(** [between(left, right, parent, state)]: the join functions are asked from
    the last to the first. *)
Fixpoint between_from (joins : list (Node -> Node -> Node -> State -> JoinResult))
    (left right parent : Node) (st : State) : jsstring :=
  match joins with
  | [] => [10; 10]
  | j :: earlier =>
      match j left right parent st with
      | J_true => [10; 10]
      | J_number n =>
          if bool_decide (n = 1%nat) then [10; 10] else replicate (1 + n) 10
      | J_false => [10; 10] ++ str "<!---->" ++ [10; 10]
      | J_undefined => between_from earlier left right parent st
      end
  end.

Definition between `{ToMarkdownHost} (left right parent : Node) (st : State) : jsstring :=
  between_from (rev join) left right parent st.

(** The loop of [containerFlow] over the children that are left; [index] is
    the index of the first of them. *)
Fixpoint containerFlow_from `{ToMarkdownHost} (parent : Node) (kids : list Node)
    (index : Z) (tracker : Tracker) (st : State) : jsstring * State :=
  match kids with
  | [] => ([], st)
  | child :: rest =>
      let st := {| constructs := constructs st;
                   indexStack := removelast (indexStack st) ++ [index];
                   bulletLastUsed := bulletLastUsed st |} in
      let '(text, st) := handle child parent st (current tracker [10] [10]) in
      let tracker := move text tracker in
      let st := if negb (String.eqb (ntype child) "list")
                then {| constructs := constructs st; indexStack := indexStack st;
                        bulletLastUsed := None |}
                else st in
      match rest with
      | [] => (text, st)
      | next :: _ =>
          let sep := between child next parent st in
          let tracker := move sep tracker in
          let '(more, st) := containerFlow_from parent rest (index + 1) tracker st in
          (text ++ sep ++ more, st)
      end
  end.

Definition containerFlow `{ToMarkdownHost} (parent : Node) (st : State) (info : Info)
    : jsstring * State :=
  let tracker := track info in
  let st := {| constructs := constructs st; indexStack := indexStack st ++ [-1];
               bulletLastUsed := bulletLastUsed st |} in
  let '(text, st) := containerFlow_from parent (children parent) 0 tracker st in
  (text, {| constructs := constructs st; indexStack := removelast (indexStack st);
            bulletLastUsed := bulletLastUsed st |}).

(** [value.slice(from, to)] on a string, for indices that are not negative. *)
Definition jsslice (value : jsstring) (from to : nat) : jsstring :=
  take (to - from) (drop from value).

(** The matches of [/\\(?=[!-/:-@[-`{-~])/g] on [whole], from index [i]. *)
Fixpoint backslashPositions (i : nat) (whole : jsstring) : list nat :=
  match whole with
  | c :: rest =>
      (if (c =? 92) && match rest with
                       | p :: _ => isAsciiPunctuation p
                       | [] => false
                       end
       then [i] else [])
      ++ backslashPositions (S i) rest
  | [] => []
  end.

Fixpoint escapeBackslashes_from (value : jsstring) (start : nat) (positions : list nat)
    : jsstring :=
  match positions with
  | [] => drop start value
  | p :: more =>
      (if bool_decide (start ≠ p) then jsslice value start p else [])
      ++ [92] ++ escapeBackslashes_from value p more
  end.

Definition escapeBackslashes (value after : jsstring) : jsstring :=
  escapeBackslashes_from value 0 (backslashPositions 0 (value ++ after)).

(** [code.toString(16).toUpperCase()]. *)
Fixpoint hexUpper (d : Hexadecimal.uint) : jsstring :=
  match d with
  | Hexadecimal.Nil => []
  | Hexadecimal.D0 r => 48 :: hexUpper r
  | Hexadecimal.D1 r => 49 :: hexUpper r
  | Hexadecimal.D2 r => 50 :: hexUpper r
  | Hexadecimal.D3 r => 51 :: hexUpper r
  | Hexadecimal.D4 r => 52 :: hexUpper r
  | Hexadecimal.D5 r => 53 :: hexUpper r
  | Hexadecimal.D6 r => 54 :: hexUpper r
  | Hexadecimal.D7 r => 55 :: hexUpper r
  | Hexadecimal.D8 r => 56 :: hexUpper r
  | Hexadecimal.D9 r => 57 :: hexUpper r
  | Hexadecimal.Da r => 65 :: hexUpper r
  | Hexadecimal.Db r => 66 :: hexUpper r
  | Hexadecimal.Dc r => 67 :: hexUpper r
  | Hexadecimal.Dd r => 68 :: hexUpper r
  | Hexadecimal.De r => 69 :: hexUpper r
  | Hexadecimal.Df r => 70 :: hexUpper r
  end.

Definition toStringHexUpper (code : Z) : jsstring :=
  hexUpper (N.to_hex_uint (Z.to_N code)).

(** [positions.sort(numerical)] on positions that are all different. *)
Fixpoint insertNumerical (p : nat) (sorted : list nat) : list nat :=
  match sorted with
  | [] => [p]
  | q :: more => if (p <=? q)%nat then p :: sorted else q :: insertNumerical p more
  end.

Definition sortNumerical (positions : list nat) : list nat :=
  foldr insertNumerical [] positions.

(** The first loop of [safe]: the positions the in-scope patterns match at,
    with what is known of each ([infos]). *)
Definition recordMatch (pattern : Unsafe)
    (acc : list nat * gmap nat (bool * bool)) (m : nat * nat)
    : list nat * gmap nat (bool * bool) :=
  let '(positions, infos) := acc in
  let before := bool_decide (is_Some (u_before pattern)) || atBreak pattern in
  let after := bool_decide (is_Some (u_after pattern)) in
  let position := (m.1 + (if before then m.2 else 0))%nat in
  if bool_decide (position ∈ positions) then
    match infos !! position with
    | Some (b, a) => (positions, <[position := (b && before, a && after)]> infos)
    | None => (positions, infos)
    end
  else (positions ++ [position], <[position := (before, after)]> infos).

Definition collectPositions `{ToMarkdownHost} (stack : list string) (value : jsstring)
    : list nat * gmap nat (bool * bool) :=
  foldl (fun acc pattern =>
           if patternInScope stack pattern
           then foldl (recordMatch pattern) acc (patternCompile pattern value)
           else acc)
        ([], ∅) unsafe.

(** The second loop of [safe], over the sorted positions that are left;
    [prev] is [positions[index - 1]]. *)
Fixpoint safe_from (value : jsstring) (infos : gmap nat (bool * bool))
    (encode : list Z) (after : jsstring) (end' : nat)
    (prev : option nat) (positions : list nat) (start : nat) : jsstring :=
  match positions with
  | [] => escapeBackslashes (jsslice value start end') after
  | position :: more =>
      let info p := default (false, false) (infos !! p) in
      let continue := safe_from value infos encode after end' (Some position) more in
      if (position <? start)%nat || (end' <=? position)%nat then continue start
      else if ((position + 1 <? end')%nat
               && bool_decide (head more = Some (position + 1)%nat)
               && (info position).2
               && negb (info (position + 1)%nat).1
               && negb (info (position + 1)%nat).2)
              || (bool_decide (S <$> prev = Some position)
                  && (info position).1
                  && negb (info (position - 1)%nat).1
                  && negb (info (position - 1)%nat).2)
      then continue start
      else
        (if bool_decide (start ≠ position)
         then escapeBackslashes (jsslice value start position) [92] else [])
        ++ match value !! position with
           | Some c =>
               if isAsciiPunctuation c && negb (bool_decide (c ∈ encode))
               then [92] ++ continue position
               else str "&#x" ++ toStringHexUpper c ++ [59] ++ continue (S position)
           | None => continue position
           end
  end.

(** [safe(state, input, config)]. *)
Definition safe `{ToMarkdownHost} (st : State) (input : jsstring) (config : Info)
    (encode : list Z) : jsstring :=
  let value := before config ++ input ++ after config in
  let '(positions, infos) := collectPositions (constructs st) value in
  let positions := sortNumerical positions in
  let start := length (before config) in
  let end' := (length value - length (after config))%nat in
  safe_from value infos encode (after config) end' None positions start.

(** The [map] of [footnoteDefinition]. *)
Definition footnoteDefinition_map (line : jsstring) (index : Z) (blank : bool) : jsstring :=
  if negb (index =? 0) then (if blank then [] else str "    ") ++ line
  else line.

(** The handler of a [footnoteDefinition] node: the text and the state it
    leaves. *)
Definition footnoteDefinition `{CharacterEntities} `{ToMarkdownHost}
    (node : Node) (st : State) (safeOptions : Info) : jsstring * State :=
  let tracker := track safeOptions in
  let value := str "[^" in
  let tracker := move (str "[^") tracker in
  let st := state_enter "footnoteDefinition" st in
  let st := state_enter "label" st in
  let escaped := safe st (association node) (current tracker value (str "]")) [] in
  let value := value ++ escaped in
  let tracker := move escaped tracker in
  let st := state_exit st in
  let marker := str "]:" ++ (match children node with
                             | [] => []
                             | _ :: _ => str " "
                             end) in
  let value := value ++ marker in
  let tracker := move marker tracker in
  let tracker := shift 4 tracker in
  let '(flow, st) := containerFlow node st (current tracker [] []) in
  let body := indentLines flow footnoteDefinition_map in
  let value := value ++ body in
  let st := state_exit st in
  (value, st).

(** ** The host's container loop around one definition *)

(** [footnoteDefinitionEnd]: the exiter of the construct. *)
Definition footnoteDefinitionEnd (c : Context) : Context :=
  fst (effects_exit "footnoteDefinition" c).

(** The host moved to position [p]. *)
Definition atPosition (p : Point) (c : Context) : Context :=
  {| chunks := chunks c; heap := heap c; events := events c; stack := stack c; now := p |}.

(** The line that starts [input], up to and with its line ending. *)
Fixpoint lineOf (input : list Z) : list Z :=
  match input with
  | [] => []
  | c :: rest => if markdownLineEnding (Some c) then [c] else c :: lineOf rest
  end.

(** The lines of [input], each with its line ending; [current] is the line
    being read. *)
Fixpoint codeLines (current : list Z) (input : list Z) : list (list Z) :=
  match input with
  | [] => match current with [] => [] | _ :: _ => [current] end
  | c :: rest =>
      if markdownLineEnding (Some c) then (current ++ [c]) :: codeLines [] rest
      else codeLines (current ++ [c]) rest
  end.

(** What the host does with the lines after the one that opened the
    definition: at the start of each line it runs the continuation, with the
    container state the runs before have left; what the continuation leaves
    of an accepted line is content of the definition.  The walk stops at the
    first line the continuation refuses: whether the host closes the
    definition there, or keeps the line in it as a lazy line of an open
    paragraph, is decided by the flow parser of the host.  The result is
    the context, the content, and the position of the refused line if there
    is one. *)
Fixpoint definitionLines (cs : ContainerState) (c : Context) (p : Point)
    (lines : list (list Z)) : Context * list Z * option Point :=
  match lines with
  | [] => (atPosition p c, [], None)
  | line :: more =>
      match tokenizeDefinitionContinuation cs (atPosition p c) with
      | (Ok c', cs') =>
          let '(c'', body, q) := definitionLines cs' c' (p + length line)%nat more in
          (c'', drop (now c' - p) line ++ body, q)
      | (Nok, _) => (atPosition p c, [], Some p)
      end
  end.

(** One definition at the start of the document, as the tokenizer and the
    host's loop see it: the context, the known identifiers, the content of
    the definition and the position of the first line that the continuation
    refused.  When no line was refused the input has ended inside the
    definition, and the host has closed it with [footnoteDefinitionEnd]. *)
Record DefinitionTokens := {
  d_context : Context;
  d_footnotes : list jsstring;
  d_content : list Z;
  d_refused : option Point
}.

Definition tokenizeDefinition `{CaseMapping} (defined : list jsstring) (input : list Z)
    : Result DefinitionTokens :=
  match tokenizeDefinitionStart defined emptyContainerState (initialContext input) with
  | Nok => Nok
  | Ok st =>
      let c := context st in
      let first := lineOf (drop (now c) input) in
      let p := (now c + length first)%nat in
      let '(c', body, q) :=
        definitionLines (containerState st) c p (codeLines [] (drop p input)) in
      Ok {| d_context := match q with
                         | None => footnoteDefinitionEnd c'
                         | Some _ => c'
                         end;
            d_footnotes := footnotes st;
            d_content := first ++ body;
            d_refused := q |}
  end.

(** * Predicates used in the statements and proofs *)

(** ** Invariants of the host's loop *)

(** What an invariant [P] of the machine states and a property [Q] of the
    accepted results ask of one transition. *)
Definition preserved {M A : Type} (P : M -> list Z -> Prop) (Q : A -> Prop)
    (t : Transition M A) (input : list Z) : Prop :=
  match t with
  | Consume m' => forall c rest, input = c :: rest -> P m' rest
  | Goto m' => P m' input
  | Finish (Ok a) => Q a
  | Finish Nok => True
  end.

(** The token [ref] of [c] starts at [s]. *)
Definition tokenAt (c : Context) (ref : nat) (s : Point) : Prop :=
  exists tok, heap c !! ref = Some tok /\ start tok = Some s.

(** ** The call machine while it reads the label *)

(** The effects of the call before the label, at its closing bracket and
    after it. *)
Definition callPrefix (c : Context) : Context :=
  let c := effects_enter "footnoteCall" c in
  let c := effects_enter "footnoteCallLabelMarker" c in
  let c := effects_consume c in
  let c := fst (effects_exit "footnoteCallLabelMarker" c) in
  let c := effects_enter "footnoteCallMarker" c in
  let c := effects_consume c in
  let c := fst (effects_exit "footnoteCallMarker" c) in
  let c := effects_enter "footnoteCallString" c in
  effects_enter_with "chunkString" (Some "string"%string) false c.

Definition callClose (c : Context) : Context * nat :=
  effects_exit "footnoteCallString" (fst (effects_exit "chunkString" c)).

Definition callEnd (c : Context) : Context :=
  let c := effects_enter "footnoteCallLabelMarker" c in
  let c := effects_consume c in
  let c := fst (effects_exit "footnoteCallLabelMarker" c) in
  fst (effects_exit "footnoteCall" c).

Definition callIdentifier `{CaseMapping} (c : Context) : jsstring :=
  normalizeIdentifier (sliceSerialize (callClose c).1 (callClose c).2 false).

Definition inData (sz : Z) (dt : bool) (cx : Context) : Call.Machine :=
  {| Call.state := Call.S_callData; Call.size := sz; Call.data := dt; Call.ctx := cx |}.

Definition inEscape (sz : Z) (dt : bool) (cx : Context) : Call.Machine :=
  {| Call.state := Call.S_callEscape; Call.size := sz; Call.data := dt; Call.ctx := cx |}.

Definition labelMachine (esc : bool) (sz : Z) (dt : bool) (cx : Context) : Call.Machine :=
  if esc then inEscape sz dt cx else inData sz dt cx.




(** ** The definition machine *)

Definition labelTok (c : Context) (e : option Point) (tok : Token) : Prop :=
  type tok = "footnoteDefinitionLabelString"%string /\
  start tok = Some (now c + 2)%nat /\ end_ tok = e.

Definition labelOpen (c cx : Context) : Prop :=
  (definitionLabelToken c < length (heap cx))%nat /\ (now c + 2 <= now cx)%nat /\
  exists tok, heap cx !! definitionLabelToken c = Some tok /\ labelTok c None tok.

(** The identifier of the first [k] codes after [[^]. *)
Definition labelIdentifier `{CaseMapping} (c : Context) (k : nat) : jsstring :=
  normalizeIdentifier
    (serializeChunks false false (take k (drop (now c + 2) (chunks c)))).

Definition labelClosed (c : Context) (k : nat) (cx : Context) : Prop :=
  stack cx = length (heap c) :: stack c /\
  (definitionLabelToken c < length (heap cx))%nat /\
  (exit, definitionLabelToken c) ∈ events cx /\
  chunks c !! (now c + 2 + k)%nat = Some 93 /\
  exists tok, heap cx !! definitionLabelToken c = Some tok /\
              labelTok c (Some (now c + 2 + k)%nat) tok.

(** The invariant of the definition machine started in [c]. *)
Definition defP `{CaseMapping} (c : Context) (m : Definition_.Machine) (input : list Z)
    : Prop :=
  let L := length (heap c) in
  let t1 := definitionLabelToken c in
  let cx := Definition_.ctx m in
  input = drop (now cx) (chunks c) /\ chunks cx = chunks c /\
  match Definition_.state m with
  | Definition_.S_start => cx = c
  | Definition_.S_labelStart =>
      stack cx = (L + 1)%nat :: L :: stack c /\ length (heap cx) = (L + 3)%nat /\
      now cx = S (now c)
  | Definition_.S_atBreak =>
      stack cx = t1 :: (L + 1)%nat :: L :: stack c /\ labelOpen c cx
  | Definition_.S_label | Definition_.S_labelEscape =>
      (exists r, stack cx = r :: t1 :: (L + 1)%nat :: L :: stack c /\ (t1 < r)%nat) /\
      labelOpen c cx
  | Definition_.S_labelAfter =>
      exists k, labelClosed c k cx /\ now cx = (now c + 2 + k + 1)%nat /\
                Definition_.identifier m = labelIdentifier c k
  | Definition_.S_check | Definition_.S_onBlank | Definition_.S_nonBlank =>
      exists k, labelClosed c k cx /\ now cx = (now c + 2 + k + 2)%nat /\
                Definition_.identifier m = labelIdentifier c k /\
                chunks c !! (now c + 2 + k + 1)%nat = Some 58
  end.

(** What holds of an accepted definition start. *)
Definition defQ `{CaseMapping} (c : Context) (d : list jsstring) (st : Started) : Prop :=
  let cx := context st in
  chunks cx = chunks c /\
  exists k, labelClosed c k cx /\ chunks c !! (now c + 2 + k + 1)%nat = Some 58 /\
            (now c + 2 + k + 2 <= now cx <= now c + 2 + k + 3)%nat /\
            footnotes st = (if bool_decide (labelIdentifier c k ∈ d) then d
                            else d ++ [labelIdentifier c k]).

(** A state of the definition machine. *)
Definition defM (s : Definition_.State) (id : jsstring) (sz : Z) (dt : bool)
    (cx : Context) (cs : ContainerState) : Definition_.Machine :=
  {| Definition_.state := s; Definition_.identifier := id; Definition_.size := sz;
     Definition_.data := dt; Definition_.ctx := cx; Definition_.cstate := cs |}.

(** The effects of the definition start before the label and at the
    closing bracket of the label. *)
Definition definitionPrefix (c : Context) : Context :=
  let c := effects_enter_with "footnoteDefinition" None true c in
  let c := effects_enter "footnoteDefinitionLabel" c in
  let c := effects_enter "footnoteDefinitionLabelMarker" c in
  let c := effects_consume c in
  let c := fst (effects_exit "footnoteDefinitionLabelMarker" c) in
  let c := effects_enter "footnoteDefinitionMarker" c in
  let c := effects_consume c in
  let c := fst (effects_exit "footnoteDefinitionMarker" c) in
  effects_enter "footnoteDefinitionLabelString" c.


(** ** Labels *)

(** A unit of a label that is neither whitespace nor a bracket nor a
    backslash. *)
Definition plainUnit (c : Z) : bool :=
  negb (markdownLineEndingOrSpace (Some c))
  && negb ((c =? 91) || (c =? 92) || (c =? 93)).

(** What the tokenizers of a call and of a definition take for a label: a
    backslash escapes a bracket or a backslash that follows it, no other
    bracket occurs, and the label does not end in a backslash, which would
    escape the closing bracket.  [escaped] says that the code before was a
    backslash that can escape. *)
Fixpoint labelCodes (escaped : bool) (codes : list Z) : bool :=
  match codes with
  | [] => negb escaped
  | c :: rest =>
      if escaped && ((c =? 91) || (c =? 92) || (c =? 93)) then labelCodes false rest
      else if (c =? 91) || (c =? 93) then false
      else labelCodes (c =? 92) rest
  end.

(** Some code of the label is neither a line ending nor a space. *)
Definition hasData (codes : list Z) : bool :=
  existsb (fun c => negb (markdownLineEndingOrSpace (Some c))) codes.

(** The states in which the definition machine reads the label, and the
    one in which the code before was a backslash. *)
Definition isLabelState (s : Definition_.State) : bool :=
  match s with
  | Definition_.S_atBreak | Definition_.S_label | Definition_.S_labelEscape => true
  | _ => false
  end.

Definition isEscapeState (s : Definition_.State) : bool :=
  match s with
  | Definition_.S_labelEscape => true
  | _ => false
  end.

(** The state in which the definition machine is after a code of the label
    that was not escaped. *)
Definition nextLabelState (c : Z) : Definition_.State :=
  if markdownLineEnding (Some c) then Definition_.S_atBreak
  else if c =? 92 then Definition_.S_labelEscape
  else Definition_.S_label.

(** ** The list of known identifiers along a parse *)

(** The host runs the tokenizers of the extension one attempt after the
    other.  The list [self.parser.footnotes] is absent when the parse
    begins, which both tokenizers read as the empty list, and the only code
    that writes to it is [done] of [tokenizeDefinitionStart].  An attempt is
    the start of a definition or a call, with the context in which the host
    enters it. *)
Inductive Attempt :=
  | AttemptDefinition (cs : ContainerState) (c : Context)
  | AttemptCall (c : Context).

Definition attemptContext (a : Attempt) : Context :=
  match a with
  | AttemptDefinition _ c => c
  | AttemptCall c => c
  end.

(** The list an attempt leaves, when it is entered with [defined]. *)
Definition footnotesAfterAttempt `{CaseMapping} (defined : list jsstring) (a : Attempt)
    : list jsstring :=
  match a with
  | AttemptDefinition cs c =>
      match tokenizeDefinitionStart defined cs c with
      | Ok st => footnotes st
      | Nok => defined
      end
  | AttemptCall _ => defined
  end.

(** The list after the attempts of [scan], made in this order from the
    beginning of the parse. *)
Definition footnotesAfter `{CaseMapping} (scan : list Attempt) : list jsstring :=
  foldl footnotesAfterAttempt [] scan.

(** The attempts of [scan] were made on the stream of [c], each at a
    position before the one of [c]: the scan went forward to [c]. *)
Definition scannedBefore (scan : list Attempt) (c : Context) : Prop :=
  Forall (fun a => chunks (attemptContext a) = chunks c
                   /\ (now (attemptContext a) < now c)%nat) scan.


(** ** Lines of a definition *)

(** The line starts with at least four markdown spaces (a tab has been
    expanded by the host into a tab code and virtual spaces, one code per
    column). *)
Definition indentedBy4 (input : list Z) : bool :=
  match input with
  | a :: b :: c :: d :: _ =>
      markdownSpace (Some a) && markdownSpace (Some b)
      && markdownSpace (Some c) && markdownSpace (Some d)
  | _ => false
  end.

(** The number of markdown spaces [input] starts with, at most [n]. *)
Fixpoint spacesUpTo (n : nat) (input : list Z) : nat :=
  match n, input with
  | S n', c :: rest => if markdownSpace (Some c) then S (spacesUpTo n' rest) else O
  | _, _ => O
  end.

(** The effect of [resolveAllNote], by recursion on the events that are
    still to be visited: an enter event of a note start keeps its place, its
    token becomes data, and the four events after it are dropped.  [fuel]
    bounds the number of events. *)
Fixpoint retypeNoteStarts (fuel : nat) (h : list Token) (events : list Event)
    : list Token * list Event :=
  match fuel, events with
  | S n, e :: rest =>
      if bool_decide (e.1 = enter) && isType h e "inlineNoteStart" then
        let '(h', r) := retypeNoteStarts n (alter (retype "data") e.2 h) (drop 4 rest) in
        (h', e :: r)
      else
        let '(h', r) := retypeNoteStarts n h rest in (h', e :: r)
  | _, _ => (h, events)
  end.

(** Events are properly nested when every exit closes the token that was
    entered last and is still open; [open] holds the open tokens, the last
    one first. *)
Fixpoint nested (open : list nat) (events : list Event) : bool :=
  match events with
  | [] => bool_decide (open = [])
  | (enter, r) :: rest => nested (r :: open) rest
  | (exit, r) :: rest =>
      match open with
      | top :: open' => bool_decide (top = r) && nested open' rest
      | [] => false
      end
  end.

(** The text tokenizer of the host on one character of plain text. *)
Definition hostData (c : Context) : Context :=
  fst (effects_exit "data" (effects_consume (effects_enter "data" c))).

(** The events the tokenizers leave for the inline note [^[a]], at the
    moment the host calls [resolveToNoteEnd]. *)
Definition inlineNoteExample : option Context :=
  match tokenizeNoteStart (initialContext (str "^[a]")) with
  | Ok c =>
      match tokenizeNoteEnd (hostData c) with
      | Ok c => Some c
      | Nok => None
      end
  | Nok => None
  end.

Definition inlineNoteInput : list Token * list Event :=
  match inlineNoteExample with
  | Some c => (heap c, events c)
  | None => ([], [])
  end.

(** ** Labels that differ in whitespace and case only *)

(** The words of a label: its maximal runs of units that are not markdown
    whitespace. *)
Fixpoint words (value : jsstring) : list jsstring :=
  match value with
  | [] => []
  | c :: rest =>
      if isWhitespaceUnit c then words rest
      else
        match rest with
        | [] => [[c]]
        | c' :: _ =>
            if isWhitespaceUnit c' then [c] :: words rest
            else
              match words rest with
              | w :: ws => (c :: w) :: ws
              | [] => [[c]]
              end
        end
  end.

(** Words joined by single spaces. *)
Fixpoint unwords (ws : list jsstring) : jsstring :=
  match ws with
  | [] => []
  | w :: more =>
      match more with
      | [] => w
      | _ :: _ => w ++ 32 :: unwords more
      end
  end.

(** ** The serialized body, in the words of the format *)




(** ** A small host *)

(** A host with no entity table, no unsafe patterns and no join functions,
    which writes a node as its text. *)
Definition noEntities : CharacterEntities :=
  {| characterEntities := fun _ => None |}.

Definition plainHost : ToMarkdownHost :=
  {| handle := fun node _ st _ => (toString node, st);
     join := [];
     unsafe := [];
     patternCompile := fun _ _ => [] |}.

Definition emptyState : State :=
  {| constructs := []; indexStack := []; bulletLastUsed := None |}.

Definition emptyInfo : Info :=
  {| before := []; after := []; now_line := 0; now_column := 0; info_lineShift := 0 |}.

(** ** The host around a definition *)


Definition textNode (v : jsstring) : Node :=
  {| ntype := "text"; identifier := []; label := []; value := v; children := [] |}.

Definition paragraphNode (v : jsstring) : Node :=
  {| ntype := "paragraph"; identifier := []; label := []; value := [];
     children := [textNode v] |}.








(** ** The tokens of a definition with a plain label *)



(** * Proof automation *)

(** The rewrite rules on contexts, and the normalisation of a state of the
    call machine and of the definition machine. *)
Create Rewrite HintDb ctx.


Ltac normd :=
  cbv zeta;
  cbn [Definition_.ctx Definition_.state Definition_.size Definition_.data
       Definition_.identifier Definition_.cstate Definition_.goto
       Definition_.withSize Definition_.withData Definition_.withIdentifier];
  autorewrite with ctx; cbn [tail].

(** ** Further notions used in the statements *)

(** The number of codes [factorySpace] may consume at most on [input]: one
    less than [max], and no bound when [max] is absent or zero. *)
Definition spaceBound (max : option Z) (input : list Z) : nat :=
  match max with
  | Some m => if m =? 0 then length input else Z.to_nat (m - 1)
  | None => length input
  end.

(** What is left of a line after the markdown spaces it starts with. *)
Fixpoint afterSpaces (input : list Z) : list Z :=
  match input with
  | c :: rest => if markdownSpace (Some c) then afterSpaces rest else input
  | [] => []
  end.

(** The resolvers that constructs carry, with their identities. *)
Definition resolversOf (constructs : list Construct) : list (nat * Resolver) :=
  omap resolveAll_ constructs.

(** The resolvers [resolveAll] has called after it went over [constructs]. *)
Fixpoint calledAfter (called : list nat) (constructs : list Construct) : list nat :=
  match constructs with
  | [] => called
  | construct :: more =>
      match resolveAll_ construct with
      | Some (id, _) =>
          if bool_decide (id ∈ called) then calledAfter called more
          else calledAfter (called ++ [id]) more
      | None => calledAfter called more
      end
  end.

(** The code points for which [decodeNumericCharacterReference] answers with
    the replacement character: most C0 controls, DEL and the C1 controls,
    surrogates, noncharacters, and what is out of range. *)
Definition dangerousCodePoint (code : Z) : bool :=
  (code <? 9) || (code =? 11) || ((13 <? code) && (code <? 32))
  || ((126 <? code) && (code <? 160))
  || ((55295 <? code) && (code <? 57344))
  || ((64975 <? code) && (code <? 65008))
  || (code mod 65536 =? 65535) || (code mod 65536 =? 65534)
  || (1114111 <? code).

(** What [escapeBackslashes] writes for [value] in front of [after]: a
    backslash is doubled when ASCII punctuation follows it. *)
Fixpoint doubledBackslashes (value after : jsstring) : jsstring :=
  match value with
  | [] => []
  | c :: rest =>
      if (c =? 92) && match rest ++ after with
                      | p :: _ => isAsciiPunctuation p
                      | [] => false
                      end
      then 92 :: 92 :: doubledBackslashes rest after
      else c :: doubledBackslashes rest after
  end.

(** ** The serializer of references *)

(** The position [safe] records for a match of a pattern: [match.index],
    moved behind the group of the match when the pattern has a [before] or
    is [atBreak]. *)
Definition matchPosition (pattern : Unsafe) (m : nat * nat) : nat :=
  (m.1 + (if bool_decide (is_Some (u_before pattern)) || atBreak pattern
          then m.2 else 0))%nat.

(** [footnoteToMarkdown.unsafe]: the one unsafe pattern of the extension. *)
Definition footnoteUnsafe : Unsafe :=
  {| character := str "["; u_before := None; u_after := None; atBreak := false;
     inConstruct := ["phrasing"; "label"; "reference"]%string;
     notInConstruct := [] |}.

(** The handler of a [footnoteReference] node: the text and the state it
    leaves. *)
Definition footnoteReference `{CharacterEntities} `{ToMarkdownHost}
    (node : Node) (st : State) (safeOptions : Info) : jsstring * State :=
  let tracker := track safeOptions in
  let value := str "[^" in
  let tracker := move (str "[^") tracker in
  let st := state_enter "footnoteReference" st in
  let st := state_enter "reference" st in
  let escaped := safe st (association node) (current tracker value (str "]")) [] in
  let value := value ++ escaped in
  let tracker := move escaped tracker in
  let st := state_exit st in
  let st := state_exit st in
  let value := value ++ str "]" in
  (value, st).

(** [footnoteReferencePeek] and [footnotePeek]. *)
Definition footnoteReferencePeek : jsstring := str "[".
Definition footnotePeek : jsstring := str "^".

(** The matches of the regular expression of a pattern that is one
    character and has neither [before] nor [after] nor [atBreak]: every
    index at which the character stands, with no group. *)
Fixpoint unitMatches (c : Z) (index : nat) (value : jsstring) : list (nat * nat) :=
  match value with
  | [] => []
  | x :: rest =>
      (if x =? c then [(index, 0%nat)] else []) ++ unitMatches c (S index) rest
  end.

(** A host that brings no unsafe pattern of its own: the serializer then
    knows the one pattern of the extension. *)
Definition footnoteHost : ToMarkdownHost :=
  {| handle := fun node _ st _ => (toString node, st);
     join := [];
     unsafe := [footnoteUnsafe];
     patternCompile := fun pattern value =>
       match character pattern with
       | [c] => unitMatches c 0 value
       | _ => []
       end |}.

(** ** The plugin in the editor *)

(** An entry of [markdownRenderer.remarkPlugins]: a plugin function, known
    by its identity, or an array of a plugin function and its options.  An
    array is a value of its own and is equal to no function. *)
Inductive PluginEntry :=
  | PluginFunction (plugin : nat)
  | PluginWithOptions (plugin : nat) (inlineNotes : bool).

Global Instance PluginEntry_eq_dec : EqDecision PluginEntry.
Proof. solve_decision. Defined.

(** The identity of the plugin function [remarkFootnotes]. *)
Definition remarkFootnotes : nat := 0.

(** [array.indexOf(value)]: the first index that holds a value strictly
    equal to [value], [-1] when there is none. *)
Fixpoint Array_indexOf {A : Type} `{EqDecision A} (items : list A) (value : A) : Z :=
  match items with
  | [] => -1
  | x :: rest =>
      if decide (x = value) then 0
      else let i := Array_indexOf rest value in if i <? 0 then -1 else i + 1
  end.

(** [activate] and [deactivate] on [markdownRenderer.remarkPlugins];
    [None] is a renderer that is not there. *)
Definition activate (remarkPlugins : option (list PluginEntry))
    : option (list PluginEntry) :=
  match remarkPlugins with
  | Some plugins => Some (plugins ++ [PluginWithOptions remarkFootnotes true])
  | None => None
  end.

Definition deactivate (remarkPlugins : option (list PluginEntry))
    : option (list PluginEntry) :=
  match remarkPlugins with
  | Some plugins =>
      let i := Array_indexOf plugins (PluginFunction remarkFootnotes) in
      if 0 <=? i then Some (Array_splice plugins i 1 []) else Some plugins
  | None => None
  end.


(** ** The stacks of the serializer *)

(** The handlers of the host hand the stack of constructs and the stack of
    indices back as they received them. *)
Definition handleKeepsStacks `{ToMarkdownHost} : Prop :=
  forall child parent st info,
    constructs (handle child parent st info).2 = constructs st
    /\ indexStack (handle child parent st info).2 = indexStack st.
(** * Properties *)
(** ** The effects on a context *)

Section Effects.
Implicit Types (c : Context) (ty : string).

Lemma enter_now ty ct cont c : now (effects_enter_with ty ct cont c) = now c.
  Proof. reflexivity. Qed.
Lemma enter_now' ty c : now (effects_enter ty c) = now c.
  Proof. reflexivity. Qed.
Lemma consume_now c : now (effects_consume c) = S (now c).
  Proof. reflexivity. Qed.
Lemma exit_now ty c : now (effects_exit ty c).1 = now c.
  Proof. unfold effects_exit. destruct (stack c); reflexivity. Qed.

Lemma enter_chunks ty ct cont c : chunks (effects_enter_with ty ct cont c) = chunks c.
  Proof. reflexivity. Qed.
Lemma enter_chunks' ty c : chunks (effects_enter ty c) = chunks c.
  Proof. reflexivity. Qed.
Lemma consume_chunks c : chunks (effects_consume c) = chunks c.
  Proof. reflexivity. Qed.
Lemma exit_chunks ty c : chunks (effects_exit ty c).1 = chunks c.
  Proof. unfold effects_exit. destruct (stack c); reflexivity. Qed.

Lemma enter_stack ty ct cont c :
    stack (effects_enter_with ty ct cont c) = length (heap c) :: stack c.
  Proof. reflexivity. Qed.
Lemma enter_stack' ty c : stack (effects_enter ty c) = length (heap c) :: stack c.
  Proof. reflexivity. Qed.
Lemma consume_stack c : stack (effects_consume c) = stack c.
  Proof. reflexivity. Qed.
Lemma exit_stack ty c : stack (effects_exit ty c).1 = tail (stack c).
  Proof. unfold effects_exit. destruct (stack c) eqn:E; [exact E | reflexivity]. Qed.

Lemma enter_heap_length ty ct cont c :
    length (heap (effects_enter_with ty ct cont c)) = S (length (heap c)).
  Proof. simpl. rewrite length_app. simpl. lia. Qed.
Lemma enter_heap_length' ty c :
    length (heap (effects_enter ty c)) = S (length (heap c)).
  Proof. apply enter_heap_length. Qed.
Lemma consume_heap c : heap (effects_consume c) = heap c.
  Proof. reflexivity. Qed.
Lemma exit_heap_length ty c : length (heap (effects_exit ty c).1) = length (heap c).
  Proof.
    unfold effects_exit. destruct (stack c); cbn [fst heap]; [reflexivity|].
    apply length_alter.
  Qed.

Lemma exit_token ty c top below :
    stack c = top :: below -> (effects_exit ty c).2 = top.
  Proof. intros E. unfold effects_exit. rewrite E. reflexivity. Qed.

Lemma enter_heap_old ty ct cont c ref :
    (ref < length (heap c))%nat ->
    heap (effects_enter_with ty ct cont c) !! ref = heap c !! ref.
  Proof. intros H. simpl. apply lookup_app_l. exact H. Qed.

Lemma enter_heap_new ty ct cont c ref :
    ref = length (heap c) ->
    heap (effects_enter_with ty ct cont c) !! ref =
    Some {| type := ty; start := Some (now c); end_ := None; contentType := ct;
            _container := cont |}.
  Proof. intros ->. simpl. rewrite lookup_app_r by lia. rewrite Nat.sub_diag. reflexivity. Qed.

Lemma exit_heap_ne ty c top below ref :
    stack c = top :: below -> top <> ref ->
    heap (effects_exit ty c).1 !! ref = heap c !! ref.
  Proof.
    intros Hst Hne. unfold effects_exit. rewrite Hst. cbn [fst heap].
    apply list_lookup_alter_ne. exact Hne.
  Qed.

Lemma exit_heap_eq ty c ref below :
    stack c = ref :: below ->
    heap (effects_exit ty c).1 !! ref = setEnd (now c) <$> heap c !! ref.
  Proof.
    intros Hst. unfold effects_exit. rewrite Hst. cbn [fst heap].
    apply list_lookup_alter_eq.
  Qed.

Lemma enter_events ty ct cont c :
    events (effects_enter_with ty ct cont c) = events c ++ [(enter, length (heap c))].
  Proof. reflexivity. Qed.
Lemma consume_events c : events (effects_consume c) = events c.
  Proof. reflexivity. Qed.
Lemma exit_events ty c top below :
    stack c = top :: below -> events (effects_exit ty c).1 = events c ++ [(exit, top)].
  Proof. intros Hst. unfold effects_exit. rewrite Hst. reflexivity. Qed.
Lemma exit_events_incl ty c e : e ∈ events c -> e ∈ events (effects_exit ty c).1.
  Proof.
    unfold effects_exit. destruct (stack c); cbn [fst events]; [auto|].
    intros H. apply elem_of_app. auto.
  Qed.
End Effects.

#[local] Hint Rewrite exit_now enter_now enter_now' consume_now
  exit_chunks enter_chunks enter_chunks' consume_chunks
  enter_stack enter_stack' consume_stack exit_stack
  enter_heap_length enter_heap_length' consume_heap exit_heap_length
  consume_events : ctx.

Lemma drop_cons_inv {A} (l : list A) n x rest :
  drop n l = x :: rest -> l !! n = Some x /\ drop (S n) l = rest.
Proof.
  intros E. split.
  - rewrite <- (Nat.add_0_r n), <- lookup_drop, E. reflexivity.
  - replace (S n) with (n + 1)%nat by lia. rewrite <- drop_drop, E. reflexivity.
Qed.


(** The start of an open token. *)
Lemma tokenAt_enter ty ct cont c ref s :
  tokenAt c ref s -> tokenAt (effects_enter_with ty ct cont c) ref s.
Proof.
  intros (tok & Hl & Hs). exists tok. split; [|exact Hs].
  simpl. apply lookup_app_l_Some. exact Hl.
Qed.

Lemma tokenAt_enter_new ty ct cont c :
  tokenAt (effects_enter_with ty ct cont c) (length (heap c)) (now c).
Proof.
  exists {| type := ty; start := Some (now c); end_ := None; contentType := ct;
            _container := cont |}.
  split; [|reflexivity]. simpl.
  rewrite lookup_app_r by lia. rewrite Nat.sub_diag. reflexivity.
Qed.

Lemma tokenAt_consume c ref s : tokenAt c ref s -> tokenAt (effects_consume c) ref s.
Proof. intros H. exact H. Qed.

Lemma tokenAt_exit ty c ref s : tokenAt c ref s -> tokenAt (effects_exit ty c).1 ref s.
Proof.
  intros (tok & Hl & Hs). unfold effects_exit, tokenAt.
  destruct (stack c) as [|top below]; cbn [fst heap]; [exists tok; auto|].
  destruct (decide (top = ref)) as [->|Hne].
  - exists (setEnd (now c) tok). rewrite list_lookup_alter_eq, Hl. auto.
  - exists tok. rewrite list_lookup_alter_ne by exact Hne. auto.
Qed.

Lemma exit_slice ty c ref below s :
  stack c = ref :: below -> tokenAt c ref s ->
  (effects_exit ty c).2 = ref /\
  sliceStream (effects_exit ty c).1 ref = take (now c - s) (drop s (chunks c)).
Proof.
  intros Hst (tok & Hl & Hs). unfold effects_exit. rewrite Hst. cbn [fst snd].
  split; [reflexivity|]. unfold sliceStream. cbn [heap chunks].
  rewrite list_lookup_alter_eq, Hl. cbn. rewrite Hs. reflexivity.
Qed.

Lemma iter_consume_now k c : now (Nat.iter k effects_consume c) = (now c + k)%nat.
Proof. induction k; simpl; [lia|]. rewrite IHk. lia. Qed.

Lemma iter_consume_chunks k c : chunks (Nat.iter k effects_consume c) = chunks c.
Proof. induction k; simpl; auto. Qed.

Lemma iter_consume_stack k c : stack (Nat.iter k effects_consume c) = stack c.
Proof. induction k; simpl; auto. Qed.

Lemma iter_consume_heap k c : heap (Nat.iter k effects_consume c) = heap c.
Proof. induction k; simpl; auto. Qed.

Lemma tokenAt_iter_consume k c ref s :
  tokenAt c ref s -> tokenAt (Nat.iter k effects_consume c) ref s.
Proof. unfold tokenAt. rewrite iter_consume_heap. auto. Qed.


(** ** An invariant rule for the host's loop *)

Section RunInvariant.
Context {M A : Type} (step : M -> list Z -> Transition M A).
Variable P : M -> list Z -> Prop.
Variable Q : A -> Prop.

Hypothesis step_preserves : forall m input, P m input -> preserved P Q (step m input) input.

Lemma settle_preserves n : forall m input,
    P m input -> preserved P Q (settle step n m input) input.
  Proof.
    induction n as [|n IH]; intros m input HP; simpl;
      pose proof (step_preserves m input HP) as Hs;
      destruct (step m input) as [m'|m'|r]; simpl in *; auto.
  Qed.

Lemma run_invariant : forall input m a,
    P m input -> run step m input = Ok a -> Q a.
  Proof.
    induction input as [|c rest IH]; intros m a HP Hrun.
    - pose proof (settle_preserves 3 m [] HP) as Hs.
      cbn [run] in Hrun. destruct (settle step 3 m []) as [m'|m'|r]; try discriminate.
      subst r. exact Hs.
    - pose proof (settle_preserves 3 m (c :: rest) HP) as Hs.
      cbn [run] in Hrun. destruct (settle step 3 m (c :: rest)) as [m'|m'|r];
        try discriminate.
      + eapply IH; [|exact Hrun]. apply (Hs c rest). reflexivity.
      + subst r. exact Hs.
  Qed.
End RunInvariant.


(** ** The call machine *)

Section CallProofs.
Context `{CM : CaseMapping}.

Lemma run_callData_nil d sz dt cx : run (Call.step d) (inData sz dt cx) [] = Nok.
  Proof. reflexivity. Qed.

Lemma run_callEscape_nil d sz dt cx : run (Call.step d) (inEscape sz dt cx) [] = Nok.
  Proof. reflexivity. Qed.

Lemma run_callData_open d sz dt cx rest :
    run (Call.step d) (inData sz dt cx) (91 :: rest) = Nok.
  Proof. reflexivity. Qed.

Lemma run_callData_full d sz dt cx c rest :
    999 < sz -> run (Call.step d) (inData sz dt cx) (c :: rest) = Nok.
  Proof.
    intros Hsz. cbn. destruct (c =? 91); [reflexivity|].
    destruct (Z.gtb_spec sz 999); [reflexivity | lia].
  Qed.

Lemma run_callData_close d sz dt cx rest :
    sz <= 999 ->
    run (Call.step d) (inData sz dt cx) (93 :: rest) =
    if dt && bool_decide (callIdentifier cx ∈ d) then Ok (callEnd (callClose cx).1) else Nok.
  Proof.
    intros Hsz. cbn. destruct (Z.gtb_spec sz 999); [lia|].
    destruct dt; [|reflexivity]. cbn.
    unfold callIdentifier, callClose.
    destruct (effects_exit "footnoteCallString" _) as [c2 tok]. cbn.
    destruct (bool_decide _); reflexivity.
  Qed.

Lemma run_callData_plain d sz dt cx c rest :
    sz <= 999 -> c <> 91 -> c <> 93 -> c <> 92 ->
    run (Call.step d) (inData sz dt cx) (c :: rest) =
    run (Call.step d)
      (inData (sz + 1) (if negb (markdownLineEndingOrSpace (Some c)) then true else dt)
              (effects_consume cx)) rest.
  Proof.
    intros Hsz H91 H93 H92. cbn.
    destruct (Z.eqb_spec c 91); [lia|].
    destruct (Z.gtb_spec sz 999); [lia|].
    destruct (Z.eqb_spec c 93); [lia|].
    destruct (Z.eqb_spec c 92); [lia|]. reflexivity.
  Qed.

Lemma run_callData_backslash d sz dt cx rest :
    sz <= 999 ->
    run (Call.step d) (inData sz dt cx) (92 :: rest) =
    run (Call.step d) (inEscape (sz + 1) true (effects_consume cx)) rest.
  Proof.
    intros Hsz. cbn. destruct (Z.gtb_spec sz 999); [lia|]. reflexivity.
  Qed.

Lemma run_callEscape_escaped d sz dt cx c rest :
    c = 91 \/ c = 92 \/ c = 93 ->
    run (Call.step d) (inEscape sz dt cx) (c :: rest) =
    run (Call.step d) (inData (sz + 1) dt (effects_consume cx)) rest.
  Proof.
    intros Hc. cbn. rewrite bool_decide_eq_true_2; [reflexivity|].
    destruct Hc as [->|[->| ->]]; auto.
  Qed.

Lemma run_callEscape_other d sz dt cx c rest :
    c <> 91 -> c <> 92 -> c <> 93 ->
    run (Call.step d) (inEscape sz dt cx) (c :: rest) =
    run (Call.step d) (inData sz dt cx) (c :: rest).
  Proof.
    intros H1 H2 H3. cbn. rewrite bool_decide_eq_false_2.
    2:{ intros [H|[H|H]]; congruence. }
    cbn.
    destruct (Z.eqb_spec c 91); [lia|].
    destruct (sz >? 999); [reflexivity|].
    destruct (Z.eqb_spec c 93); [lia|]. reflexivity.
  Qed.

Lemma call_scan d input : forall esc sz dt cx c1,
    run (Call.step d) (labelMachine esc sz dt cx) input = Ok c1 ->
    exists k,
      input !! k = Some 93 /\
      let cK := Nat.iter k effects_consume cx in
      callIdentifier cK ∈ d /\ c1 = callEnd (callClose cK).1 /\
      forall d2, run (Call.step d2) (labelMachine esc sz dt cx) input =
                 if bool_decide (callIdentifier cK ∈ d2) then Ok c1 else Nok.
  Proof.
    induction input as [|c rest IH]; intros esc sz dt cx c1 Hrun.
    { destruct esc; discriminate. }
    assert (Hdata : forall sz dt cx c1,
      run (Call.step d) (inData sz dt cx) (c :: rest) = Ok c1 ->
      exists k,
        (c :: rest) !! k = Some 93 /\
        let cK := Nat.iter k effects_consume cx in
        callIdentifier cK ∈ d /\ c1 = callEnd (callClose cK).1 /\
        forall d2, run (Call.step d2) (inData sz dt cx) (c :: rest) =
                   if bool_decide (callIdentifier cK ∈ d2) then Ok c1 else Nok).
    { clear Hrun esc sz dt cx c1. intros sz dt cx c1 Hrun.
      destruct (Z_le_gt_dec sz 999) as [Hsz|Hsz].
      2:{ rewrite run_callData_full in Hrun by lia. discriminate. }
      destruct (Z.eq_dec c 91) as [->|H91].
      { rewrite run_callData_open in Hrun. discriminate. }
      destruct (Z.eq_dec c 93) as [->|H93].
      { rewrite run_callData_close in Hrun by lia.
        destruct dt; [|discriminate]. simpl in Hrun.
        destruct (bool_decide (callIdentifier cx ∈ d)) eqn:E; [|discriminate].
        apply bool_decide_eq_true_1 in E. injection Hrun as <-.
        exists 0%nat. split; [reflexivity|]. cbv zeta.
        change (Nat.iter 0 effects_consume cx) with cx. split; [exact E|].
        split; [reflexivity|]. intros d2. rewrite run_callData_close by lia.
        reflexivity. }
      destruct (Z.eq_dec c 92) as [->|H92].
      { rewrite run_callData_backslash in Hrun by lia.
        destruct (IH true _ _ _ _ Hrun) as (k & Hk & Hin & Hc1 & Hd2).
        exists (S k). cbv zeta. rewrite Nat.iter_succ_r. split; [exact Hk|].
        split; [exact Hin|]. split; [exact Hc1|].
        intros d2. rewrite run_callData_backslash by lia. apply Hd2. }
      rewrite run_callData_plain in Hrun by assumption.
      destruct (IH false _ _ _ _ Hrun) as (k & Hk & Hin & Hc1 & Hd2).
      exists (S k). cbv zeta. rewrite Nat.iter_succ_r. split; [exact Hk|].
      split; [exact Hin|]. split; [exact Hc1|].
      intros d2. rewrite run_callData_plain by assumption. apply Hd2. }
    destruct esc; [|apply Hdata; exact Hrun].
    unfold labelMachine in *.
    destruct (Z.eq_dec c 91) as [->|H91]; [|destruct (Z.eq_dec c 92) as [->|H92];
      [|destruct (Z.eq_dec c 93) as [->|H93]]].
    4:{ rewrite run_callEscape_other in Hrun by assumption.
        destruct (Hdata _ _ _ _ Hrun) as (k & Hk & Hin & Hc1 & Hd2).
        exists k. split; [exact Hk|]. split; [exact Hin|]. split; [exact Hc1|].
        intros d2. rewrite run_callEscape_other by assumption. apply Hd2. }
    all: rewrite run_callEscape_escaped in Hrun by auto;
      destruct (IH false _ _ _ _ Hrun) as (k & Hk & Hin & Hc1 & Hd2);
      exists (S k); cbv zeta; rewrite Nat.iter_succ_r; (split; [exact Hk|]);
      (split; [exact Hin|]); (split; [exact Hc1|]);
      intros d2; rewrite run_callEscape_escaped by auto; apply Hd2.
  Qed.

  (** The context in which the label of a call is read. *)
Lemma tokenizeFootnoteCall_prefix d c x rest :
    drop (now c) (chunks c) = x :: 94 :: rest ->
    tokenizeFootnoteCall d c = run (Call.step d) (inData 0 false (callPrefix c)) rest.
  Proof. intros E. unfold tokenizeFootnoteCall. rewrite E. reflexivity. Qed.

Lemma tokenizeFootnoteCall_Ok_inv d c c' :
    tokenizeFootnoteCall d c = Ok c' ->
    exists x rest, drop (now c) (chunks c) = x :: 94 :: rest.
  Proof.
    unfold tokenizeFootnoteCall. destruct (drop (now c) (chunks c)) as [|x [|y rest]].
    - discriminate.
    - discriminate.
    - intros Hrun. destruct (Z.eq_dec y 94) as [->|Hy]; [eauto|].
      cbn in Hrun. rewrite bool_decide_eq_false_2 in Hrun by congruence.
      discriminate.
  Qed.

Lemma callPrefix_slice c k :
    let cl := callClose (Nat.iter k effects_consume (callPrefix c)) in
    sliceStream cl.1 cl.2 = take k (drop (now c + 2) (chunks c)).
  Proof.
    cbv zeta. unfold callClose.
    set (cK := Nat.iter k effects_consume (callPrefix c)).
    assert (Hstack : exists chunkRef strRef below,
               stack cK = chunkRef :: strRef :: below /\ tokenAt cK strRef (now c + 2)%nat).
    { subst cK. rewrite iter_consume_stack.
      unfold callPrefix.
      set (c7 := (effects_exit "footnoteCallMarker" _).1).
      assert (Hnow : now c7 = (now c + 2)%nat).
      { subst c7. autorewrite with ctx. lia. }
      exists (length (heap (effects_enter "footnoteCallString" c7))),
             (length (heap c7)), (stack c7).
      split; [reflexivity|].
      apply tokenAt_iter_consume, tokenAt_enter. rewrite <- Hnow.
      apply tokenAt_enter_new. }
    destruct Hstack as (chunkRef & strRef & below & Hst & Htok).
    assert (Hst1 : stack (effects_exit "chunkString" cK).1 = strRef :: below)
      by (rewrite exit_stack, Hst; reflexivity).
    pose proof (tokenAt_exit "chunkString" cK _ _ Htok) as Htok1.
    destruct (exit_slice "footnoteCallString" _ _ _ _ Hst1 Htok1) as [-> ->].
    rewrite exit_now, exit_chunks. subst cK.
    rewrite iter_consume_now, iter_consume_chunks.
    replace (now (callPrefix c)) with (now c + 2)%nat.
    2:{ unfold callPrefix. autorewrite with ctx. lia. }
    replace (chunks (callPrefix c)) with (chunks c).
    2:{ unfold callPrefix. autorewrite with ctx. reflexivity. }
    f_equal. lia.
  Qed.

Lemma callEnd_now c : now (callEnd c) = S (now c).
  Proof. unfold callEnd. autorewrite with ctx. reflexivity. Qed.

Lemma callClose_now c : now (callClose c).1 = now c.
  Proof. unfold callClose. autorewrite with ctx. reflexivity. Qed.

Lemma drop_drop_cons {A} (l : list A) n x y rest :
    drop n l = x :: y :: rest -> drop (n + 2) l = rest.
  Proof.
    intros E. rewrite <- drop_drop, E. reflexivity.
  Qed.

Lemma tokenizeFootnoteCall_decides
      (defined defined' : list jsstring) (c c' : Context) :
    tokenizeFootnoteCall defined' c = Ok c' ->
    let id := normalizeIdentifier (serializeChunks false false (callLabel c c')) in
    (exists x rest, drop (now c) (chunks c) = x :: 94 :: callLabel c c' ++ 93 :: rest)
    /\ id ∈ defined'
    /\ tokenizeFootnoteCall defined c = if bool_decide (id ∈ defined) then Ok c' else Nok.
  Proof.
    intros Hrun. destruct (tokenizeFootnoteCall_Ok_inv _ _ _ Hrun) as (x & input & E).
    rewrite (tokenizeFootnoteCall_prefix _ _ _ _ E) in Hrun.
    destruct (call_scan defined' input false _ _ _ _ Hrun) as (k & Hk & Hin & Hc' & Hall).
    assert (Hlabel : callLabel c c' = take k input).
    { unfold callLabel. rewrite (drop_drop_cons _ _ _ _ _ E). f_equal.
      rewrite Hc', callEnd_now, callClose_now, iter_consume_now.
      unfold callPrefix. autorewrite with ctx. lia. }
    assert (Hid : callIdentifier (Nat.iter k effects_consume (callPrefix c)) =
                  normalizeIdentifier (serializeChunks false false (callLabel c c'))).
    { unfold callIdentifier, sliceSerialize. rewrite callPrefix_slice.
      rewrite (drop_drop_cons _ _ _ _ _ E), Hlabel. reflexivity. }
    cbv zeta. rewrite <- Hid. split; [|split].
    - exists x, (drop (S k) input). rewrite E, Hlabel.
      rewrite (take_drop_middle _ _ _ Hk). reflexivity.
    - exact Hin.
    - rewrite (tokenizeFootnoteCall_prefix _ _ _ _ E). apply (Hall defined).
  Qed.

End CallProofs.

Section CallInvariant.
Context `{CM : CaseMapping}.
Variable c : Context.
Variable d : list jsstring.

End CallInvariant.


(** ** The definition machine *)

Section DefinitionInvariant.
Context `{CM : CaseMapping}.
Variable c : Context.
Variable d : list jsstring.

Lemma labelOpen_marker ty cx :
    labelOpen c cx ->
    labelOpen c (effects_exit ty (effects_consume (effects_enter ty cx))).1.
  Proof.
    intros (Hlen & Hnow & tok & Htok & Hlab). unfold labelOpen, labelTok, definitionLabelToken in *.
    unfold definitionLabelToken, labelTok in *.
    autorewrite with ctx. split; [lia|]. split; [lia|]. exists tok. split; [|exact Hlab].
    rewrite (exit_heap_ne _ _ (length (heap cx)) (stack cx)); [| reflexivity | lia].
    autorewrite with ctx. unfold effects_enter. rewrite enter_heap_old by lia. exact Htok.
  Qed.

Lemma labelClosed_marker ty k cx :
    labelClosed c k cx ->
    labelClosed c k (effects_exit ty (effects_consume (effects_enter ty cx))).1.
  Proof.
    intros (Hst & Hlen & Hev & H93 & tok & Htok & Hlab). unfold labelClosed, labelTok, definitionLabelToken in *.
    unfold definitionLabelToken, labelTok in *.
    autorewrite with ctx. split; [exact Hst|]. split; [lia|]. split.
    { apply exit_events_incl. autorewrite with ctx. unfold effects_enter.
      rewrite enter_events. apply elem_of_app. left. exact Hev. }
    split; [exact H93|]. exists tok. split; [|exact Hlab].
    rewrite (exit_heap_ne _ _ (length (heap cx)) (stack cx)); [| reflexivity | lia].
    autorewrite with ctx. unfold effects_enter. rewrite enter_heap_old by lia. exact Htok.
  Qed.

Lemma def_step_preserves m input :
    defP c m input -> preserved (defP c) (defQ c d) (Definition_.step d m input) input.
  Proof.
    destruct m as [s id sz dt cx cs]. unfold defP, definitionLabelToken in *.
    cbn [Definition_.ctx Definition_.state Definition_.identifier].
    intros (Hin & Hch & HP).
    destruct s; cbn [Definition_.step Definition_.state Definition_.ctx
                     Definition_.size Definition_.data Definition_.identifier
                     Definition_.cstate].
    - (* start *)
      subst cx. intros x rest E. rewrite E in Hin. symmetry in Hin.
      destruct (drop_cons_inv _ _ _ _ Hin) as [Hx Hrest].
      normd. rewrite Hrest. repeat split; try reflexivity; try lia.
      f_equal; lia.
    - (* labelStart *)
      destruct HP as (Hst & Hlen & Hnow).
      destruct (bool_decide (codeAt input = Some 94)); cbn [negb]; [|exact I].
      intros x rest E. rewrite E in Hin. symmetry in Hin.
      destruct (drop_cons_inv _ _ _ _ Hin) as [Hx Hrest].
      normd. rewrite Hrest, Hst, Hlen.
      split; [reflexivity|]. split; [exact Hch|].
      split; [f_equal; lia|].
      unfold labelOpen, labelTok, definitionLabelToken in *. autorewrite with ctx.
      rewrite ?Hlen, ?Hnow.
      split; [lia|]. split; [lia|].
      eexists. split.
      + apply enter_heap_new. autorewrite with ctx. lia.
      + autorewrite with ctx. rewrite Hnow. unfold labelTok. cbn.
        repeat split. f_equal. lia.
    - (* atBreak *)
      destruct HP as (Hst & Hopen).
      pose proof Hopen as (Hlen & Hnow & tok & Htok & Hty & Hs & He).
      unfold definitionLabelToken, labelTok in *.
      destruct input as [|cd rest]; cbn [codeAt head]; [exact I|].
      destruct ((cd =? 91) || (sz >? 999)); [exact I|].
      symmetry in Hin. destruct (drop_cons_inv _ _ _ _ Hin) as [Hx Hrest].
      destruct (Z.eqb_spec cd 93) as [->|H93].
      + destruct dt; cbn [negb]; [|exact I].
        destruct (effects_exit "footnoteDefinitionLabelString" cx) as [c2 token] eqn:E2.
        assert (Hc2 : c2 = (effects_exit "footnoteDefinitionLabelString" cx).1)
          by (rewrite E2; reflexivity).
        assert (Htoken : token = (length (heap c) + 4)%nat).
        { rewrite <- (exit_token "footnoteDefinitionLabelString" _ _ _ Hst), E2.
          reflexivity. }
        assert (Hheap2 : heap c2 !! (length (heap c) + 4)%nat = Some (setEnd (now cx) tok)).
        { rewrite Hc2, (exit_heap_eq _ _ _ _ Hst), Htok. reflexivity. }
        assert (Hst2 : stack c2 = (length (heap c) + 1)%nat :: length (heap c) :: stack c).
        { rewrite Hc2. autorewrite with ctx. rewrite Hst. reflexivity. }
        assert (Hlen2 : length (heap c2) = length (heap cx)).
        { rewrite Hc2. autorewrite with ctx. reflexivity. }
        assert (Hnow2 : now c2 = now cx) by (rewrite Hc2; autorewrite with ctx; reflexivity).
        assert (Hch2 : chunks c2 = chunks c) by (rewrite Hc2; autorewrite with ctx; exact Hch).
        intros x rest' [= <- <-]. normd. rewrite Hnow2, Hrest.
        split; [reflexivity|]. split; [exact Hch2|].
        exists (now cx - (now c + 2)%nat)%nat. split; [|split; [lia|]].
        * set (c3 := effects_consume (effects_enter "footnoteDefinitionLabelMarker" c2)).
          assert (Hst3 : stack c3 = length (heap c2) :: (length (heap c) + 1)%nat :: length (heap c) :: stack c).
          { subst c3. autorewrite with ctx. rewrite Hst2. reflexivity. }
          assert (Hst4 : stack (effects_exit "footnoteDefinitionLabelMarker" c3).1
                         = (length (heap c) + 1)%nat :: length (heap c) :: stack c).
          { autorewrite with ctx. rewrite Hst3. reflexivity. }
          unfold labelClosed, labelTok, definitionLabelToken in *. autorewrite with ctx. rewrite Hst3. cbn [tail].
          split; [reflexivity|].
          split; [subst c3; autorewrite with ctx; lia|]. split.
          { do 2 apply exit_events_incl. subst c3. autorewrite with ctx.
            unfold effects_enter. rewrite enter_events. apply elem_of_app. left.
            rewrite Hc2, (exit_events _ _ _ _ Hst). apply elem_of_app. right.
            apply list_elem_of_singleton. reflexivity. }
          split; [replace ((now c + 2)%nat + (now cx - (now c + 2)%nat))%nat with (now cx) by lia; exact Hx|].
          exists (setEnd (now cx) tok).
          rewrite (exit_heap_ne _ _ _ _ _ Hst4) by (lia).
          rewrite (exit_heap_ne _ _ _ _ _ Hst3) by lia.
          subst c3. autorewrite with ctx. unfold effects_enter.
          rewrite enter_heap_old by lia. split; [exact Hheap2|].
          repeat split; try assumption. cbn. f_equal. lia.
        * unfold labelIdentifier, sliceSerialize, sliceStream.
          rewrite Htoken, Hheap2. cbn. rewrite Hs, Hch2. reflexivity.
      + destruct (markdownLineEnding (Some cd)).
        * intros x rest' [= <- <-]. normd. rewrite Hrest.
          split; [reflexivity|]. split; [exact Hch|]. split; [exact Hst|].
          apply labelOpen_marker. exact Hopen.
        * cbn [preserved]. normd. split; [symmetry; exact Hin|]. split; [exact Hch|].
          split; [exists (length (heap cx)); rewrite Hst; split; [reflexivity | lia]|].
          unfold labelOpen, labelTok, definitionLabelToken in *. autorewrite with ctx. split; [lia|]. split; [lia|].
          exists tok. rewrite enter_heap_old by lia. split; [exact Htok|].
          repeat split; assumption.
    - (* label *)
      destruct HP as ((r & Hst & Hr) & Hopen).
      pose proof Hopen as (Hlen & Hnow & tok & Htok & Hlab).
      unfold definitionLabelToken, labelTok in *.
      assert (Hnext : forall st, st = Definition_.S_label \/ st = Definition_.S_labelEscape ->
        forall sz' dt' rest, drop (S (now cx)) (chunks c) = rest ->
        defP c {| Definition_.state := st; Definition_.identifier := id;
                Definition_.size := sz'; Definition_.data := dt';
                Definition_.ctx := effects_consume cx; Definition_.cstate := cs |} rest).
      { intros st Hstate sz' dt' rest Hrest. unfold defP, definitionLabelToken in *. normd.
        split; [symmetry; exact Hrest|]. split; [exact Hch|].
        assert ((exists r, stack cx = r :: (length (heap c) + 4)%nat :: (length (heap c) + 1)%nat :: length (heap c) :: stack c /\ ((length (heap c) + 4)%nat < r)%nat)
                /\ labelOpen c (effects_consume cx)) as Hgoal.
        { split; [exists r; auto|]. unfold labelOpen, labelTok, definitionLabelToken in *. autorewrite with ctx.
          split; [lia|]. split; [lia|]. exists tok. auto. }
        destruct Hstate as [-> | ->]; exact Hgoal. }
      destruct (_ || _).
      + cbn [preserved]. normd. rewrite Hst. cbn [tail].
        split; [exact Hin|]. split; [exact Hch|]. split; [reflexivity|].
        unfold labelOpen, labelTok, definitionLabelToken in *. autorewrite with ctx. split; [lia|]. split; [lia|].
        exists tok. rewrite (exit_heap_ne _ _ _ _ _ Hst) by lia. auto.
      + intros x rest E. rewrite E in Hin. symmetry in Hin.
        destruct (drop_cons_inv _ _ _ _ Hin) as [Hx Hrest].
        unfold Definition_.withData, Definition_.withSize, Definition_.goto.
        cbn [Definition_.ctx Definition_.state Definition_.size Definition_.data
             Definition_.identifier Definition_.cstate].
        destruct (bool_decide (codeAt input = Some 92)).
        * exact (Hnext _ (or_intror eq_refl) 0 true rest Hrest).
        * exact (Hnext _ (or_introl eq_refl) 0 true rest Hrest).
    - (* labelEscape *)
      destruct HP as ((r & Hst & Hr) & Hopen).
      pose proof Hopen as (Hlen & Hnow & tok & Htok & Hlab).
      unfold definitionLabelToken, labelTok in *.
      destruct (bool_decide _).
      + intros x rest E. rewrite E in Hin. symmetry in Hin.
        destruct (drop_cons_inv _ _ _ _ Hin) as [Hx Hrest].
        unfold defP, definitionLabelToken in *. normd. split; [symmetry; exact Hrest|]. split; [exact Hch|].
        split; [exists r; auto|]. unfold labelOpen, labelTok, definitionLabelToken in *. autorewrite with ctx.
        split; [lia|]. split; [lia|]. exists tok. auto.
      + cbn [preserved]. unfold defP, definitionLabelToken in *. normd. split; [exact Hin|]. split; [exact Hch|].
        split; [exists r; auto|]. exact Hopen.
    - (* labelAfter *)
      destruct HP as (k & Hclosed & Hnow & Hid).
      destruct (bool_decide (codeAt input = Some 58)) eqn:E58; cbn [negb]; [|exact I].
      apply bool_decide_eq_true_1 in E58.
      intros x rest E. rewrite E in Hin, E58. symmetry in Hin.
      destruct (drop_cons_inv _ _ _ _ Hin) as [Hx Hrest].
      cbn in E58. injection E58 as ->.
      unfold defP, definitionLabelToken in *. normd. rewrite Hrest. split; [reflexivity|]. split; [exact Hch|].
      exists k. split; [apply labelClosed_marker; exact Hclosed|].
      split; [lia|]. split; [exact Hid|]. rewrite <- Hnow. exact Hx.
    - (* check *)
      destruct HP as (k & Hclosed & Hnow & Hid & H58).
      destruct (check_blankLine cx input); cbn [preserved]; unfold defP, definitionLabelToken in *; normd;
        (split; [exact Hin|]); (split; [exact Hch|]); exists k; auto.
    - (* onBlank *)
      destruct HP as (k & Hclosed & Hnow & Hid & H58).
      cbn [preserved Definition_.done]. unfold defQ, definitionLabelToken in *. cbn [context footnotes Definition_.ctx
        Definition_.identifier]. split; [exact Hch|]. exists k.
      split; [exact Hclosed|]. split; [exact H58|]. split; [lia|]. rewrite Hid. reflexivity.
    - (* nonBlank *)
      destruct HP as (k & Hclosed & Hnow & Hid & H58).
      destruct (markdownSpace (codeAt input));
        cbn [preserved Definition_.done]; unfold defQ, definitionLabelToken in *; normd;
        cbn [context footnotes Definition_.ctx Definition_.identifier Definition_.goto];
        autorewrite with ctx.
      + split; [exact Hch|]. exists k. split; [apply labelClosed_marker; exact Hclosed|].
        split; [exact H58|]. split; [lia|]. rewrite Hid. reflexivity.
      + split; [exact Hch|]. exists k. split; [exact Hclosed|].
        split; [exact H58|]. split; [lia|]. rewrite Hid. reflexivity.
  Qed.
End DefinitionInvariant.

(** ** What an accepted call and an accepted definition start leave *)

Section Accepted.
Context `{CM : CaseMapping}.

Lemma lookup_drop_cons_aux {A} (l : list A) (n m : nat) (x : A) :
  l !! (n + m)%nat = Some x -> drop m (drop n l) = x :: drop (S m) (drop n l).
Proof.
  intros H. rewrite !drop_drop. rewrite (drop_S l x (n + m)) by exact H.
  f_equal. f_equal. lia.
Qed.


Lemma tokenizeDefinitionStart_accepted d cs c st :
  tokenizeDefinitionStart d cs c = Ok st -> defQ c d st.
Proof.
  unfold tokenizeDefinitionStart. intros Hrun.
  eapply (run_invariant (Definition_.step d) (defP c) (defQ c d)); [| |exact Hrun].
  - apply def_step_preserves.
  - unfold defP, Definition_.initial. cbn. auto.
Qed.


(** The label token of an accepted definition covers the codes between
    [[^] and the closing bracket, a colon follows, the exit of the token is
    among the events, and the identifier of these codes is registered. *)
Lemma definition_token_slice d cs c st :
  tokenizeDefinitionStart d cs c = Ok st ->
  let id := normalizeIdentifier (serializeChunks false false (definitionLabel c st)) in
  (exists rest, drop (now c + 2) (chunks c) = definitionLabel c st ++ 93 :: 58 :: rest) /\
  (exit, definitionLabelToken c) ∈ events (context st) /\
  eventType (heap (context st)) (exit, definitionLabelToken c)
    = Some "footnoteDefinitionLabelString"%string /\
  footnotes st = (if bool_decide (id ∈ d) then d else d ++ [id]).
Proof.
  intros Hrun. destruct (tokenizeDefinitionStart_accepted _ _ _ _ Hrun)
    as (Hch & k & (Hst & Hlt & Hev & H93 & tok & Htok & Hty & Hs & He) & H58 & Hnow & Hfoot).
  assert (Hlabel : definitionLabel c st = take k (drop (now c + 2) (chunks c))).
  { unfold definitionLabel, sliceStream. rewrite Htok, Hs, He, Hch. f_equal. lia. }
  cbv zeta. rewrite Hlabel. split; [|split; [exact Hev|split]].
  - exists (drop (k + 2) (drop (now c + 2) (chunks c))).
    rewrite <- (take_drop k (drop (now c + 2) (chunks c))) at 1. f_equal.
    rewrite (lookup_drop_cons_aux (chunks c) (now c + 2) k 93 H93). f_equal.
    assert (H58' : chunks c !! (now c + 2 + S k)%nat = Some 58)
      by (rewrite <- H58; f_equal; lia).
    rewrite (lookup_drop_cons_aux (chunks c) (now c + 2) (S k) 58 H58'). f_equal.
    rewrite !drop_drop. f_equal. lia.
  - unfold eventType. cbn [snd]. rewrite Htok. cbn. rewrite Hty. reflexivity.
  - exact Hfoot.
Qed.
End Accepted.

(** ** Labels of plain units and the bound on their length *)

Section PlainLabels.
Context `{CM : CaseMapping}.

Lemma plainUnit_spec c :
  plainUnit c = true ->
  c <> 91 /\ c <> 92 /\ c <> 93 /\ markdownLineEndingOrSpace (Some c) = false /\
  markdownLineEnding (Some c) = false.
Proof.
  unfold plainUnit, markdownLineEndingOrSpace, markdownLineEnding.
  intros H. apply andb_true_iff in H as [H1 H2].
  apply negb_true_iff in H1, H2.
  apply orb_false_iff in H2 as [H2 H93]. apply orb_false_iff in H2 as [H91 H92].
  pose proof H1 as H1'.
  apply orb_false_iff in H1 as [H0 H32].
  repeat split; try lia; try exact H1'.
Qed.

(** The call machine on plain units. *)
Lemma call_plain_run d rest lbl : forall sz dt cx,
  Forall (fun c => plainUnit c = true) lbl ->
  sz + Z.of_nat (length lbl) <= 1000 ->
  run (Call.step d) (inData sz dt cx) (lbl ++ rest) =
  run (Call.step d)
    (inData (sz + Z.of_nat (length lbl))
            (match lbl with [] => dt | _ :: _ => true end)
            (Nat.iter (length lbl) effects_consume cx)) rest.
Proof.
  induction lbl as [|c lbl IH]; intros sz dt cx Hplain Hsz.
  - simpl. rewrite Z.add_0_r. reflexivity.
  - apply Forall_cons in Hplain as [Hc Hplain].
    destruct (plainUnit_spec c Hc) as (H91 & H92 & H93 & Hws & _).
    cbn [app]. rewrite run_callData_plain by (try assumption; simpl in Hsz; lia).
    rewrite Hws. cbn [negb]. rewrite IH by (try assumption; simpl in Hsz; lia).
    cbn [length]. rewrite Nat.iter_succ_r.
    replace (sz + 1 + Z.of_nat (length lbl)) with (sz + Z.of_nat (S (length lbl))) by lia.
    destruct lbl; reflexivity.
Qed.

Lemma call_plain_full d rest lbl : forall sz dt cx,
  Forall (fun c => plainUnit c = true) lbl ->
  1000 <= sz + Z.of_nat (length lbl) ->
  run (Call.step d) (inData sz dt cx) (lbl ++ 93 :: rest) = Nok.
Proof.
  induction lbl as [|c lbl IH]; intros sz dt cx Hplain Hsz.
  - simpl in Hsz. cbn [app]. apply run_callData_full. lia.
  - destruct (Z_le_gt_dec sz 999) as [Hle|Hgt].
    + apply Forall_cons in Hplain as [Hc Hplain].
      destruct (plainUnit_spec c Hc) as (H91 & H92 & H93 & Hws & _).
      cbn [app]. rewrite run_callData_plain by assumption.
      apply IH; [assumption|]. simpl in Hsz. lia.
    + cbn [app]. apply run_callData_full. lia.
Qed.

(** The definition machine on plain units. *)
Lemma run_atBreak_full d id sz dt cx cs c rest :
  999 < sz ->
  run (Definition_.step d) (defM Definition_.S_atBreak id sz dt cx cs) (c :: rest) = Nok.
Proof.
  intros Hsz. cbn. destruct (Z.gtb_spec sz 999); [|lia].
  rewrite orb_true_r. reflexivity.
Qed.

Lemma run_label_full d id sz dt cx cs c rest :
  999 < sz ->
  run (Definition_.step d) (defM Definition_.S_label id sz dt cx cs) (c :: rest) = Nok.
Proof.
  intros Hsz. cbn. destruct (Z.gtb_spec sz 999); [|lia].
  rewrite !orb_true_r. cbn. destruct (Z.gtb_spec sz 999); [|lia].
  rewrite orb_true_r. reflexivity.
Qed.


Lemma run_label_plain d id sz dt cx cs c rest :
  sz <= 999 -> plainUnit c = true ->
  run (Definition_.step d) (defM Definition_.S_label id sz dt cx cs) (c :: rest) =
  run (Definition_.step d)
    (defM Definition_.S_label id (sz + 1) true (effects_consume cx) cs) rest.
Proof.
  intros Hsz Hc. destruct (plainUnit_spec c Hc) as (H91 & H92 & H93 & Hws & Heol).
  cbn. rewrite !bool_decide_eq_false_2 by congruence.
  unfold markdownLineEnding in Heol. rewrite Heol. cbn.
  destruct (Z.gtb_spec sz 999); [lia|]. cbn.
  unfold markdownLineEndingOrSpace in Hws. rewrite Hws. reflexivity.
Qed.


Lemma run_labelAfter_colon d id sz dt cx cs rest :
  exists st,
    run (Definition_.step d) (defM Definition_.S_labelAfter id sz dt cx cs) (58 :: rest)
    = Ok st.
Proof.
  cbn. rewrite (bool_decide_eq_true_2 (Some 58 = Some 58) eq_refl). cbn.
  destruct rest as [|c rest].
  - cbn. eexists. reflexivity.
  - cbn.
    match goal with |- context [check_blankLine ?a ?b] =>
      destruct (check_blankLine a b) end; cbn.
    + eexists. reflexivity.
    + destruct (_ || _); eexists; reflexivity.
Qed.


Lemma def_plain_full d id cs rest lbl : forall sz dt cx,
  Forall (fun c => plainUnit c = true) lbl ->
  1000 <= sz + Z.of_nat (length lbl) ->
  run (Definition_.step d) (defM Definition_.S_label id sz dt cx cs) (lbl ++ 93 :: rest)
  = Nok.
Proof.
  induction lbl as [|c lbl IH]; intros sz dt cx Hplain Hsz.
  - simpl in Hsz. cbn [app]. apply run_label_full. lia.
  - destruct (Z_le_gt_dec sz 999) as [Hle|Hgt].
    + apply Forall_cons in Hplain as [Hc Hplain].
      cbn [app]. rewrite run_label_plain by assumption.
      apply IH; [assumption|]. simpl in Hsz. lia.
    + cbn [app]. apply run_label_full. lia.
Qed.

Lemma tokenizeDefinitionStart_prefix d cs c x rest :
  drop (now c) (chunks c) = x :: 94 :: rest ->
  tokenizeDefinitionStart d cs c =
  run (Definition_.step d)
    (defM Definition_.S_atBreak [] 0 false (definitionPrefix c) cs) rest.
Proof. intros E. unfold tokenizeDefinitionStart. rewrite E. reflexivity. Qed.
End PlainLabels.

Section LabelRuns.
Context `{CM : CaseMapping}.

Lemma labelCodes_cons_data (c : Z) (lbl : list Z) :
  labelCodes false (c :: lbl) = true ->
  c <> 91 /\ c <> 93 /\ labelCodes (c =? 92) lbl = true.
Proof.
  cbn [labelCodes andb].
  destruct (Z.eqb_spec c 91); [discriminate|].
  destruct (Z.eqb_spec c 93); [discriminate|]. cbn [orb]. auto.
Qed.

Lemma labelCodes_cons_escaped (c : Z) (lbl : list Z) :
  labelCodes true (c :: lbl) = true ->
  ((c = 91 \/ c = 92 \/ c = 93) /\ labelCodes false lbl = true)
  \/ (c <> 91 /\ c <> 92 /\ c <> 93 /\ labelCodes false (c :: lbl) = true).
Proof.
  cbn [labelCodes andb].
  destruct (Z.eqb_spec c 91); [left; auto|].
  destruct (Z.eqb_spec c 92); [left; auto|].
  destruct (Z.eqb_spec c 93); [left; auto|]. cbn [orb].
  intros H. right. auto.
Qed.

(** The call machine over a label. *)
Lemma call_label_run d rest lbl : forall esc sz dt cx,
  labelCodes esc lbl = true -> (esc = true -> dt = true) ->
  run (Call.step d) (labelMachine esc sz dt cx) (lbl ++ 93 :: rest) =
  if sz + Z.of_nat (length lbl) <=? 999
  then run (Call.step d)
         (inData (sz + Z.of_nat (length lbl)) (dt || hasData lbl)
                 (Nat.iter (length lbl) effects_consume cx)) (93 :: rest)
  else Nok.
Proof.
  induction lbl as [|c lbl IH]; intros esc sz dt cx Hlbl Hesc.
  - destruct esc; [discriminate|]. cbn [app length labelMachine hasData existsb Nat.iter].
    rewrite Z.add_0_r, orb_false_r.
    destruct (Z.leb_spec sz 999); [reflexivity|].
    apply run_callData_full. lia.
  - assert (Hdata : forall sz dt cx,
              labelCodes false (c :: lbl) = true ->
              run (Call.step d) (inData sz dt cx) ((c :: lbl) ++ 93 :: rest) =
              if sz + Z.of_nat (length (c :: lbl)) <=? 999
              then run (Call.step d)
                     (inData (sz + Z.of_nat (length (c :: lbl))) (dt || hasData (c :: lbl))
                             (Nat.iter (length (c :: lbl)) effects_consume cx)) (93 :: rest)
              else Nok).
    { clear sz dt cx Hlbl Hesc. intros sz dt cx Hlbl.
      destruct (labelCodes_cons_data c lbl Hlbl) as (H91 & H93 & Hrest).
      cbn [app length]. rewrite Nat2Z.inj_succ.
      destruct (Z.leb_spec sz 999) as [Hsz|Hsz].
      2:{ rewrite run_callData_full by lia.
          destruct (Z.leb_spec (sz + Z.succ (Z.of_nat (length lbl))) 999); [lia|reflexivity]. }
      destruct (Z.eq_dec c 92) as [->|H92].
      - rewrite run_callData_backslash by lia.
        change (inEscape (sz + 1) true (effects_consume cx))
          with (labelMachine true (sz + 1) true (effects_consume cx)).
        rewrite (IH true) by (auto; exact Hrest).
        replace (sz + 1 + Z.of_nat (length lbl)) with (sz + Z.succ (Z.of_nat (length lbl)))
          by lia.
        rewrite Nat.iter_succ_r. cbn [hasData existsb orb].
        replace (negb (markdownLineEndingOrSpace (Some 92))) with true by reflexivity.
        cbn [orb]. rewrite orb_true_r. reflexivity.
      - rewrite run_callData_plain by assumption.
        rewrite (proj2 (Z.eqb_neq c 92) H92) in Hrest.
        change (inData (sz + 1) ?a ?b) with (labelMachine false (sz + 1) a b).
        rewrite (IH false) by (auto; discriminate).
        replace (sz + 1 + Z.of_nat (length lbl)) with (sz + Z.succ (Z.of_nat (length lbl)))
          by lia.
        rewrite Nat.iter_succ_r. cbn [hasData existsb].
        destruct (negb (markdownLineEndingOrSpace (Some c))), dt; reflexivity. }
    destruct esc; [|apply Hdata; exact Hlbl].
    rewrite (Hesc eq_refl).
    destruct (labelCodes_cons_escaped c lbl Hlbl) as [[Hc Hrest]|(H91 & H92 & H93 & Hrest)].
    + cbn [labelMachine app]. rewrite run_callEscape_escaped by exact Hc.
      change (inData (sz + 1) true ?b) with (labelMachine false (sz + 1) true b).
      rewrite (IH false) by (auto; discriminate).
      cbn [length]. rewrite Nat2Z.inj_succ.
      replace (sz + 1 + Z.of_nat (length lbl)) with (sz + Z.succ (Z.of_nat (length lbl)))
        by lia.
      rewrite Nat.iter_succ_r. reflexivity.
    + cbn [labelMachine]. change ((c :: lbl) ++ 93 :: rest) with (c :: lbl ++ 93 :: rest).
      rewrite run_callEscape_other by assumption.
      apply (Hdata sz true cx Hrest).
Qed.

End LabelRuns.
Section DefinitionLabelRuns.
Context `{CM : CaseMapping}.

Lemma run_atBreak_code d id sz dt cx cs c rest :
  sz <= 999 -> c <> 91 -> c <> 93 ->
  exists cx', now cx' = S (now cx) /\
    run (Definition_.step d) (defM Definition_.S_atBreak id sz dt cx cs) (c :: rest) =
    run (Definition_.step d)
      (defM (nextLabelState c) id (sz + 1)
         (dt || negb (markdownLineEndingOrSpace (Some c))) cx' cs) rest.
Proof.
  intros Hsz H91 H93. unfold nextLabelState.
  destruct (markdownLineEnding (Some c)) eqn:Heol.
  - eexists. split.
    2:{ cbn. destruct (Z.eqb_spec c 91); [lia|].
      destruct (Z.gtb_spec sz 999); [lia|]. cbn.
      destruct (Z.eqb_spec c 93); [lia|].
      unfold markdownLineEnding in Heol; rewrite Heol; cbn.
      apply Z.ltb_lt in Heol.
      destruct (Z.ltb_spec c 0); [|lia]. cbn. rewrite orb_false_r. reflexivity. }
    cbn; rewrite ?exit_now; reflexivity.
  - eexists. split.
    2:{ cbn. destruct (Z.eqb_spec c 91); [lia|].
      destruct (Z.gtb_spec sz 999); [lia|]. cbn.
      destruct (Z.eqb_spec c 93); [lia|].
      unfold markdownLineEnding in Heol; rewrite Heol; cbn.
      rewrite !bool_decide_eq_false_2 by congruence.
      rewrite Heol; cbn.
      destruct (Z.gtb_spec sz 999); [lia|]. cbn.
      destruct (bool_decide_reflect (Some c = Some 92)) as [E|E];
        destruct (Z.eqb_spec c 92); try congruence;
        destruct (negb _), dt; reflexivity. }
    cbn; rewrite ?exit_now; reflexivity.
Qed.

Lemma run_label_code d id sz dt cx cs c rest :
  sz <= 999 -> c <> 91 -> c <> 93 ->
  exists cx', now cx' = S (now cx) /\
    run (Definition_.step d) (defM Definition_.S_label id sz dt cx cs) (c :: rest) =
    run (Definition_.step d)
      (defM (nextLabelState c) id (sz + 1)
         (dt || negb (markdownLineEndingOrSpace (Some c))) cx' cs) rest.
Proof.
  intros Hsz H91 H93. unfold nextLabelState.
  destruct (markdownLineEnding (Some c)) eqn:Heol.
  - eexists. split.
    2:{ cbn. unfold markdownLineEnding in Heol; rewrite Heol; cbn.
      destruct (Z.eqb_spec c 91); [lia|].
      destruct (Z.gtb_spec sz 999); [lia|]. cbn.
      destruct (Z.eqb_spec c 93); [lia|].
      rewrite Heol; cbn.
      apply Z.ltb_lt in Heol.
      destruct (Z.ltb_spec c 0); [|lia]. cbn. rewrite orb_false_r. reflexivity. }
    cbn; rewrite ?exit_now; reflexivity.
  - eexists. split.
    2:{ cbn. unfold markdownLineEnding in Heol; rewrite Heol; cbn.
      rewrite !bool_decide_eq_false_2 by congruence. cbn.
      destruct (Z.gtb_spec sz 999); [lia|]. cbn.
      destruct (bool_decide_reflect (Some c = Some 92)) as [E|E];
        destruct (Z.eqb_spec c 92); try congruence;
        destruct (negb _), dt; reflexivity. }
    cbn; rewrite ?exit_now; reflexivity.
Qed.

Lemma run_labelEscape_escaped d id sz dt cx cs c rest :
  c = 91 \/ c = 92 \/ c = 93 ->
  run (Definition_.step d) (defM Definition_.S_labelEscape id sz dt cx cs) (c :: rest) =
  run (Definition_.step d)
    (defM Definition_.S_label id (sz + 1) dt (effects_consume cx) cs) rest.
Proof.
  intros Hc. cbn. rewrite bool_decide_eq_true_2; [reflexivity|].
  destruct Hc as [->|[->| ->]]; auto.
Qed.

Lemma run_labelEscape_other d id sz dt cx cs c rest :
  c <> 91 -> c <> 92 -> c <> 93 ->
  run (Definition_.step d) (defM Definition_.S_labelEscape id sz dt cx cs) (c :: rest) =
  run (Definition_.step d) (defM Definition_.S_label id sz dt cx cs) (c :: rest).
Proof.
  intros H1 H2 H3. cbn. rewrite bool_decide_eq_false_2.
  2:{ intros [H|[H|H]]; congruence. }
  cbn. rewrite !bool_decide_eq_false_2 by congruence.
  destruct (c <? -2) eqn:Heol, (sz >? 999) eqn:Hsz; cbn; rewrite ?Hsz, ?Heol; cbn;
    repeat match goal with
           | |- context [?a =? ?b] => destruct (Z.eqb_spec a b); [lia|]; cbn
           end; rewrite ?Heol, ?Hsz; reflexivity.
Qed.


Lemma nextLabelState_label (c : Z) :
  isLabelState (nextLabelState c) = true
  /\ isEscapeState (nextLabelState c) = (c =? 92).
Proof.
  unfold nextLabelState, markdownLineEnding.
  destruct (Z.ltb_spec c (-2)).
  - split; [reflexivity|]. destruct (Z.eqb_spec c 92); [lia|reflexivity].
  - destruct (c =? 92); split; reflexivity.
Qed.

Lemma run_labelState_full d id sz dt cx cs c rest s :
  999 < sz -> isLabelState s = true -> isEscapeState s = false ->
  run (Definition_.step d) (defM s id sz dt cx cs) (c :: rest) = Nok.
Proof.
  intros Hsz Hs He. destruct s; try discriminate.
  - apply run_atBreak_full. exact Hsz.
  - apply run_label_full. exact Hsz.
Qed.

Lemma run_labelState_code d id sz dt cx cs c rest s :
  isLabelState s = true -> isEscapeState s = false ->
  sz <= 999 -> c <> 91 -> c <> 93 ->
  exists cx', now cx' = S (now cx) /\
    run (Definition_.step d) (defM s id sz dt cx cs) (c :: rest) =
    run (Definition_.step d)
      (defM (nextLabelState c) id (sz + 1)
         (dt || negb (markdownLineEndingOrSpace (Some c))) cx' cs) rest.
Proof.
  intros Hs He. destruct s; try discriminate.
  - apply run_atBreak_code.
  - apply run_label_code.
Qed.

Lemma run_labelState_open d id sz dt cx cs rest s :
  isLabelState s = true -> isEscapeState s = false ->
  run (Definition_.step d) (defM s id sz dt cx cs) (91 :: rest) = Nok.
Proof.
  intros Hs He. destruct s; try discriminate; cbn; [reflexivity|].
  destruct (sz >? 999); reflexivity.
Qed.

Lemma run_labelState_nil d id sz dt cx cs s :
  isLabelState s = true ->
  run (Definition_.step d) (defM s id sz dt cx cs) [] = Nok.
Proof. intros Hs. destruct s; try discriminate; reflexivity. Qed.

Lemma run_labelState_close d id sz dt cx cs rest s :
  isLabelState s = true -> isEscapeState s = false -> sz <= 999 ->
  (dt = false -> run (Definition_.step d) (defM s id sz dt cx cs) (93 :: rest) = Nok)
  /\ (dt = true ->
      exists id' cx', now cx' = S (now cx) /\
        run (Definition_.step d) (defM s id sz dt cx cs) (93 :: rest) =
        run (Definition_.step d) (defM Definition_.S_labelAfter id' sz true cx' cs) rest).
Proof.
  intros Hs He Hsz. destruct s; try discriminate.
  - split; intros ->.
    + cbn. destruct (Z.gtb_spec sz 999); [lia|]. reflexivity.
    + cbn. destruct (Z.gtb_spec sz 999); [lia|]. cbn.
      destruct (effects_exit "footnoteDefinitionLabelString" cx) as [c2 tok] eqn:E.
      eexists _, _. split; [|reflexivity].
      cbn. autorewrite with ctx.
      replace c2 with (effects_exit "footnoteDefinitionLabelString" cx).1
        by (rewrite E; reflexivity).
      autorewrite with ctx. reflexivity.
  - split; intros ->.
    + cbn. rewrite (bool_decide_eq_true_2 (Some 93 = Some 93) eq_refl), orb_true_r. cbn.
      destruct (Z.gtb_spec sz 999); [lia|]. reflexivity.
    + cbn. rewrite (bool_decide_eq_true_2 (Some 93 = Some 93) eq_refl), orb_true_r. cbn.
      destruct (Z.gtb_spec sz 999); [lia|]. cbn.
      destruct (effects_exit "footnoteDefinitionLabelString" _) as [c2 tok] eqn:E.
      eexists _, _. split; [|reflexivity].
      cbn. autorewrite with ctx.
      match type of E with effects_exit ?t ?x = _ =>
        replace c2 with (effects_exit t x).1 by (rewrite E; reflexivity) end.
      autorewrite with ctx. reflexivity.
Qed.

Lemma run_labelAfter_other d id sz dt cx cs rest :
  head rest <> Some 58 ->
  run (Definition_.step d) (defM Definition_.S_labelAfter id sz dt cx cs) rest = Nok.
Proof.
  intros H. destruct rest as [|c rest]; [reflexivity|].
  cbn. rewrite bool_decide_eq_false_2 by exact H. reflexivity.
Qed.

Lemma run_labelAfter_position d id sz dt cx cs rest st :
  run (Definition_.step d) (defM Definition_.S_labelAfter id sz dt cx cs) (58 :: rest)
  = Ok st ->
  now (context st) = S (now cx) \/ now (context st) = S (S (now cx)).
Proof.
  cbn. rewrite (bool_decide_eq_true_2 (Some 58 = Some 58) eq_refl). cbn.
  destruct rest as [|c rest].
  - cbn. intros [= <-]. left. cbn. autorewrite with ctx. reflexivity.
  - cbn.
    match goal with |- context [check_blankLine ?a ?b] =>
      destruct (check_blankLine a b) end; cbn.
    + intros [= <-]. left. cbn. autorewrite with ctx. reflexivity.
    + destruct (_ || _); intros [= <-]; cbn; autorewrite with ctx; auto.
Qed.

(** The definition machine over a label. *)
Lemma def_label_run d id cs rest lbl : forall s sz dt cx,
  isLabelState s = true -> labelCodes (isEscapeState s) lbl = true ->
  (isEscapeState s = true -> dt = true) ->
  (sz + Z.of_nat (length lbl) <= 999 ->
     exists s' cx',
       isLabelState s' = true /\ isEscapeState s' = false /\
       now cx' = (now cx + length lbl)%nat /\
       run (Definition_.step d) (defM s id sz dt cx cs) (lbl ++ 93 :: rest) =
       run (Definition_.step d)
         (defM s' id (sz + Z.of_nat (length lbl)) (dt || hasData lbl) cx' cs) (93 :: rest))
  /\ (999 < sz + Z.of_nat (length lbl) ->
      run (Definition_.step d) (defM s id sz dt cx cs) (lbl ++ 93 :: rest) = Nok).
Proof.
  induction lbl as [|c lbl IH]; intros s sz dt cx Hs Hlbl Hesc.
  - cbn [labelCodes] in Hlbl. apply negb_true_iff in Hlbl.
    cbn [app length hasData existsb]. rewrite Z.add_0_r, orb_false_r. split.
    + intros _. exists s, cx. rewrite Nat.add_0_r. auto.
    + intros Hsz. apply run_labelState_full; assumption.
  - assert (Hdata : forall s sz dt cx,
              isLabelState s = true -> isEscapeState s = false ->
              labelCodes false (c :: lbl) = true ->
              (sz + Z.of_nat (length (c :: lbl)) <= 999 ->
                 exists s' cx',
                   isLabelState s' = true /\ isEscapeState s' = false /\
                   now cx' = (now cx + length (c :: lbl))%nat /\
                   run (Definition_.step d) (defM s id sz dt cx cs)
                     ((c :: lbl) ++ 93 :: rest) =
                   run (Definition_.step d)
                     (defM s' id (sz + Z.of_nat (length (c :: lbl)))
                        (dt || hasData (c :: lbl)) cx' cs) (93 :: rest))
              /\ (999 < sz + Z.of_nat (length (c :: lbl)) ->
                  run (Definition_.step d) (defM s id sz dt cx cs)
                    ((c :: lbl) ++ 93 :: rest) = Nok)).
    { clear s sz dt cx Hs Hlbl Hesc. intros s sz dt cx Hs He Hlbl.
      destruct (labelCodes_cons_data c lbl Hlbl) as (H91 & H93 & Hrest).
      destruct (nextLabelState_label c) as [Hn1 Hn2].
      cbn [app length]. rewrite Nat2Z.inj_succ.
      destruct (Z_le_gt_dec sz 999) as [Hsz|Hsz].
      2:{ split; [lia|]. intros _. apply run_labelState_full; [lia|assumption..]. }
      destruct (run_labelState_code d id sz dt cx cs c (lbl ++ 93 :: rest) s Hs He Hsz H91 H93)
        as (cx1 & Hnow1 & Hrun1).
      rewrite Hrun1.
      assert (Hesc1 : isEscapeState (nextLabelState c) = true ->
                      dt || negb (markdownLineEndingOrSpace (Some c)) = true).
      { rewrite Hn2. intros E. apply Z.eqb_eq in E. subst c. apply orb_true_r. }
      rewrite <- Hn2 in Hrest.
      destruct (IH (nextLabelState c) (sz + 1)
                  (dt || negb (markdownLineEndingOrSpace (Some c))) cx1 Hn1 Hrest Hesc1)
        as [IH1 IH2].
      split.
      - intros Hle. destruct IH1 as (s' & cx' & Hs' & He' & Hnow' & Hrun'); [lia|].
        exists s', cx'. split; [exact Hs'|]. split; [exact He'|].
        split; [rewrite Hnow', Hnow1; lia|].
        rewrite Hrun'. cbn [hasData existsb].
        replace (sz + 1 + Z.of_nat (length lbl)) with (sz + Z.succ (Z.of_nat (length lbl)))
          by lia.
        rewrite orb_assoc. reflexivity.
      - intros Hgt. apply IH2. lia. }
    destruct (isEscapeState s) eqn:He; [|apply Hdata; assumption].
    destruct s; try discriminate. rewrite (Hesc eq_refl).
    destruct (labelCodes_cons_escaped c lbl Hlbl) as [[Hc Hrest]|(H91 & H92 & H93 & Hrest)].
    + cbn [app]. rewrite run_labelEscape_escaped by exact Hc.
      destruct (IH Definition_.S_label (sz + 1) true (effects_consume cx)
                  eq_refl Hrest ltac:(discriminate)) as [IH1 IH2].
      cbn [length]. rewrite Nat2Z.inj_succ. split.
      * intros Hle. destruct IH1 as (s' & cx' & Hs' & He' & Hnow' & Hrun'); [lia|].
        exists s', cx'. split; [exact Hs'|]. split; [exact He'|].
        split; [rewrite Hnow'; autorewrite with ctx; lia|].
        rewrite Hrun'.
        replace (sz + 1 + Z.of_nat (length lbl)) with (sz + Z.succ (Z.of_nat (length lbl)))
          by lia.
        reflexivity.
      * intros Hgt. apply IH2. lia.
    + change ((c :: lbl) ++ 93 :: rest) with (c :: lbl ++ 93 :: rest).
      rewrite run_labelEscape_other by assumption.
      apply (Hdata Definition_.S_label sz true cx eq_refl eq_refl Hrest).
Qed.

End DefinitionLabelRuns.
Section LabelScans.
Context `{CM : CaseMapping}.

Lemma labelCodes_data_cons (c : Z) (lbl : list Z) :
  c <> 91 -> c <> 93 -> labelCodes false (c :: lbl) = labelCodes (c =? 92) lbl.
Proof.
  intros H91 H93. cbn [labelCodes andb].
  rewrite (proj2 (Z.eqb_neq c 91) H91), (proj2 (Z.eqb_neq c 93) H93). reflexivity.
Qed.

Lemma labelCodes_escaped_cons (c : Z) (lbl : list Z) :
  c = 91 \/ c = 92 \/ c = 93 -> labelCodes true (c :: lbl) = labelCodes false lbl.
Proof. intros [->|[->| ->]]; reflexivity. Qed.

Lemma labelCodes_other_cons (c : Z) (lbl : list Z) :
  c <> 91 -> c <> 92 -> c <> 93 ->
  labelCodes true (c :: lbl) = labelCodes false (c :: lbl).
Proof.
  intros H91 H92 H93. cbn [labelCodes andb].
  rewrite (proj2 (Z.eqb_neq c 91) H91), (proj2 (Z.eqb_neq c 92) H92),
    (proj2 (Z.eqb_neq c 93) H93). reflexivity.
Qed.

(** What the call machine has read when it accepts. *)
Lemma call_label_scan d input : forall esc sz dt cx c1,
  (esc = true -> dt = true) ->
  run (Call.step d) (labelMachine esc sz dt cx) input = Ok c1 ->
  exists lbl rest,
    input = lbl ++ 93 :: rest /\ labelCodes esc lbl = true /\ dt || hasData lbl = true.
Proof.
  induction input as [|c rest IH]; intros esc sz dt cx c1 Hesc Hrun.
  { destruct esc; discriminate. }
  assert (Hdata : forall sz dt cx c1,
            run (Call.step d) (inData sz dt cx) (c :: rest) = Ok c1 ->
            exists lbl rest',
              c :: rest = lbl ++ 93 :: rest' /\ labelCodes false lbl = true
              /\ dt || hasData lbl = true).
  { clear Hrun Hesc esc sz dt cx c1. intros sz dt cx c1 Hrun.
    destruct (Z_le_gt_dec sz 999) as [Hsz|Hsz].
    2:{ rewrite run_callData_full in Hrun by lia. discriminate. }
    destruct (Z.eq_dec c 91) as [->|H91].
    { rewrite run_callData_open in Hrun. discriminate. }
    destruct (Z.eq_dec c 93) as [->|H93].
    { rewrite run_callData_close in Hrun by lia.
      destruct dt; [|discriminate].
      exists [], rest. auto. }
    destruct (Z.eq_dec c 92) as [->|H92].
    { rewrite run_callData_backslash in Hrun by lia.
      destruct (IH true _ _ _ _ ltac:(auto) Hrun) as (lbl & rest' & -> & Hl & Hd).
      exists (92 :: lbl), rest'. split; [reflexivity|]. split; [exact Hl|].
      cbn [hasData existsb]. replace (negb (markdownLineEndingOrSpace (Some 92))) with true
        by reflexivity. apply orb_true_r. }
    rewrite run_callData_plain in Hrun by assumption.
    destruct (IH false _ _ _ _ ltac:(discriminate) Hrun) as (lbl & rest' & -> & Hl & Hd).
    exists (c :: lbl), rest'. split; [reflexivity|].
    split.
    - rewrite labelCodes_data_cons by assumption.
      rewrite (proj2 (Z.eqb_neq c 92) H92). exact Hl.
    - cbn [hasData existsb].
      destruct (negb (markdownLineEndingOrSpace (Some c))), dt; cbn in *; auto. }
  destruct esc; [|apply (Hdata _ _ _ _ Hrun)].
  cbn [labelMachine] in Hrun.
  destruct (Z.eq_dec c 91) as [->|H91]; [|destruct (Z.eq_dec c 92) as [->|H92];
    [|destruct (Z.eq_dec c 93) as [->|H93]]].
  4:{ rewrite run_callEscape_other in Hrun by assumption.
      destruct (Hdata _ _ _ _ Hrun) as (lbl & rest' & E & Hl & Hd).
      exists lbl, rest'. split; [exact E|]. split; [|exact Hd].
      destruct lbl as [|c0 lbl]; [cbn in E; congruence|].
      cbn [app] in E. injection E as <- _.
      rewrite labelCodes_other_cons by assumption. exact Hl. }
  all: rewrite run_callEscape_escaped in Hrun by auto;
    destruct (IH false _ _ _ _ ltac:(discriminate) Hrun) as (lbl & rest' & -> & Hl & Hd);
    eexists (_ :: lbl), rest'; (split; [reflexivity|]);
    (split; [rewrite labelCodes_escaped_cons by auto; exact Hl|]);
    rewrite (Hesc eq_refl); reflexivity.
Qed.

(** What the definition machine has read when it accepts. *)
Lemma def_label_scan d id cs input : forall s sz dt cx st,
  isLabelState s = true -> (isEscapeState s = true -> dt = true) ->
  run (Definition_.step d) (defM s id sz dt cx cs) input = Ok st ->
  exists lbl rest,
    input = lbl ++ 93 :: rest /\ labelCodes (isEscapeState s) lbl = true
    /\ dt || hasData lbl = true.
Proof.
  induction input as [|c rest IH]; intros s sz dt cx st Hs Hesc Hrun.
  { rewrite run_labelState_nil in Hrun by exact Hs. discriminate. }
  assert (Hdata : forall s sz dt cx st,
            isLabelState s = true -> isEscapeState s = false ->
            run (Definition_.step d) (defM s id sz dt cx cs) (c :: rest) = Ok st ->
            exists lbl rest',
              c :: rest = lbl ++ 93 :: rest' /\ labelCodes false lbl = true
              /\ dt || hasData lbl = true).
  { clear Hrun Hesc Hs s sz dt cx st. intros s sz dt cx st Hs He Hrun.
    destruct (Z_le_gt_dec sz 999) as [Hsz|Hsz].
    2:{ rewrite run_labelState_full in Hrun by (assumption || lia). discriminate. }
    destruct (Z.eq_dec c 91) as [->|H91].
    { rewrite run_labelState_open in Hrun by assumption. discriminate. }
    destruct (Z.eq_dec c 93) as [->|H93].
    { destruct (run_labelState_close d id sz dt cx cs rest s Hs He Hsz) as [Hno _].
      destruct dt; [|rewrite Hno in Hrun by reflexivity; discriminate].
      exists [], rest. auto. }
    destruct (run_labelState_code d id sz dt cx cs c rest s Hs He Hsz H91 H93)
      as (cx1 & _ & Hrun1).
    rewrite Hrun1 in Hrun.
    destruct (nextLabelState_label c) as [Hn1 Hn2].
    assert (Hesc1 : isEscapeState (nextLabelState c) = true ->
                    dt || negb (markdownLineEndingOrSpace (Some c)) = true).
    { rewrite Hn2. intros E. apply Z.eqb_eq in E. subst c. apply orb_true_r. }
    destruct (IH _ _ _ _ _ Hn1 Hesc1 Hrun) as (lbl & rest' & -> & Hl & Hd).
    exists (c :: lbl), rest'. split; [reflexivity|]. split.
    - rewrite labelCodes_data_cons by assumption. rewrite <- Hn2. exact Hl.
    - cbn [hasData existsb]. rewrite orb_assoc. exact Hd. }
  destruct (isEscapeState s) eqn:He; [|apply (Hdata _ _ _ _ _ Hs He Hrun)].
  destruct s; try discriminate.
  destruct (Z.eq_dec c 91) as [->|H91]; [|destruct (Z.eq_dec c 92) as [->|H92];
    [|destruct (Z.eq_dec c 93) as [->|H93]]].
  4:{ rewrite run_labelEscape_other in Hrun by assumption.
      destruct (Hdata Definition_.S_label _ _ _ _ eq_refl eq_refl Hrun)
        as (lbl & rest' & E & Hl & Hd).
      exists lbl, rest'. split; [exact E|]. split; [|exact Hd].
      destruct lbl as [|c0 lbl]; [cbn in E; congruence|].
      cbn [app] in E. injection E as <- _.
      rewrite labelCodes_other_cons by assumption. exact Hl. }
  all: rewrite run_labelEscape_escaped in Hrun by auto;
    destruct (IH Definition_.S_label _ _ _ _ eq_refl ltac:(discriminate) Hrun)
      as (lbl & rest' & -> & Hl & Hd);
    eexists (_ :: lbl), rest'; (split; [reflexivity|]);
    (split; [rewrite labelCodes_escaped_cons by auto; exact Hl|]);
    rewrite (Hesc eq_refl); reflexivity.
Qed.

Lemma tokenizeDefinitionStart_Ok_inv d cs c st :
  tokenizeDefinitionStart d cs c = Ok st ->
  exists x rest, drop (now c) (chunks c) = x :: 94 :: rest.
Proof.
  unfold tokenizeDefinitionStart. destruct (drop (now c) (chunks c)) as [|x [|y rest]].
  - discriminate.
  - discriminate.
  - intros Hrun. destruct (Z.eq_dec y 94) as [->|Hy]; [eauto|].
    cbn in Hrun. rewrite bool_decide_eq_false_2 in Hrun by congruence.
    discriminate.
Qed.

End LabelScans.
Section LabelBound.
Context `{CM : CaseMapping}.

Lemma definitionPrefix_now (c : Context) : now (definitionPrefix c) = (now c + 2)%nat.
Proof. unfold definitionPrefix. autorewrite with ctx. lia. Qed.

(** The verdict of the call tokenizer on [[^], a label and []]. *)
Lemma call_label_verdict (d : list jsstring) (c : Context) (x : Z) (lbl rest : list Z) :
  labelCodes false lbl = true -> hasData lbl = true ->
  drop (now c) (chunks c) = x :: 94 :: lbl ++ 93 :: rest ->
  tokenizeFootnoteCall d c =
  if (Z.of_nat (length lbl) <=? 999)
     && bool_decide (normalizeIdentifier (serializeChunks false false lbl) ∈ d)
  then Ok (callEnd (callClose (Nat.iter (length lbl) effects_consume (callPrefix c))).1)
  else Nok.
Proof.
  intros Hl Hd E. rewrite (tokenizeFootnoteCall_prefix _ _ _ _ E).
  change (inData 0 false (callPrefix c)) with (labelMachine false 0 false (callPrefix c)).
  rewrite call_label_run by (auto; discriminate).
  rewrite Z.add_0_l, Hd. cbn [orb].
  destruct (Z.leb_spec (Z.of_nat (length lbl)) 999) as [Hle|Hgt]; [|reflexivity].
  rewrite run_callData_close by lia. cbn [andb].
  assert (Hid : callIdentifier (Nat.iter (length lbl) effects_consume (callPrefix c))
                = normalizeIdentifier (serializeChunks false false lbl)).
  { unfold callIdentifier, sliceSerialize. rewrite callPrefix_slice.
    rewrite (drop_drop_cons _ _ _ _ _ E), take_app_length. reflexivity. }
  rewrite Hid. reflexivity.
Qed.

Lemma call_label_is (d : list jsstring) (c c' : Context) (x : Z) (lbl rest : list Z) :
  labelCodes false lbl = true -> hasData lbl = true ->
  drop (now c) (chunks c) = x :: 94 :: lbl ++ 93 :: rest ->
  tokenizeFootnoteCall d c = Ok c' ->
  callLabel c c' = lbl /\ (length lbl <= 999)%nat
  /\ normalizeIdentifier (serializeChunks false false lbl) ∈ d.
Proof.
  intros Hl Hd E Hrun. rewrite (call_label_verdict d c x lbl rest Hl Hd E) in Hrun.
  destruct (Z.leb_spec (Z.of_nat (length lbl)) 999) as [Hle|Hgt]; [|discriminate].
  destruct (bool_decide_reflect
              (normalizeIdentifier (serializeChunks false false lbl) ∈ d)) as [Hin|Hin];
    [|discriminate].
  cbn [andb] in Hrun. injection Hrun as <-.
  split; [|split; [lia|exact Hin]].
  unfold callLabel. rewrite callEnd_now, callClose_now, iter_consume_now.
  replace (now (callPrefix c)) with (now c + 2)%nat
    by (unfold callPrefix; autorewrite with ctx; lia).
  rewrite (drop_drop_cons _ _ _ _ _ E).
  replace (S (now c + 2 + length lbl) - now c - 3)%nat with (length lbl) by lia.
  apply take_app_length.
Qed.

(** The verdict of the definition tokenizer on [[^], a label and []]. *)
Lemma def_label_verdict (d : list jsstring) (cs : ContainerState) (c : Context) (x : Z)
    (lbl rest : list Z) :
  labelCodes false lbl = true -> hasData lbl = true ->
  drop (now c) (chunks c) = x :: 94 :: lbl ++ 93 :: rest ->
  ((length lbl <= 999)%nat -> head rest = Some 58 ->
     exists st, tokenizeDefinitionStart d cs c = Ok st)
  /\ (forall st, tokenizeDefinitionStart d cs c = Ok st ->
        (length lbl <= 999)%nat /\ head rest = Some 58
        /\ ((now (context st) = now c + 2 + length lbl + 2)%nat
            \/ (now (context st) = now c + 2 + length lbl + 3)%nat)).
Proof.
  intros Hl Hd E. rewrite (tokenizeDefinitionStart_prefix _ _ _ _ _ E).
  destruct (def_label_run d [] cs rest lbl Definition_.S_atBreak 0 false
              (definitionPrefix c) eq_refl Hl ltac:(discriminate)) as [Hle Hgt].
  rewrite Z.add_0_l in Hle, Hgt.
  destruct (Z_le_gt_dec (Z.of_nat (length lbl)) 999) as [Hlen|Hlen].
  2:{ rewrite Hgt by lia. split; [lia|discriminate]. }
  destruct (Hle Hlen) as (s' & cx' & Hs' & He' & Hnow' & Hrun).
  rewrite Hrun, Hd. cbn [orb].
  destruct (run_labelState_close d [] (Z.of_nat (length lbl)) true cx' cs rest s' Hs' He' Hlen)
    as [_ Hclose].
  destruct (Hclose eq_refl) as (id' & cx'' & Hnow'' & Hrun').
  rewrite Hrun'.
  destruct rest as [|y rest'].
  { rewrite run_labelAfter_other by discriminate. split; [discriminate|discriminate]. }
  destruct (Z.eq_dec y 58) as [->|Hy].
  2:{ rewrite run_labelAfter_other by (cbn; congruence).
      split; [|discriminate]. intros _ [= H]. congruence. }
  split.
  - intros _ _. apply run_labelAfter_colon.
  - intros st Hst. split; [lia|]. split; [reflexivity|].
    destruct (run_labelAfter_position _ _ _ _ _ _ _ _ Hst) as [H|H];
      rewrite H, Hnow'', Hnow', definitionPrefix_now; [left|right]; lia.
Qed.

Lemma def_label_is (d : list jsstring) (cs : ContainerState) (c : Context) (st : Started)
    (x : Z) (lbl rest : list Z) :
  labelCodes false lbl = true -> hasData lbl = true ->
  drop (now c) (chunks c) = x :: 94 :: lbl ++ 93 :: rest ->
  tokenizeDefinitionStart d cs c = Ok st ->
  definitionLabel c st = lbl.
Proof.
  intros Hl Hd E Hrun.
  destruct (proj2 (def_label_verdict d cs c x lbl rest Hl Hd E) st Hrun)
    as (Hlen & H58 & Hnow).
  destruct rest as [|y rest']; [discriminate|]. injection H58 as ->.
  destruct (tokenizeDefinitionStart_accepted _ _ _ _ Hrun)
    as (Hch & k & (Hst & Hlt & Hev & H93 & tok & Htok & Hty & Hs & He) & Hk58 & Hk & Hfoot).
  assert (Hinput : drop (now c + 2) (chunks c) = lbl ++ 93 :: 58 :: rest')
    by (apply (drop_drop_cons _ _ _ _ _ E)).
  assert (Hat : forall i, chunks c !! (now c + 2 + i)%nat = (lbl ++ 93 :: 58 :: rest') !! i).
  { intros i. rewrite <- Hinput. rewrite lookup_drop. reflexivity. }
  assert (Hkeq : k = length lbl).
  { destruct (Nat.lt_trichotomy k (length lbl)) as [Hlt'|[Heq|Hgt']]; [|exact Heq|].
    - assert (k + 1 = length lbl)%nat by lia.
      replace (now c + 2 + k + 1)%nat with (now c + 2 + length lbl)%nat in Hk58 by lia.
      rewrite Hat, list_lookup_middle in Hk58 by reflexivity. discriminate.
    - assert (k = length lbl + 1)%nat by lia. subst k.
      replace (now c + 2 + (length lbl + 1))%nat with (now c + 2 + S (length lbl))%nat
        in H93 by lia.
      rewrite Hat in H93.
      rewrite lookup_app_r in H93 by lia.
      replace (S (length lbl) - length lbl)%nat with 1%nat in H93 by lia.
      discriminate. }
  unfold definitionLabel, sliceStream. rewrite Htok, Hs, He, Hch.
  replace (now c + 2 + k - (now c + 2))%nat with k by lia.
  rewrite Hinput, Hkeq. apply take_app_length.
Qed.

(** C5: the label of an accepted call and of an accepted definition has at
    most 999 codes.  For a label of any codes that the tokenizers can take
    for one, with its escapes, spaces and line endings, and with some code
    that is neither a space nor a line ending, the text [[^], label, []] is
    accepted as a call exactly when the label has at most 999 codes and its
    identifier is known, and as the start of a definition exactly when the
    label has at most 999 codes and a colon follows; the label token then
    covers this label.  So a label of 1000 codes is refused.  What is counted
    are the codes the tokenizer consumes: a line ending is one code, a tab
    is one code and one more for every column it fills. *)
Theorem C5_label_of_999_codes_accepted_1000_rejected
    (d : list jsstring) (cs : ContainerState) (c : Context) :
  (forall c', tokenizeFootnoteCall d c = Ok c' -> (length (callLabel c c') <= 999)%nat)
  /\ (forall st, tokenizeDefinitionStart d cs c = Ok st ->
        (length (definitionLabel c st) <= 999)%nat)
  /\ (forall (x : Z) (lbl rest : list Z),
        labelCodes false lbl = true -> hasData lbl = true ->
        drop (now c) (chunks c) = x :: 94 :: lbl ++ 93 :: rest ->
        ((exists c', tokenizeFootnoteCall d c = Ok c')
         <-> (length lbl <= 999)%nat
             /\ normalizeIdentifier (serializeChunks false false lbl) ∈ d)
        /\ (forall c', tokenizeFootnoteCall d c = Ok c' -> callLabel c c' = lbl)
        /\ ((exists st, tokenizeDefinitionStart d cs c = Ok st)
            <-> (length lbl <= 999)%nat /\ head rest = Some 58)
        /\ (forall st, tokenizeDefinitionStart d cs c = Ok st ->
              definitionLabel c st = lbl)).
Proof.
  split; [|split].
  - intros c' Hrun.
    destruct (tokenizeFootnoteCall_Ok_inv _ _ _ Hrun) as (x & input & E).
    pose proof Hrun as Hrun'. rewrite (tokenizeFootnoteCall_prefix _ _ _ _ E) in Hrun'.
    destruct (call_label_scan d input false 0 false _ _ ltac:(discriminate) Hrun')
      as (lbl & rest & -> & Hl & Hd).
    destruct (call_label_is d c c' x lbl rest Hl Hd E Hrun) as (-> & Hlen & _).
    exact Hlen.
  - intros st Hrun.
    destruct (tokenizeDefinitionStart_Ok_inv _ _ _ _ Hrun) as (x & input & E).
    pose proof Hrun as Hrun'. rewrite (tokenizeDefinitionStart_prefix _ _ _ _ _ E) in Hrun'.
    destruct (def_label_scan d [] cs input Definition_.S_atBreak 0 false _ _ eq_refl
                ltac:(discriminate) Hrun') as (lbl & rest & -> & Hl & Hd).
    rewrite (def_label_is d cs c st x lbl rest Hl Hd E Hrun).
    apply (proj2 (def_label_verdict d cs c x lbl rest Hl Hd E) st Hrun).
  - intros x lbl rest Hl Hd E. split; [|split; [|split]].
    + split.
      * intros [c' Hrun]. destruct (call_label_is d c c' x lbl rest Hl Hd E Hrun)
          as (_ & Hlen & Hin). auto.
      * intros [Hlen Hin]. rewrite (call_label_verdict d c x lbl rest Hl Hd E).
        destruct (Z.leb_spec (Z.of_nat (length lbl)) 999); [|lia].
        rewrite (bool_decide_eq_true_2 _ Hin). eexists. reflexivity.
    + intros c' Hrun. apply (call_label_is d c c' x lbl rest Hl Hd E Hrun).
    + destruct (def_label_verdict d cs c x lbl rest Hl Hd E) as [Hyes Hno]. split.
      * intros [st Hrun]. destruct (Hno st Hrun) as (Hlen & H58 & _). auto.
      * intros [Hlen H58]. apply Hyes; assumption.
    + intros st Hrun. apply (def_label_is d cs c st x lbl rest Hl Hd E Hrun).
Qed.

End LabelBound.

(** C5, at the bound: a label of exactly 1000 units is rejected by the
    call tokenizer, although its identifier is known, and by the definition
    tokenizer, although a colon follows. *)
Lemma C5_label_of_1000_units_rejected :
  let lbl := replicate (Z.to_nat 1000) 97 in
  let c := initialContext (str "[^" ++ lbl ++ str "]:") in
  @tokenizeFootnoteCall asciiCase
    [@normalizeIdentifier asciiCase (serializeChunks false false lbl)] c = Nok /\
  @tokenizeDefinitionStart asciiCase [] emptyContainerState c = Nok.
Proof. vm_compute. split; reflexivity. Qed.

Section Identifier.
Context `{CM : CaseMapping}.

(** C3: when the label string of a definition or of a call
    exits, the identifier of the open node is the raw label text with every
    run of markdown whitespace collapsed to one space, one leading and one
    trailing space trimmed, then lower-cased, upper-cased, and lower-cased
    once more; the label is the buffered text. *)
Theorem C3_identifier_is_lowercased_normal_form
    (token : nat) (fragment node : Node) (below : list Node) (c : Context) :
  let raw := sliceSerialize c token false in
  let id := toLowerCase (toUpperCase (toLowerCase (trimSpace (collapseWhitespace raw)))) in
  let cc := {| nodes := fragment :: node :: below; tokenizer := c |} in
  nodes (exitFootnoteDefinitionLabelString token cc)
    = setLabelIdentifier (toString fragment) id node :: below /\
  nodes (exitFootnoteCallString token cc)
    = setLabelIdentifier (toString fragment) id node :: below.
Proof. split; reflexivity. Qed.
End Identifier.

(** C3, the last step: for the call [[^a]] the handler stores the
    identifier [a], while collapsing, trimming, lower-casing and then
    upper-casing the raw label [a] gives [A]. *)
Lemma C3_identifier_is_not_uppercase :
  let c0 := initialContext (str "[^a]") in
  match @tokenizeFootnoteCall asciiCase [str "A"] c0 with
  | Ok c =>
      let token := callStringToken c0 in
      let fragment := {| ntype := "fragment"; identifier := []; label := []; value := [];
                         children := [ {| ntype := "text"; identifier := []; label := [];
                                          value := str "a"; children := [] |} ] |} in
      let node := {| ntype := "footnoteReference"; identifier := []; label := [];
                     value := []; children := [] |} in
      let cc := {| nodes := [fragment; node]; tokenizer := c |} in
      sliceSerialize c token false = str "a" /\
      identifier <$> head (nodes (@exitFootnoteCallString asciiCase token cc))
        = Some (str "a") /\
      @toUpperCase asciiCase (@toLowerCase asciiCase (trimSpace (collapseWhitespace (sliceSerialize c token false))))
        = str "A" /\
      identifier <$> head (nodes (@exitFootnoteCallString asciiCase token cc))
        <> Some (@toUpperCase asciiCase (@toLowerCase asciiCase
                   (trimSpace (collapseWhitespace (sliceSerialize c token false)))))
  | Nok => False
  end.
Proof. vm_compute. repeat split; try reflexivity. discriminate. Qed.

(** ** The continuation of a definition *)

Lemma factorySpace_prefix_spec ty n : forall input sz cx,
  sz = 4 - Z.of_nat n -> (n <= 4)%nat ->
  factorySpace_prefix ty (Some 4) sz cx input =
  ((effects_exit ty (Nat.iter (spacesUpTo n input) effects_consume cx)).1,
   drop (spacesUpTo n input) input).
Proof.
  induction n as [|n IH]; intros input sz cx Hsz Hn.
  - destruct input as [|c rest]; cbn [factorySpace_prefix spacesUpTo]; [reflexivity|].
    destruct (Z.ltb_spec sz 4); [lia|]. rewrite andb_false_r. reflexivity.
  - destruct input as [|c rest]; cbn [factorySpace_prefix spacesUpTo]; [reflexivity|].
    destruct (markdownSpace (Some c)); cbn [andb]; [|reflexivity].
    destruct (Z.ltb_spec sz 4); [|lia].
    rewrite (IH rest (sz + 1) (effects_consume cx));
      [| rewrite Nat2Z.inj_succ in Hsz; lia | lia].
    cbn [drop]. rewrite Nat.iter_succ_r. reflexivity.
Qed.

Lemma spacesUpTo_le n input : (spacesUpTo n input <= n)%nat.
Proof.
  revert input. induction n as [|n IH]; intros [|c rest]; cbn [spacesUpTo]; try lia.
  destruct (markdownSpace (Some c)); [|lia]. specialize (IH rest).
  apply le_n_S. exact IH.
Qed.

Lemma spacesUpTo_serialize n : forall input at_,
  length (serializeChunks at_ true (take (spacesUpTo n input) input)) = spacesUpTo n input.
Proof.
  induction n as [|n IH]; intros [|c rest] at_; cbn [spacesUpTo take]; try reflexivity.
  destruct (markdownSpace (Some c)) eqn:E; [|reflexivity].
  cbn [take serializeChunks]. rewrite length_app, IH.
  unfold markdownSpace in E.
  destruct (Z.eqb_spec c (-5)); [lia|]. destruct (Z.eqb_spec c (-4)); [lia|].
  destruct (Z.eqb_spec c (-3)); [lia|].
  destruct (Z.eqb_spec c (-2)); [reflexivity|].
  destruct (Z.eqb_spec c (-1)); reflexivity.
Qed.

Lemma spacesUpTo_4 input : indentedBy4 input = bool_decide (spacesUpTo 4 input = 4%nat).
Proof.
  destruct input as [|a [|b [|c [|d rest]]]]; cbn [indentedBy4 spacesUpTo];
    repeat match goal with |- context [markdownSpace ?x] => destruct (markdownSpace x) end;
    reflexivity.
Qed.

Lemma tokenizeIndent_spec c :
  markdownSpace (codeAt (drop (now c) (chunks c))) = true ->
  (exists c', tokenizeIndent c (drop (now c) (chunks c)) = Ok c')
  <-> indentedBy4 (drop (now c) (chunks c)) = true.
Proof.
  intros Hsp. set (input := drop (now c) (chunks c)) in *.
  unfold tokenizeIndent, factorySpace. rewrite Hsp.
  change (if 4 + 1 =? 0 then None else Some (4 + 1 - 1)) with (Some 4).
  rewrite (factorySpace_prefix_spec _ 4) by (reflexivity || lia).
  set (j := spacesUpTo 4 input).
  set (c1 := Nat.iter j effects_consume (effects_enter "footnoteDefinitionIndent" c)).
  assert (Hst : stack c1 = length (heap c) :: stack c).
  { subst c1. rewrite iter_consume_stack. reflexivity. }
  assert (Hheap : heap (effects_exit "footnoteDefinitionIndent" c1).1 !! length (heap c)
                  = Some {| type := "footnoteDefinitionIndent"; start := Some (now c);
                            end_ := Some (now c + j)%nat; contentType := None;
                            _container := false |}).
  { rewrite (exit_heap_eq _ _ _ _ Hst). subst c1.
    rewrite iter_consume_heap, iter_consume_now. unfold effects_enter.
    rewrite enter_heap_new by reflexivity. reflexivity. }
  rewrite (exit_events _ _ _ _ Hst), last_snoc.
  unfold isType, eventType, sliceSerialize, sliceStream. cbn [snd].
  rewrite Hheap. cbn [fmap option_fmap option_map type start end_].
  rewrite bool_decide_eq_true_2 by reflexivity. cbn [andb].
  rewrite exit_chunks. subst c1. rewrite iter_consume_chunks. cbn [chunks effects_enter
    effects_enter_with].
  replace (now c + j - now c)%nat with j by lia. fold input.
  subst j. rewrite spacesUpTo_serialize, spacesUpTo_4.
  destruct (bool_decide (spacesUpTo 4 input = 4%nat)); split; intros H.
  - reflexivity.
  - eexists. reflexivity.
  - destruct H as [c' H]. discriminate.
  - discriminate.
Qed.

Section Continuation.
Context `{CM : CaseMapping}.

(** C6: in the continuation of a definition every blank line is accepted,
    and a blank line after a definition that opened on a blank line sets the
    flag [furtherBlankLines]; the flag stays set, and while it is set a line
    is accepted only if it is blank.  Without the flag a line that is not
    blank is accepted if and only if it starts with four markdown spaces.
    The container state after the run is fixed in every case: a line that is
    not blank and starts with a markdown space resets both flags, whether
    it is accepted or not, and every other line that is not blank leaves
    them as they are.  So after an accepted indented line a blank line and
    a further indented line are accepted again, whatever the flags were
    before.  The definition of [[^n]:], a blank line and [foo] is refused
    at [foo], where no paragraph is open; [[^n]:] followed by a line of
    four spaces and [foo] has [foo] in its content; and so have [foo] and
    [bar] when a blank line and a line of four spaces and [bar] follow. *)
Theorem C6_definition_continuation (cs : ContainerState) (c : Context) :
  let input := drop (now c) (chunks c) in
  let r := tokenizeDefinitionContinuation cs c in
  (check_blankLine c input = true ->
     r.1 = Ok c /\
     r.2 = (if initialBlankLine cs
            then {| initialBlankLine := true; furtherBlankLines := true |} else cs))
  /\ (check_blankLine c input = false ->
      ((exists c', r.1 = Ok c')
       <-> furtherBlankLines cs = false /\ indentedBy4 input = true)
      /\ r.2 = (if furtherBlankLines cs || negb (markdownSpace (codeAt input))
                then cs else emptyContainerState)
      /\ ((exists c', r.1 = Ok c') -> r.2 = emptyContainerState))
  /\ (furtherBlankLines cs = true ->
      furtherBlankLines r.2 = true /\
      ((exists c', r.1 = Ok c') -> check_blankLine c input = true))
  /\ (forall c2 c3 : Context,
        check_blankLine c input = false -> (exists c', r.1 = Ok c') ->
        check_blankLine c2 (drop (now c2) (chunks c2)) = true ->
        check_blankLine c3 (drop (now c3) (chunks c3)) = false ->
        indentedBy4 (drop (now c3) (chunks c3)) = true ->
        let r2 := tokenizeDefinitionContinuation r.2 c2 in
        let r3 := tokenizeDefinitionContinuation r2.2 c3 in
        r2.1 = Ok c2 /\ r2.2 = emptyContainerState
        /\ (exists c3', r3.1 = Ok c3') /\ r3.2 = emptyContainerState)
  /\ match tokenizeDefinition [] (str "[^n]:" ++ [-4; -4] ++ str "foo") with
     | Ok t => d_refused t = Some 7%nat /\ d_content t = [-4; -4]
     | Nok => False
     end
  /\ match tokenizeDefinition [] (str "[^n]:" ++ [-4] ++ str "    foo") with
     | Ok t => d_refused t = None /\ d_content t = [-4] ++ str "foo"
     | Nok => False
     end
  /\ match tokenizeDefinition []
             (str "[^n]:" ++ [-4] ++ str "    foo" ++ [-4; -4] ++ str "    bar") with
     | Ok t => d_refused t = None
               /\ d_content t = [-4] ++ str "foo" ++ [-4; -4] ++ str "bar"
     | Nok => False
     end.
Proof.
  assert (Hnot : forall cs0 c0,
            check_blankLine c0 (drop (now c0) (chunks c0)) = false ->
            let r0 := tokenizeDefinitionContinuation cs0 c0 in
            ((exists c', r0.1 = Ok c')
             <-> furtherBlankLines cs0 = false
                 /\ indentedBy4 (drop (now c0) (chunks c0)) = true)
            /\ r0.2 = (if furtherBlankLines cs0
                             || negb (markdownSpace (codeAt (drop (now c0) (chunks c0))))
                       then cs0 else emptyContainerState)).
  { intros cs0 c0 Hblank. cbv zeta. unfold tokenizeDefinitionContinuation.
    rewrite Hblank. set (input := drop (now c0) (chunks c0)).
    destruct (furtherBlankLines cs0); cbn [orb fst snd].
    { split; [|reflexivity].
      split; [intros [c' H]; discriminate | intros [H _]; discriminate]. }
    destruct (markdownSpace (codeAt input)) eqn:Hsp; cbn [negb fst snd].
    - split; [|reflexivity]. subst input. rewrite (tokenizeIndent_spec c0 Hsp). tauto.
    - split; [|reflexivity]. split; [intros [c' H]; discriminate|]. intros [_ H].
      destruct input as [|a [|b [|x [|y rest]]]]; try discriminate.
      cbn in Hsp, H. rewrite Hsp in H. discriminate. }
  assert (Hacc : forall cs0 c0,
            check_blankLine c0 (drop (now c0) (chunks c0)) = false ->
            (exists c', (tokenizeDefinitionContinuation cs0 c0).1 = Ok c') ->
            (tokenizeDefinitionContinuation cs0 c0).2 = emptyContainerState).
  { intros cs0 c0 Hblank Hok.
    destruct (Hnot cs0 c0 Hblank) as [Hiff Hst]. rewrite Hst.
    destruct (proj1 Hiff Hok) as [Hf H4]. rewrite Hf. cbn [orb].
    destruct (drop (now c0) (chunks c0)) as [|a [|b [|x [|y rest]]]]; try discriminate.
    cbn [indentedBy4] in H4. cbn [codeAt head].
    destruct (markdownSpace (Some a)); [reflexivity|discriminate]. }
  assert (Hyes : forall cs0 c0,
            check_blankLine c0 (drop (now c0) (chunks c0)) = true ->
            tokenizeDefinitionContinuation cs0 c0
            = (Ok c0, if initialBlankLine cs0
                      then {| initialBlankLine := true; furtherBlankLines := true |}
                      else cs0)).
  { intros cs0 c0 Hblank. unfold tokenizeDefinitionContinuation. rewrite Hblank.
    destruct (initialBlankLine cs0) eqn:E; [|reflexivity]. reflexivity. }
  cbv zeta. set (input := drop (now c) (chunks c)).
  split; [|split; [|split; [|split]]].
  - intros Hblank. rewrite (Hyes cs c Hblank). split; reflexivity.
  - intros Hblank. destruct (Hnot cs c Hblank) as [Hiff Hst].
    split; [exact Hiff|]. split; [exact Hst|]. apply Hacc. exact Hblank.
  - intros Hf. destruct (check_blankLine c input) eqn:Hblank.
    + rewrite (Hyes cs c Hblank). cbn [fst snd]. split; [|auto].
      destruct (initialBlankLine cs); [reflexivity|exact Hf].
    + destruct (Hnot cs c Hblank) as [Hiff Hst]. rewrite Hst, Hf. cbn [orb].
      split; [exact Hf|]. intros Hok. destruct (proj1 Hiff Hok) as [Hf' _]. congruence.
  - intros c2 c3 Hblank Hok Hblank2 Hblank3 H4.
    rewrite (Hacc cs c Hblank Hok).
    rewrite (Hyes emptyContainerState c2 Hblank2). cbn [fst snd initialBlankLine
      emptyContainerState].
    split; [reflexivity|]. split; [reflexivity|].
    assert (Hok3 : exists c3',
              (tokenizeDefinitionContinuation emptyContainerState c3).1 = Ok c3').
    { apply (proj1 (Hnot emptyContainerState c3 Hblank3)). split; [reflexivity|exact H4]. }
    split; [exact Hok3|]. apply Hacc; assumption.
  - split; [|split]; vm_compute; split; reflexivity.
Qed.
End Continuation.

Section NoteStarts.

Lemma Array_splice_after {A : Type} (pre : list A) (e : A) (rest : list A) :
  Array_splice (pre ++ e :: rest) (Z.of_nat (length pre) + 1) 4 []
  = (pre ++ [e]) ++ drop 4 rest.
Proof.
  unfold Array_splice. rewrite length_app. cbn [length app].
  destruct (Z.ltb_spec (Z.of_nat (length pre) + 1) 0) as [?|_]; [lia|].
  rewrite Z.min_l by lia.
  replace (Z.to_nat (Z.of_nat (length pre) + 1)) with (length (pre ++ [e]))
    by (rewrite length_app; simpl; lia).
  replace (pre ++ e :: rest) with ((pre ++ [e]) ++ rest) by (rewrite <- app_assoc; reflexivity).
  rewrite take_app_length. f_equal.
  replace (Z.max 4 0) with 4 by lia.
  destruct (decide (4 <= length rest)%nat) as [Hle|Hgt].
  - rewrite Z.min_l by lia.
    replace (Z.to_nat (Z.of_nat (length pre) + 1 + 4))
      with (length (pre ++ [e]) + 4)%nat by (rewrite length_app; simpl; lia).
    rewrite drop_app_add. reflexivity.
  - rewrite Z.min_r by lia.
    rewrite (drop_ge rest 4) by lia.
    apply drop_ge. rewrite !length_app. simpl. lia.
Qed.

Lemma resolveAllNote_from_spec (n : nat) :
  forall (rest pre : list Event) (h : list Token),
    (length rest <= n)%nat ->
    resolveAllNote_from h (pre ++ rest) (length pre)
    = let '(h', r) := retypeNoteStarts n h rest in (h', pre ++ r).
Proof.
  induction n as [|n IH]; intros rest pre h Hn.
  - destruct rest; [|simpl in Hn; lia].
    rewrite resolveAllNote_from_equation_1.
    destruct (decide (length pre < length (pre ++ []))%nat) as [Hlt|?];
      [exfalso; clear -Hlt; rewrite length_app in Hlt; simpl in Hlt; lia|reflexivity].
  - rewrite resolveAllNote_from_equation_1.
    destruct rest as [|e rest].
    + destruct (decide (length pre < length (pre ++ []))%nat) as [Hlt|?];
        [exfalso; clear -Hlt; rewrite length_app in Hlt; simpl in Hlt; lia|reflexivity].
    + destruct (decide (length pre < length (pre ++ e :: rest))%nat) as [?|Hge];
        [|exfalso; clear -Hge; rewrite length_app in Hge; simpl in Hge; lia].
      cbn [resolveAllNote_from_unfold_clause_1 retypeNoteStarts].
      rewrite list_lookup_middle by reflexivity.
      destruct (bool_decide (e.1 = enter) && isType h e "inlineNoteStart").
      * rewrite Array_splice_after.
        replace (S (length pre)) with (length (pre ++ [e]))
          by (rewrite length_app; simpl; lia).
        rewrite IH by (rewrite length_drop; simpl in Hn; lia).
        destruct (retypeNoteStarts n _ (drop 4 rest)) as [h' r].
        rewrite <- app_assoc. reflexivity.
      * replace (pre ++ e :: rest) with ((pre ++ [e]) ++ rest)
          by (rewrite <- app_assoc; reflexivity).
        replace (S (length pre)) with (length (pre ++ [e]))
          by (rewrite length_app; simpl; lia).
        rewrite IH by (simpl in Hn; lia).
        destruct (retypeNoteStarts n h rest) as [h' r].
        rewrite <- app_assoc. reflexivity.
Qed.

Lemma isType_alter_data (h : list Token) (k : nat) (e : Event) :
  isType h e "inlineNoteStart" = false \/ e.2 = k ->
  isType (alter (retype "data") k h) e "inlineNoteStart" = false.
Proof.
  unfold isType, eventType. intros H.
  apply bool_decide_eq_false. intros Hty.
  destruct (decide (e.2 = k)) as [E|Hne].
  - subst k. rewrite list_lookup_alter in Hty.
    destruct (decide (e.2 = e.2)); [|congruence].
    destruct (h !! e.2); cbv in Hty; discriminate.
  - rewrite list_lookup_alter in Hty.
    destruct (decide (k = e.2)); [congruence|].
    destruct H as [H|H]; [|contradiction].
    apply bool_decide_eq_false in H. contradiction.
Qed.

Lemma retypeNoteStarts_keeps (n : nat) :
  forall (h : list Token) (events : list Event) (e : Event),
    isType h e "inlineNoteStart" = false ->
    isType (retypeNoteStarts n h events).1 e "inlineNoteStart" = false.
Proof.
  induction n as [|n IH]; intros h events e He; [exact He|].
  destruct events as [|e0 rest]; [exact He|].
  cbn [retypeNoteStarts].
  destruct (bool_decide (e0.1 = enter) && isType h e0 "inlineNoteStart").
  - specialize (IH (alter (retype "data") e0.2 h) (drop 4 rest) e
                   (isType_alter_data h e0.2 e (or_introl He))).
    destruct (retypeNoteStarts n _ (drop 4 rest)); exact IH.
  - specialize (IH h rest e He).
    destruct (retypeNoteStarts n h rest); exact IH.
Qed.

Lemma retypeNoteStarts_clean (n : nat) :
  forall (h : list Token) (events : list Event) (e : Event),
    (length events <= n)%nat ->
    e ∈ (retypeNoteStarts n h events).2 ->
    bool_decide (e.1 = enter) && isType (retypeNoteStarts n h events).1 e "inlineNoteStart"
    = false.
Proof.
  induction n as [|n IH]; intros h events e Hn.
  - destruct events; [|simpl in Hn; lia]. simpl. intros H. inversion H.
  - destruct events as [|e0 rest]; [simpl; intros H; inversion H|].
    cbn [retypeNoteStarts].
    destruct (bool_decide (e0.1 = enter) && isType h e0 "inlineNoteStart") eqn:Hc.
    + pose proof (IH (alter (retype "data") e0.2 h) (drop 4 rest) e) as IHe.
      pose proof (retypeNoteStarts_keeps n (alter (retype "data") e0.2 h) (drop 4 rest) e0
                    (isType_alter_data h e0.2 e0 (or_intror eq_refl))) as Hk.
      destruct (retypeNoteStarts n _ (drop 4 rest)) as [h' r]. cbn [fst snd] in *.
      intros [->|Hin]%elem_of_cons.
      * rewrite Hk. apply andb_false_r.
      * apply IHe; [rewrite length_drop; simpl in Hn; lia|exact Hin].
    + pose proof (IH h rest e) as IHe.
      pose proof (retypeNoteStarts_keeps n h rest e0) as Hk.
      destruct (retypeNoteStarts n h rest) as [h' r]. cbn [fst snd] in *.
      intros [->|Hin]%elem_of_cons.
      * apply andb_false_iff in Hc as [Hc|Hc]; [rewrite Hc; reflexivity|].
        rewrite (Hk Hc). apply andb_false_r.
      * apply IHe; [simpl in Hn; lia|exact Hin].
Qed.

(** C7: [resolveAllNote] visits the events from the first to the last; at
    the enter event of a note start the token becomes data and the (up to)
    four events after it are dropped.  In its result no enter event has a
    token of type inlineNoteStart. *)
Theorem C7_resolveAllNote_leaves_no_note_start (h : list Token) (events : list Event) :
  resolveAllNote (h, events) = retypeNoteStarts (length events) h events
  /\ (forall pre e a b c d post,
        events = pre ++ e :: a :: b :: c :: d :: post ->
        e.1 = enter -> isType h e "inlineNoteStart" = true ->
        resolveAllNote_from h events (length pre)
        = resolveAllNote_from (alter (retype "data") e.2 h) (pre ++ e :: post)
            (S (length pre)))
  /\ forall e, e ∈ (resolveAllNote (h, events)).2 ->
       e.1 = enter ->
       eventType (resolveAllNote (h, events)).1 e <> Some "inlineNoteStart".
Proof.
  assert (Heq : resolveAllNote (h, events) = retypeNoteStarts (length events) h events).
  { unfold resolveAllNote. cbn [fst snd].
    pose proof (resolveAllNote_from_spec (length events) events [] h (le_n _)) as H.
    cbn [app length] in H. rewrite H.
    destruct (retypeNoteStarts (length events) h events); reflexivity. }
  split; [exact Heq|split].
  - intros pre e a b c d post -> He Hty.
    rewrite resolveAllNote_from_equation_1.
    destruct (decide (length pre < length (pre ++ e :: a :: b :: c :: d :: post))%nat)
      as [?|Hge]; [|exfalso; clear -Hge; rewrite length_app in Hge; simpl in Hge; lia].
    cbn [resolveAllNote_from_unfold_clause_1].
    rewrite list_lookup_middle by reflexivity.
    rewrite Hty, (bool_decide_eq_true_2 _ He). cbn [andb].
    rewrite Array_splice_after. cbn [drop]. rewrite <- app_assoc. reflexivity.
  - rewrite Heq. intros e Hin He Hty.
    pose proof (retypeNoteStarts_clean (length events) h events e (le_n _) Hin) as H.
    rewrite (bool_decide_eq_true_2 _ He) in H. cbn [andb] in H.
    unfold isType in H. apply bool_decide_eq_false in H. contradiction.
Qed.

End NoteStarts.

Section Splice.
Context {A : Type}.
Implicit Types (lst items : list A).

Lemma Array_splice_clamped lst (s d : Z) items :
  0 <= s <= Z.of_nat (length lst) ->
  Array_splice lst s d items
  = take (Z.to_nat s) lst ++ items
      ++ drop (Z.to_nat (s + Z.min (Z.max d 0) (Z.of_nat (length lst) - s))) lst.
Proof.
  intros Hs. unfold Array_splice.
  destruct (Z.ltb_spec s 0) as [?|_]; [lia|].
  rewrite Z.min_l by lia. reflexivity.
Qed.

Lemma Array_splice_insert lst (s : Z) items :
  0 <= s <= Z.of_nat (length lst) ->
  Array_splice lst s 0 items
  = take (Z.to_nat s) lst ++ items ++ drop (Z.to_nat s) lst.
Proof.
  intros Hs. rewrite Array_splice_clamped by exact Hs.
  replace (s + Z.min (Z.max 0 0) (Z.of_nat (length lst) - s)) with s by lia.
  reflexivity.
Qed.

Lemma Array_slice_chunk items (k : Z) :
  0 <= k ->
  Array_slice items k (k + 10000) = take (Z.to_nat 10000) (drop (Z.to_nat k) items).
Proof.
  intros Hk. unfold Array_slice.
  replace (k + 10000 - k) with 10000 by lia. reflexivity.
Qed.

Lemma splice_chunks_spec (n : nat) :
  forall lst (s : Z) items (k : Z),
    (Z.to_nat (Z.of_nat (length items) - k) <= n)%nat ->
    0 <= k ->
    (k < Z.of_nat (length items) -> 0 <= s <= Z.of_nat (length lst)) ->
    splice_chunks lst s items k
    = if decide (k < Z.of_nat (length items))
      then take (Z.to_nat s) lst ++ drop (Z.to_nat k) items ++ drop (Z.to_nat s) lst
      else lst.
Proof.
  induction n as [|n IH]; intros lst s items k Hn Hk Hs;
    rewrite splice_chunks_equation_1;
    destruct (decide (k < Z.of_nat (length items))) as [Hlt|Hge];
    cbn [splice_chunks_unfold_clause_1]; try reflexivity; [lia|].
  specialize (Hs Hlt).
  rewrite Array_slice_chunk, Array_splice_insert by lia.
  set (chunk := take (Z.to_nat 10000) (drop (Z.to_nat k) items)).
  assert (Hchunk : length chunk = Nat.min (Z.to_nat 10000) (length items - Z.to_nat k)).
  { unfold chunk. rewrite length_take, length_drop. reflexivity. }
  rewrite IH; [| lia | lia |].
  - destruct (decide (k + 10000 < Z.of_nat (length items))) as [Hmore|Hlast].
    + assert (Hfull : length chunk = Z.to_nat 10000) by lia.
      assert (Hlen : Z.to_nat (s + 10000) = length (take (Z.to_nat s) lst ++ chunk))
        by (rewrite length_app, length_take; lia).
      rewrite (app_assoc (take (Z.to_nat s) lst) chunk), Hlen.
      rewrite take_app_length, drop_app_length.
      rewrite <- app_assoc. f_equal. rewrite app_assoc. f_equal.
      unfold chunk.
      replace (Z.to_nat (k + 10000)) with (Z.to_nat k + Z.to_nat 10000)%nat by lia.
      rewrite <- drop_drop. apply take_drop.
    + unfold chunk.
      rewrite (take_ge (drop (Z.to_nat k) items)) by (rewrite length_drop; lia).
      reflexivity.
  - intros Hmore. rewrite !length_app, length_take, length_drop. lia.
Qed.

Lemma splice_is_Array_splice lst (start remove : Z) items :
  splice lst start remove items = Array_splice lst start remove items.
Proof.
  unfold splice.
  set (len := Z.of_nat (length lst)).
  set (s := if start <? 0 then (if - start >? len then 0 else len + start)
            else (if start >? len then len else start)).
  set (r := if remove >? 0 then remove else 0).
  assert (Hs : 0 <= s <= len).
  { unfold s, len.
    destruct (Z.ltb_spec start 0), (Z.gtb_spec (- start) (Z.of_nat (length lst))),
      (Z.gtb_spec start (Z.of_nat (length lst))); lia. }
  assert (Hs' : s = if start <? 0 then Z.max (len + start) 0 else Z.min start len).
  { unfold s, len.
    destruct (Z.ltb_spec start 0), (Z.gtb_spec (- start) (Z.of_nat (length lst))),
      (Z.gtb_spec start (Z.of_nat (length lst))); lia. }
  assert (Hr : Z.max r 0 = Z.max remove 0).
  { unfold r. destruct (Z.gtb_spec remove 0); lia. }
  assert (Hnative : Array_splice lst start remove items
                    = take (Z.to_nat s) lst ++ items
                        ++ drop (Z.to_nat (s + Z.min (Z.max r 0) (len - s))) lst).
  { unfold Array_splice. fold len. rewrite <- Hs', Hr. reflexivity. }
  rewrite Hnative.
  destruct (Z.ltb_spec (Z.of_nat (length items)) 10000) as [Hsmall|Hbig].
  { apply Array_splice_clamped. exact Hs. }
  set (lst1 := if negb (r =? 0) then Array_splice lst s r [] else lst).
  assert (Hlst1 : lst1 = take (Z.to_nat s) lst
                           ++ drop (Z.to_nat (s + Z.min (Z.max r 0) (len - s))) lst).
  { unfold lst1. destruct (Z.eqb_spec r 0) as [Hr0|Hr0]; cbn [negb].
    - rewrite Hr0. replace (s + Z.min (Z.max 0 0) (len - s)) with s by lia.
      symmetry. apply take_drop.
    - rewrite Array_splice_clamped by exact Hs. reflexivity. }
  rewrite splice_chunks_spec with (n := length items);
    [ | lia | lia | intros _; rewrite Hlst1, length_app, length_take, length_drop; lia ].
  destruct (decide (0 < Z.of_nat (length items))) as [_|?]; [|lia].
  change (Z.to_nat 0) with 0%nat.
  rewrite Hlst1.
  assert (Hlen : Z.to_nat s = length (take (Z.to_nat s) lst))
    by (rewrite length_take; lia).
  rewrite take_app_length', drop_app_length' by (rewrite length_take; lia).
  rewrite drop_0. reflexivity.
Qed.

(** C10: whatever the start index, the remove count and the number of items,
    [splice] leaves in the list what the built-in splice of arrays leaves:
    the same elements in the same order.  The loop that inserts the items in
    chunks of ten thousand, which runs for ten thousand items or more, inserts
    all of them at the start index. *)
Theorem C10_splice_agrees_with_Array_splice lst (start remove : Z) items :
  splice lst start remove items = Array_splice lst start remove items
  /\ forall s : Z, 0 <= s <= Z.of_nat (length lst) ->
       splice_chunks lst s items 0 = Array_splice lst s 0 items.
Proof.
  split; [apply splice_is_Array_splice|].
  intros s Hs.
  rewrite (splice_chunks_spec (length items)) by lia.
  rewrite Array_splice_insert by exact Hs.
  destruct (decide (0 < Z.of_nat (length items))) as [_|Hnil].
  - change (Z.to_nat 0) with 0%nat. rewrite drop_0. reflexivity.
  - destruct items; [|simpl in Hnil; lia].
    symmetry. apply take_drop.
Qed.

End Splice.

Section NoteEnd.

Lemma findOpening_lt (h : list Token) (events : list Event) (n i : nat) :
  findOpening h events n = Some i -> (i < n)%nat.
Proof.
  induction n as [|n IH]; [discriminate|]. cbn [findOpening].
  destruct (events !! n) as [e|]; [|discriminate].
  destruct (bool_decide (e.1 = enter) && isType h e "inlineNoteStart").
  - intros [= <-]. lia.
  - intros H. apply IH in H. lia.
Qed.

Lemma nested_reversed_tail (l : list Event) :
  forall (open : list nat) (a b : nat),
    a <> b -> nested open (l ++ [(enter, a); (exit, b)]) = false.
Proof.
  induction l as [|[[|] r] l IH]; intros open a b Hab; cbn [app nested].
  - rewrite (bool_decide_eq_false_2 _ Hab). reflexivity.
  - apply IH, Hab.
  - destruct open as [|top open]; [reflexivity|].
    rewrite (IH open a b Hab). apply andb_false_r.
Qed.

Lemma lookup_app_plus {A : Type} (l1 l2 : list A) (i k : nat) :
  i = (length l1 + k)%nat -> (l1 ++ l2) !! i = l2 !! k.
Proof.
  intros ->. rewrite lookup_app_r by lia. f_equal. lia.
Qed.

Lemma resolveToNoteEnd_events (insideSpan : list Construct) (h : list Token)
    (pre : list Event) (rEnd rM : nat) (h' : list Token) (ev' : list Event) :
  let events := pre ++ [(enter, rEnd); (enter, rM); (exit, rM); (exit, rEnd)] in
  resolveToNoteEnd insideSpan (h, events) = Some (h', ev') ->
  exists openIndex e1 e2 e3 e4 inside,
    findOpening h events (length pre) = Some openIndex
    /\ take 4 (drop (S openIndex) events) = [e1; e2; e3; e4]
    /\ ev' = take openIndex pre
             ++ ([(enter, length h); e1; e2; e3; e4; (enter, S (length h))] ++ inside)
             ++ [(exit, S (length h)); (exit, rM); (enter, rM); (exit, length h)].
Proof.
  intros events. unfold resolveToNoteEnd.
  assert (Hlen : length events = (length pre + 4)%nat)
    by (unfold events; rewrite length_app; reflexivity).
  rewrite Hlen.
  destruct (Nat.ltb_spec (length pre + 4) 4) as [?|_]; [lia|].
  replace (length pre + 4 - 4)%nat with (length pre) by lia.
  destruct (findOpening h events (length pre)) as [openIndex|] eqn:Hopen; [|discriminate].
  pose proof (findOpening_lt _ _ _ _ Hopen) as Hlt.
  assert (Hlast : events !! (length pre + 4 - 1)%nat = Some (exit, rEnd))
    by (unfold events; rewrite (lookup_app_plus pre _ _ 3) by lia; reflexivity).
  assert (Hlast3 : events !! (length pre + 4 - 3)%nat = Some (enter, rM))
    by (unfold events; rewrite (lookup_app_plus pre _ _ 1) by lia; reflexivity).
  assert (Hlast2 : events !! (length pre + 4 - 2)%nat = Some (exit, rM))
    by (unfold events; rewrite (lookup_app_plus pre _ _ 2) by lia; reflexivity).
  rewrite Hlast, Hlast3, Hlast2.
  destruct (events !! openIndex) as [eOpen|] eqn:H0; [|discriminate].
  destruct (events !! (openIndex + 4)%nat) as [e4|] eqn:H4; [|discriminate].
  destruct (events !! (openIndex + 1)%nat) as [e1|] eqn:H1; [|discriminate].
  destruct (events !! (openIndex + 2)%nat) as [e2|] eqn:H2; [|discriminate].
  destruct (events !! (openIndex + 3)%nat) as [e3|] eqn:H3; [|discriminate].
  cbv zeta.
  destruct (resolveAll insideSpan _) as [h2 inside].
  rewrite !splice_is_Array_splice.
  intros [= <- <-].
  exists openIndex, e1, e2, e3, e4, inside.
  split; [reflexivity|split].
  - rewrite <- (take_drop (S openIndex) events) in H1, H2, H3, H4.
    assert (Hl : length (take (S openIndex) events) = S openIndex)
      by (rewrite length_take; lia).
    rewrite (lookup_app_plus _ _ _ 0) in H1 by lia.
    rewrite (lookup_app_plus _ _ _ 1) in H2 by lia.
    rewrite (lookup_app_plus _ _ _ 2) in H3 by lia.
    rewrite (lookup_app_plus _ _ _ 3) in H4 by lia.
    destruct (drop (S openIndex) events) as [|x1 [|x2 [|x3 [|x4 rest]]]];
      try discriminate.
    cbn in H1, H2, H3, H4. cbn [take]. rewrite take_0. congruence.
  - rewrite Array_splice_clamped by lia.
    rewrite Nat2Z.id, app_nil_r.
    rewrite (drop_ge events) by lia.
    rewrite app_nil_r.
    unfold events. rewrite take_app_le by lia.
    reflexivity.
Qed.

(** C8: the span that [resolveToNoteEnd] builds is not properly nested.
    When the events end with the four events of a note end, as
    [tokenizeNoteEnd] leaves them, the span starts with the enter event of
    the new group token and ends with the exit event of the end marker, the
    enter event of the end marker and the exit event of the group, in this
    order: the end marker is left before it is entered. *)
Theorem C8_end_marker_is_left_before_it_is_entered (insideSpan : list Construct)
    (h : list Token) (pre : list Event) (rEnd rM : nat)
    (h' : list Token) (ev' : list Event) :
  (rM < length h)%nat ->
  resolveToNoteEnd insideSpan
    (h, pre ++ [(enter, rEnd); (enter, rM); (exit, rM); (exit, rEnd)]) = Some (h', ev') ->
  exists openIndex body,
    findOpening h (pre ++ [(enter, rEnd); (enter, rM); (exit, rM); (exit, rEnd)])
      (length pre) = Some openIndex
    /\ drop openIndex ev'
       = (enter, length h) :: body ++ [(exit, rM); (enter, rM); (exit, length h)]
    /\ nested [] (drop openIndex ev') = false
    /\ forall open, nested open ev' = false.
Proof.
  intros HrM Hres.
  destruct (resolveToNoteEnd_events _ _ _ _ _ _ _ Hres)
    as (openIndex & e1 & e2 & e3 & e4 & inside & Hopen & _ & ->).
  pose proof (findOpening_lt _ _ _ _ Hopen) as Hlt.
  exists openIndex, ([e1; e2; e3; e4; (enter, S (length h))] ++ inside ++ [(exit, S (length h))]).
  assert (Hne : rM <> length h) by lia.
  split; [exact Hopen|].
  assert (Hdrop : drop openIndex
            (take openIndex pre
             ++ ([(enter, length h); e1; e2; e3; e4; (enter, S (length h))] ++ inside)
             ++ [(exit, S (length h)); (exit, rM); (enter, rM); (exit, length h)])
          = (enter, length h)
            :: ([e1; e2; e3; e4; (enter, S (length h))] ++ inside ++ [(exit, S (length h))])
               ++ [(exit, rM); (enter, rM); (exit, length h)]).
  { rewrite drop_app_length' by (rewrite length_take; lia).
    cbn [app]. rewrite <- !app_assoc. reflexivity. }
  split; [exact Hdrop|split].
  - rewrite Hdrop.
    set (body := [e1; e2; e3; e4; (enter, S (length h))] ++ inside ++ [(exit, S (length h))]).
    replace ((enter, length h) :: body ++ [(exit, rM); (enter, rM); (exit, length h)])
      with (((enter, length h) :: body ++ [(exit, rM)]) ++ [(enter, rM); (exit, length h)])
      by (cbn [app]; rewrite <- app_assoc; reflexivity).
    apply nested_reversed_tail, Hne.
  - intros open.
    replace (take openIndex pre
             ++ ([(enter, length h); e1; e2; e3; e4; (enter, S (length h))] ++ inside)
             ++ [(exit, S (length h)); (exit, rM); (enter, rM); (exit, length h)])
      with ((take openIndex pre
             ++ ([(enter, length h); e1; e2; e3; e4; (enter, S (length h))] ++ inside)
             ++ [(exit, S (length h)); (exit, rM)])
            ++ [(enter, rM); (exit, length h)])
      by (rewrite <- !app_assoc; reflexivity).
    apply nested_reversed_tail, Hne.
Qed.

End NoteEnd.

Lemma C8_inline_note_witness :
  nested [] (default [] (snd <$> resolveToNoteEnd [] inlineNoteInput)) = false.
Proof.
  destruct (resolveToNoteEnd [] inlineNoteInput) as [[h' ev']|] eqn:Hres;
    [|vm_compute in Hres; discriminate].
  assert (Hin : inlineNoteInput
                = (inlineNoteInput.1,
                   take 8 inlineNoteInput.2
                   ++ [(enter, 4%nat); (enter, 5%nat); (exit, 5%nat); (exit, 4%nat)]))
    by (vm_compute; reflexivity).
  rewrite Hin in Hres.
  destruct (C8_end_marker_is_left_before_it_is_entered []
              inlineNoteInput.1 (take 8 inlineNoteInput.2) 4 5 h' ev'
              ltac:(vm_compute; lia) Hres)
    as (openIndex & body & _ & _ & _ & Hall).
  exact (Hall []).
Defined.

Section IndentLines.
Variable map : jsstring -> Z -> bool -> jsstring.




End IndentLines.




Section FootnoteDefinition.
Context `{CE : CharacterEntities} `{Host : ToMarkdownHost}.


End FootnoteDefinition.


(** ** Normal form of a label *)

Section NormalForm.

Lemma collapseFrom_true_nil (s : jsstring) :
  collapseFrom true s = [] <-> words s = [].
Proof.
  induction s as [|c rest IH]; [tauto|].
  cbn [collapseFrom words].
  destruct (isWhitespaceUnit c); [exact IH|].
  split; [discriminate|].
  destruct rest as [|c' r]; [discriminate|].
  destruct (isWhitespaceUnit c'); [discriminate|].
  destruct (words (c' :: r)); discriminate.
Qed.

Lemma trimTrailingSpace_cons (c : Z) (s : jsstring) :
  s <> [] -> trimTrailingSpace (c :: s) = c :: trimTrailingSpace s.
Proof. destruct s; [contradiction|reflexivity]. Qed.

Lemma unwords_cons (w w' : jsstring) (ws : list jsstring) :
  unwords (w :: w' :: ws) = w ++ 32 :: unwords (w' :: ws).
Proof. reflexivity. Qed.

Lemma words_sep (c c' : Z) (r : jsstring) :
  isWhitespaceUnit c = false -> isWhitespaceUnit c' = true ->
  words (c :: c' :: r) = [c] :: words (c' :: r).
Proof. intros Hc Hc'. cbn [words]. rewrite Hc, Hc'. reflexivity. Qed.

Lemma words_inside (c c' : Z) (r : jsstring) :
  isWhitespaceUnit c = false -> isWhitespaceUnit c' = false ->
  exists w ws, words (c' :: r) = w :: ws /\ words (c :: c' :: r) = (c :: w) :: ws.
Proof.
  intros Hc Hc'.
  assert (Hne : words (c' :: r) <> []).
  { cbn [words]. rewrite Hc'. destruct r as [|c'' r']; [discriminate|].
    destruct (isWhitespaceUnit c''); [discriminate|].
    destruct (words (c'' :: r')); discriminate. }
  destruct (words (c' :: r)) as [|w ws] eqn:HW; [contradiction|].
  exists w, ws. split; [reflexivity|].
  change (words (c :: c' :: r))
    with (if isWhitespaceUnit c then words (c' :: r)
          else if isWhitespaceUnit c' then [c] :: words (c' :: r)
               else match words (c' :: r) with
                    | w :: ws => (c :: w) :: ws
                    | [] => [[c]]
                    end).
  rewrite Hc, Hc', HW. reflexivity.
Qed.

Lemma trimTrailingSpace_collapse (s : jsstring) :
  trimTrailingSpace (collapseFrom true s) = unwords (words s).
Proof.
  induction s as [|c rest IH]; [reflexivity|].
  destruct (isWhitespaceUnit c) eqn:Hc.
  { cbn [collapseFrom words]. rewrite Hc. exact IH. }
  assert (Hc32 : (c =? 32) = false).
  { unfold isWhitespaceUnit in Hc. apply orb_false_iff in Hc as [_ Hc]. exact Hc. }
  destruct rest as [|c' r].
  { cbn [collapseFrom words]. rewrite Hc. cbn [collapseFrom trimTrailingSpace unwords].
    rewrite Hc32. reflexivity. }
  destruct (isWhitespaceUnit c') eqn:Hc'.
  - rewrite (words_sep c c' r Hc Hc').
    assert (Hcol : collapseFrom true (c :: c' :: r) = c :: 32 :: collapseFrom true (c' :: r))
      by (cbn [collapseFrom]; rewrite Hc, Hc'; reflexivity).
    rewrite Hcol.
    pose proof (collapseFrom_true_nil (c' :: r)) as Hnil.
    destruct (collapseFrom true (c' :: r)) as [|x X] eqn:HX.
    + rewrite (proj1 Hnil eq_refl). cbn. reflexivity.
    + destruct (words (c' :: r)) as [|w ws] eqn:HW;
        [destruct Hnil as [_ Hnil]; discriminate (Hnil eq_refl)|].
      rewrite unwords_cons. cbn [app].
      rewrite !trimTrailingSpace_cons by discriminate.
      rewrite IH. reflexivity.
  - destruct (words_inside c c' r Hc Hc') as (w & ws & HW & ->).
    assert (Hcol : collapseFrom true (c :: c' :: r) = c :: collapseFrom true (c' :: r))
      by (cbn [collapseFrom]; rewrite Hc, Hc'; reflexivity).
    rewrite Hcol.
    rewrite trimTrailingSpace_cons
      by (cbn [collapseFrom]; rewrite Hc'; discriminate).
    rewrite IH, HW.
    destruct ws; reflexivity.
Qed.

Lemma collapseFrom_true_false (s : jsstring) :
  trimLeadingSpace (collapseFrom false s) = collapseFrom true s.
Proof.
  destruct s as [|c rest]; [reflexivity|].
  cbn [collapseFrom].
  destruct (isWhitespaceUnit c) eqn:Hc; [reflexivity|].
  unfold isWhitespaceUnit in Hc. apply orb_false_iff in Hc as [_ Hc].
  cbn [trimLeadingSpace]. rewrite Hc. reflexivity.
Qed.

(** Collapsing the whitespace of a label and trimming it leaves its words,
    joined by single spaces. *)
Lemma trimSpace_collapseWhitespace (s : jsstring) :
  trimSpace (collapseWhitespace s) = unwords (words s).
Proof.
  unfold trimSpace, collapseWhitespace.
  rewrite collapseFrom_true_false. apply trimTrailingSpace_collapse.
Qed.

End NormalForm.

Section Scan.
Context `{CM : CaseMapping}.

(** An identifier is in the list after a scan exactly when an attempt of the
    scan was a definition start that was accepted with this identifier. *)
Lemma footnotesAfter_elem (id : jsstring) (scan : list Attempt) : forall d0,
  id ∈ foldl footnotesAfterAttempt d0 scan
  <-> id ∈ d0
      \/ exists (i : nat) cs cd st,
           scan !! i = Some (AttemptDefinition cs cd)
           /\ tokenizeDefinitionStart (foldl footnotesAfterAttempt d0 (take i scan)) cs cd
              = Ok st
           /\ normalizeIdentifier (serializeChunks false false (definitionLabel cd st)) = id.
Proof.
  induction scan as [|a scan IH]; intros d0.
  - cbn [foldl]. split; [auto|]. intros [H|(i & cs & cd & st & H & _)]; [exact H|].
    rewrite lookup_nil in H. discriminate.
  - cbn [foldl]. rewrite IH. split.
    + intros [Hin|(i & cs & cd & st & Hi & Hrun & Hid)].
      * destruct a as [cs cd|c0]; cbn [footnotesAfterAttempt] in Hin; [|auto].
        destruct (tokenizeDefinitionStart d0 cs cd) as [st|] eqn:Hrun; [|auto].
        destruct (definition_token_slice _ _ _ _ Hrun) as (_ & _ & _ & Hfoot).
        rewrite Hfoot in Hin.
        destruct (bool_decide_reflect
                    (normalizeIdentifier
                       (serializeChunks false false (definitionLabel cd st)) ∈ d0))
          as [Hd|Hd]; [auto|].
        apply elem_of_app in Hin as [Hin|Hin]; [auto|].
        apply list_elem_of_singleton in Hin. right.
        exists 0%nat, cs, cd, st. cbn [take foldl]. auto.
      * right. exists (S i), cs, cd, st. cbn [take foldl]. auto.
    + intros [Hin|(i & cs & cd & st & Hi & Hrun & Hid)].
      * left. destruct a as [cs cd|c0]; cbn [footnotesAfterAttempt]; [|exact Hin].
        destruct (tokenizeDefinitionStart d0 cs cd) as [st|] eqn:Hrun; [|exact Hin].
        destruct (definition_token_slice _ _ _ _ Hrun) as (_ & _ & _ & Hfoot).
        rewrite Hfoot. destruct (bool_decide _); [exact Hin|].
        apply elem_of_app. auto.
      * destruct i as [|i].
        -- cbn in Hi. injection Hi as ->. cbn [take foldl] in Hrun. left.
           cbn [footnotesAfterAttempt]. rewrite Hrun.
           destruct (definition_token_slice _ _ _ _ Hrun) as (_ & _ & _ & Hfoot).
           rewrite Hfoot, Hid.
           destruct (bool_decide_reflect (id ∈ d0)) as [Hd|Hd]; [exact Hd|].
           apply elem_of_app. right. apply list_elem_of_singleton. reflexivity.
        -- right. exists i, cs, cd, st. cbn [take foldl] in Hrun. auto.
Qed.

(** C1: the list of known identifiers a call is tokenized with is the list
    the attempts before it have left, from the beginning of the parse.  A
    call that is accepted is the text [[^], the label and []]; the
    identifier of its label is in the list; and an earlier attempt of the
    scan was the start of a definition [[^label]:] that was accepted and has
    this identifier.  When the attempts before were made on the same stream
    at earlier positions, this definition stands before the call in the
    text.  A call whose label is well formed, so that it would be accepted
    with some list, is accepted with the list of the scan exactly when its
    identifier is in it, that is exactly when such a definition was accepted
    earlier, and is refused otherwise; with no attempt before it, it is
    refused. *)
Theorem C1_call_accepted_iff_identifier_known (scan : list Attempt) (c : Context) :
  let defined := footnotesAfter scan in
  let earlier (id : jsstring) (i : nat) cs cd st :=
    scan !! i = Some (AttemptDefinition cs cd)
    /\ tokenizeDefinitionStart (footnotesAfter (take i scan)) cs cd = Ok st
    /\ normalizeIdentifier (serializeChunks false false (definitionLabel cd st)) = id
    /\ (exists rest, drop (now cd + 2) (chunks cd)
                     = definitionLabel cd st ++ 93 :: 58 :: rest)
    /\ (scannedBefore scan c -> chunks cd = chunks c /\ (now cd < now c)%nat) in
  (forall c', tokenizeFootnoteCall defined c = Ok c' ->
     let id := normalizeIdentifier (serializeChunks false false (callLabel c c')) in
     (exists x rest, drop (now c) (chunks c) = x :: 94 :: callLabel c c' ++ 93 :: rest)
     /\ id ∈ defined
     /\ exists i cs cd st, earlier id i cs cd st)
  /\ (forall defined' c', tokenizeFootnoteCall defined' c = Ok c' ->
        let id := normalizeIdentifier (serializeChunks false false (callLabel c c')) in
        tokenizeFootnoteCall defined c
        = (if bool_decide (id ∈ defined) then Ok c' else Nok)
        /\ (id ∈ defined <-> exists i cs cd st, earlier id i cs cd st))
  /\ (scan = [] -> tokenizeFootnoteCall defined c = Nok).
Proof.
  cbv zeta.
  assert (Hearlier : forall id,
            id ∈ footnotesAfter scan <->
            exists (i : nat) cs cd st,
              scan !! i = Some (AttemptDefinition cs cd)
              /\ tokenizeDefinitionStart (footnotesAfter (take i scan)) cs cd = Ok st
              /\ normalizeIdentifier (serializeChunks false false (definitionLabel cd st))
                 = id
              /\ (exists rest, drop (now cd + 2) (chunks cd)
                               = definitionLabel cd st ++ 93 :: 58 :: rest)
              /\ (scannedBefore scan c -> chunks cd = chunks c /\ (now cd < now c)%nat)).
  { intros id. unfold footnotesAfter. rewrite footnotesAfter_elem. split.
    - intros [Hin|(i & cs & cd & st & Hi & Hrun & Hid)].
      { apply elem_of_nil in Hin. contradiction. }
      exists i, cs, cd, st. split; [exact Hi|]. split; [exact Hrun|]. split; [exact Hid|].
      split; [apply (definition_token_slice _ _ _ _ Hrun)|].
      intros Hscan. apply (proj1 (Forall_lookup _ _) Hscan i _ Hi).
    - intros (i & cs & cd & st & Hi & Hrun & Hid & _). right. eauto 10. }
  split; [|split].
  - intros c' Hrun.
    destruct (tokenizeFootnoteCall_decides (footnotesAfter scan) _ _ _ Hrun)
      as (Htext & Hin & _).
    split; [exact Htext|]. split; [exact Hin|]. apply Hearlier. exact Hin.
  - intros defined' c' Hrun.
    destruct (tokenizeFootnoteCall_decides (footnotesAfter scan) _ _ _ Hrun)
      as (_ & _ & Hdecide).
    split; [exact Hdecide|]. apply Hearlier.
  - intros ->. cbn. destruct (tokenizeFootnoteCall [] c) as [c'|] eqn:Hrun; [|reflexivity].
    destruct (tokenizeFootnoteCall_decides [] _ _ _ Hrun) as (_ & Hin & _).
    apply elem_of_nil in Hin. contradiction.
Qed.

End Scan.

(** The call [[^a]] after the definition [[^a]: x] on one stream, and the
    same call with nothing before it. *)
Lemma C1_call_witness :
  let input := str "[^a]: x" ++ [-4] ++ str "[^a]" in
  let scan := [AttemptDefinition emptyContainerState (initialContext input)] in
  let c := atPosition 8 (initialContext input) in
  (exists c' cs cd st,
     @tokenizeFootnoteCall asciiCase (@footnotesAfter asciiCase scan) c = Ok c'
     /\ @tokenizeDefinitionStart asciiCase [] cs cd = Ok st
     /\ chunks cd = chunks c /\ (now cd < now c)%nat)
  /\ @tokenizeFootnoteCall asciiCase (@footnotesAfter asciiCase []) c = Nok.
Proof.
  cbv zeta.
  set (input := str "[^a]: x" ++ [-4] ++ str "[^a]").
  set (scan := [AttemptDefinition emptyContainerState (initialContext input)]).
  set (c := atPosition 8 (initialContext input)).
  destruct (@C1_call_accepted_iff_identifier_known asciiCase scan c) as (Hacc & _ & _).
  destruct (@C1_call_accepted_iff_identifier_known asciiCase [] c) as (_ & _ & Hnone).
  split; [|apply Hnone; reflexivity].
  destruct (@tokenizeFootnoteCall asciiCase (@footnotesAfter asciiCase scan) c)
    as [c'|] eqn:E; [|vm_compute in E; discriminate].
  destruct (Hacc c' eq_refl) as (_ & _ & i & cs & cd & st & Hi & Hrun & _ & _ & Hbefore).
  destruct i as [|i]; [|destruct i; discriminate Hi].
  exists c', cs, cd, st. split; [reflexivity|]. split; [exact Hrun|].
  apply Hbefore. repeat constructor.
Defined.

Section Variants.
Context `{CM : CaseMapping}.


End Variants.




(** * Further properties of the code *)

(** ** Whitespace *)

Section Whitespace.

Lemma factorySpace_prefix_limit ty l n : forall input sz cx,
  sz = l - Z.of_nat n ->
  factorySpace_prefix ty (Some l) sz cx input =
  ((effects_exit ty (Nat.iter (spacesUpTo n input) effects_consume cx)).1,
   drop (spacesUpTo n input) input).
Proof.
  induction n as [|n IH]; intros input sz cx Hsz.
  - destruct input as [|c rest]; cbn [factorySpace_prefix spacesUpTo]; [reflexivity|].
    destruct (Z.ltb_spec sz l); [lia|]. rewrite andb_false_r. reflexivity.
  - destruct input as [|c rest]; cbn [factorySpace_prefix spacesUpTo]; [reflexivity|].
    destruct (markdownSpace (Some c)); cbn [andb]; [|reflexivity].
    destruct (Z.ltb_spec sz l); [|lia].
    rewrite (IH rest (sz + 1) (effects_consume cx)) by lia.
    cbn [drop]. rewrite Nat.iter_succ_r. reflexivity.
Qed.

Lemma factorySpace_prefix_negative ty l : forall input sz cx,
  l <= sz ->
  factorySpace_prefix ty (Some l) sz cx input = ((effects_exit ty cx).1, input).
Proof.
  intros [|c rest] sz cx Hsz; cbn [factorySpace_prefix]; [reflexivity|].
  destruct (Z.ltb_spec sz l); [lia|]. rewrite andb_false_r. reflexivity.
Qed.

Lemma factorySpace_prefix_unbounded ty : forall input n sz cx,
  (length input <= n)%nat ->
  factorySpace_prefix ty None sz cx input =
  ((effects_exit ty (Nat.iter (spacesUpTo n input) effects_consume cx)).1,
   drop (spacesUpTo n input) input).
Proof.
  induction input as [|c rest IH]; intros n sz cx Hn.
  - destruct n; reflexivity.
  - destruct n as [|n]; [simpl in Hn; lia|].
    cbn [factorySpace_prefix spacesUpTo].
    destruct (markdownSpace (Some c)); cbn [andb]; [|reflexivity].
    rewrite (IH n) by (simpl in Hn; lia).
    cbn [drop]. rewrite Nat.iter_succ_r. reflexivity.
Qed.

Lemma spacesUpTo_0 n input :
  markdownSpace (codeAt input) = false -> spacesUpTo n input = 0%nat.
Proof.
  destruct n, input as [|c rest]; cbn [spacesUpTo codeAt head]; try reflexivity.
  intros ->. reflexivity.
Qed.

Lemma spacesUpTo_spaces n : forall input,
  Forall (fun c => markdownSpace (Some c) = true) (take (spacesUpTo n input) input).
Proof.
  induction n as [|n IH]; intros [|c rest]; cbn [spacesUpTo take]; try constructor.
  destruct (markdownSpace (Some c)) eqn:E; cbn [take]; constructor; [exact E|apply IH].
Qed.

Lemma spacesUpTo_stops n : forall input,
  spacesUpTo n input = n
  \/ markdownSpace (codeAt (drop (spacesUpTo n input) input)) = false.
Proof.
  induction n as [|n IH]; intros [|c rest]; cbn [spacesUpTo]; auto.
  destruct (markdownSpace (Some c)) eqn:E.
  - cbn [drop]. destruct (IH rest) as [->|H]; auto.
  - right. exact E.
Qed.

Lemma factorySpace_closed_form ty max ctx input :
  let n := spacesUpTo (spaceBound max input) input in
  factorySpace ty max ctx input
  = (if markdownSpace (codeAt input)
     then (effects_exit ty (Nat.iter n effects_consume (effects_enter ty ctx))).1
     else ctx,
     drop n input).
Proof.
  cbv zeta. unfold factorySpace.
  destruct (markdownSpace (codeAt input)) eqn:Hsp;
    [|rewrite spacesUpTo_0 by exact Hsp; reflexivity].
  unfold spaceBound. destruct max as [m|].
  - destruct (Z.eqb_spec m 0).
    + apply factorySpace_prefix_unbounded. lia.
    + destruct (Z.le_gt_cases (m - 1) 0) as [Hneg|Hpos].
      * rewrite factorySpace_prefix_negative by lia.
        replace (Z.to_nat (m - 1)) with 0%nat by lia.
        destruct input; reflexivity.
      * apply factorySpace_prefix_limit. lia.
  - apply factorySpace_prefix_unbounded. lia.
Qed.

(** X1: [factorySpace] consumes the markdown spaces the input starts with,
    at most one less than [max] of them (all of them when [max] is absent),
    and nothing else: what it hands on is the input without these codes,
    the position has moved by their number, and it stopped at the bound or
    in front of a code that is no markdown space.  When the input starts
    with a markdown space it leaves one token, entered and exited, and
    otherwise no event; the stack of open tokens is as before. *)
Theorem factorySpace_consumes_leading_spaces (ty : string) (max : option Z)
    (ctx : Context) (input : list Z) :
  let n := spacesUpTo (spaceBound max input) input in
  let ctx' := (factorySpace ty max ctx input).1 in
  (factorySpace ty max ctx input).2 = drop n input
  /\ Forall (fun c => markdownSpace (Some c) = true) (take n input)
  /\ (n = spaceBound max input \/ markdownSpace (codeAt (drop n input)) = false)
  /\ now ctx' = (now ctx + n)%nat
  /\ chunks ctx' = chunks ctx
  /\ stack ctx' = stack ctx
  /\ events ctx'
     = events ctx ++ (if markdownSpace (codeAt input)
                      then [(enter, length (heap ctx)); (exit, length (heap ctx))]
                      else []).
Proof.
  cbv zeta. rewrite factorySpace_closed_form. cbn [fst snd].
  set (n := spacesUpTo (spaceBound max input) input).
  split; [reflexivity|]. split; [apply spacesUpTo_spaces|].
  split; [apply spacesUpTo_stops|].
  destruct (markdownSpace (codeAt input)) eqn:Hsp.
  - assert (Hst : stack (Nat.iter n effects_consume (effects_enter ty ctx))
                  = length (heap ctx) :: stack ctx)
      by (rewrite iter_consume_stack; reflexivity).
    rewrite exit_now, exit_chunks, exit_stack, (exit_events _ _ _ _ Hst), Hst.
    rewrite iter_consume_now, iter_consume_chunks.
    assert (Hev : forall k c, events (Nat.iter k effects_consume c) = events c)
      by (intros k c; induction k; simpl; auto).
    rewrite Hev. cbn [tail]. unfold effects_enter.
    rewrite enter_events, <- app_assoc.
    repeat split; reflexivity.
  - unfold n. rewrite spacesUpTo_0 by exact Hsp. rewrite Nat.add_0_r, app_nil_r.
    repeat split; reflexivity.
Qed.

Lemma afterSpaces_spec input :
  afterSpaces input = drop (spacesUpTo (length input) input) input.
Proof.
  induction input as [|c rest IH]; [reflexivity|].
  cbn [afterSpaces length spacesUpTo].
  destruct (markdownSpace (Some c)); [exact IH|reflexivity].
Qed.

Lemma tokenizeBlankLine_prefix ctx input :
  let n := spacesUpTo (length input) input in
  (if markdownSpace (codeAt input)
   then factorySpace "linePrefix" None ctx input else (ctx, input))
  = (if markdownSpace (codeAt input)
     then (effects_exit "linePrefix"
             (Nat.iter n effects_consume (effects_enter "linePrefix" ctx))).1
     else ctx,
     afterSpaces input).
Proof.
  cbv zeta. rewrite afterSpaces_spec.
  destruct (markdownSpace (codeAt input)) eqn:Hsp.
  - rewrite factorySpace_closed_form, Hsp. reflexivity.
  - rewrite spacesUpTo_0 by exact Hsp. reflexivity.
Qed.

(** X2: [tokenizeBlankLine] accepts exactly when nothing but markdown spaces
    stands between the current position and the end of the line or of the
    input; it then has moved over these spaces and has left no token open.
    The verdict does not depend on the context. *)
Theorem tokenizeBlankLine_accepts_blank_lines (ctx : Context) (input : list Z) :
  (check_blankLine ctx input
   = match afterSpaces input with
     | [] => true
     | c :: _ => markdownLineEnding (Some c)
     end)
  /\ forall ctx', tokenizeBlankLine ctx input = Ok ctx' ->
       now ctx' = (now ctx + (length input - length (afterSpaces input)))%nat
       /\ chunks ctx' = chunks ctx /\ stack ctx' = stack ctx.
Proof.
  unfold check_blankLine, tokenizeBlankLine.
  rewrite tokenizeBlankLine_prefix.
  split.
  - destruct (afterSpaces input) as [|c rest]; cbn [codeAt head]; [reflexivity|].
    destruct (markdownLineEnding (Some c)); reflexivity.
  - intros ctx' Hok.
    assert (Hctx : ctx' = if markdownSpace (codeAt input)
                          then (effects_exit "linePrefix"
                                  (Nat.iter (spacesUpTo (length input) input) effects_consume
                                     (effects_enter "linePrefix" ctx))).1
                          else ctx).
    { destruct (afterSpaces input) as [|c rest]; cbn [codeAt head] in Hok;
        [congruence|].
      destruct (markdownLineEnding (Some c)); congruence. }
    assert (Hlen : (length input - length (afterSpaces input))%nat
                   = spacesUpTo (length input) input).
    { rewrite afterSpaces_spec, length_drop.
      pose proof (spacesUpTo_le (length input) input). lia. }
    rewrite Hlen, Hctx.
    destruct (markdownSpace (codeAt input)) eqn:Hsp.
    + rewrite exit_now, exit_chunks, exit_stack.
      rewrite iter_consume_now, iter_consume_chunks, iter_consume_stack.
      repeat split; reflexivity.
    + rewrite spacesUpTo_0 by exact Hsp. rewrite Nat.add_0_r. repeat split; reflexivity.
Qed.

End Whitespace.

(** ** Resolvers *)

Section ResolveAll.

Lemma resolveAll_from_app (cs1 cs2 : list Construct) :
  forall called he,
    resolveAll_from called (cs1 ++ cs2) he
    = resolveAll_from (calledAfter called cs1) cs2 (resolveAll_from called cs1 he).
Proof.
  induction cs1 as [|c cs1 IH]; intros called he; [reflexivity|].
  cbn [app resolveAll_from calledAfter].
  destruct (resolveAll_ c) as [[id r]|]; [|apply IH].
  destruct (bool_decide (id ∈ called)); apply IH.
Qed.

Lemma calledAfter_incl (cs : list Construct) :
  forall called id, id ∈ called -> id ∈ calledAfter called cs.
Proof.
  induction cs as [|c cs IH]; intros called id Hin; [exact Hin|].
  cbn [calledAfter]. destruct (resolveAll_ c) as [[id' r]|]; [|auto].
  destruct (bool_decide (id' ∈ called)); [auto|].
  apply IH, elem_of_app. auto.
Qed.

Lemma calledAfter_resolvers (cs : list Construct) :
  forall called id, id ∈ (resolversOf cs).*1 -> id ∈ calledAfter called cs.
Proof.
  induction cs as [|c cs IH]; intros called id Hin; [inversion Hin|].
  unfold resolversOf in Hin. cbn [omap list_omap calledAfter] in Hin |- *.
  destruct (resolveAll_ c) as [[id' r]|]; [|apply IH, Hin].
  cbn [fmap list_fmap fst] in Hin. apply elem_of_cons in Hin as [->|Hin].
  - destruct (bool_decide_reflect (id' ∈ called)) as [Hc|_].
    + apply calledAfter_incl, Hc.
    + apply calledAfter_incl, elem_of_app. right. left.
  - destruct (bool_decide (id' ∈ called)); apply IH, Hin.
Qed.

Lemma resolveAll_from_distinct (cs : list Construct) :
  forall called he,
    NoDup (called ++ (resolversOf cs).*1) ->
    resolveAll_from called cs he
    = foldl (fun acc r => r.2 acc) he (resolversOf cs).
Proof.
  induction cs as [|c cs IH]; intros called he Hnd; [reflexivity|].
  unfold resolversOf in *. cbn [resolveAll_from omap list_omap] in *.
  destruct (resolveAll_ c) as [[id r]|]; [|apply IH, Hnd].
  cbn [fmap list_fmap fst foldl snd] in *.
  apply NoDup_app in Hnd as (Hc & Hdisj & Hrest).
  destruct (bool_decide_reflect (id ∈ called)) as [Hin|Hnin].
  - exfalso. apply (Hdisj id Hin). left.
  - apply IH. rewrite <- app_assoc. cbn [app].
    apply NoDup_app. split; [exact Hc|]. split; [|exact Hrest].
    intros x Hx. apply Hdisj, Hx.
Qed.

(** X3: [resolveAll] runs every resolver once, in the order in which the
    constructs first bring it: a construct that has no resolver, or whose
    resolver an earlier construct of the list has brought already, can be
    left out of the list without changing the result; and when the
    resolvers of the list are all different, the result is what applying
    them one after the other gives. *)
Theorem resolveAll_runs_each_resolver_once (he : list Token * list Event) :
  (forall cs1 c cs2,
      resolveAll_ c = None
      \/ (exists id r, resolveAll_ c = Some (id, r) /\ id ∈ (resolversOf cs1).*1) ->
      resolveAll (cs1 ++ c :: cs2) he = resolveAll (cs1 ++ cs2) he)
  /\ (forall cs, NoDup (resolversOf cs).*1 ->
        resolveAll cs he = foldl (fun acc r => r.2 acc) he (resolversOf cs)).
Proof.
  split.
  - intros cs1 c cs2 Hc. unfold resolveAll.
    rewrite !resolveAll_from_app. cbn [resolveAll_from].
    destruct Hc as [->|(id & r & -> & Hin)]; [reflexivity|].
    rewrite bool_decide_eq_true_2 by (apply calledAfter_resolvers, Hin).
    reflexivity.
  - intros cs Hnd. apply resolveAll_from_distinct. exact Hnd.
Qed.

End ResolveAll.

(** ** Character references and escapes *)

Section ParseIntDigits.

Lemma takeWhile_all {A : Type} (p : A -> bool) (l : list A) :
  Forall (fun x => p x = true) l -> takeWhile p l = l.
Proof.
  induction 1 as [|x l Hx _ IH]; [reflexivity|].
  cbn [takeWhile]. rewrite Hx, IH. reflexivity.
Qed.

Lemma isDigit_radixDigit (c : Z) :
  isDigit c = true ->
  radixDigit c = Some (c - 48) /\ isRadixDigit 10 c = true
  /\ isStrWhiteSpace c = false /\ c <> 43 /\ c <> 45.
Proof.
  unfold isDigit, isRadixDigit, radixDigit, isStrWhiteSpace. intros H.
  apply andb_true_iff in H as [H1 H2]. rewrite H1, H2. cbn [andb].
  apply Z.leb_le in H1, H2.
  repeat split; lia.
Qed.

Lemma foldl_digits_ext (r : Z) (digits : jsstring) :
  Forall (fun c => isDigit c = true) digits ->
  forall n, foldl (fun n c => n * r + default 0 (radixDigit c)) n digits
            = foldl (fun n c => n * r + (c - 48)) n digits.
Proof.
  induction 1 as [|c l Hc _ IH]; intros n; [reflexivity|].
  cbn [foldl]. rewrite (proj1 (isDigit_radixDigit c Hc)). apply IH.
Qed.

(** On a string of decimal digits that is not empty [parseInt] with the
    radix 10 gives the number the digits denote. *)
Lemma parseInt_decimal (digits : jsstring) :
  digits <> [] -> Forall (fun c => isDigit c = true) digits ->
  parseInt digits 10 = Some (foldl (fun n c => n * 10 + (c - 48)) 0 digits).
Proof.
  intros Hne Hd. destruct digits as [|d ds]; [congruence|].
  pose proof (Forall_inv Hd) as Hd0.
  destruct (isDigit_radixDigit d Hd0) as (_ & _ & Hws & H43 & H45).
  unfold parseInt. cbn [dropWhile]. rewrite Hws. cbn [head].
  rewrite bool_decide_eq_false_2 by congruence.
  rewrite (proj2 (Z.eqb_neq d 43) H43), (proj2 (Z.eqb_neq d 45) H45). cbn [orb].
  change (ToInt32 10) with 10. cbn [Z.eqb Z.ltb Z.gtb Z.compare Pos.compare
    Pos.compare_cont negb orb andb].
  destruct ds as [|b rest]; cbn [andb Pos.eqb].
  all: rewrite takeWhile_all
    by (eapply Forall_impl; [exact Hd|]; intros c Hc; apply (isDigit_radixDigit c Hc)).
  all: rewrite foldl_digits_ext by exact Hd; reflexivity.
Qed.

End ParseIntDigits.

Section Decoding.

Lemma land_65535 (code : Z) : Z.land code 65535 = code mod 65536.
Proof. change 65535 with (Z.ones 16). rewrite Z.land_ones by lia. reflexivity. Qed.

Lemma decodeNumericCharacterReference_cases (value : jsstring) (base : Z) :
  decodeNumericCharacterReference value base
  = match parseInt value base with
    | None => [0]
    | Some code => if dangerousCodePoint code then [65533] else [code mod 65536]
    end.
Proof.
  unfold decodeNumericCharacterReference, dangerousCodePoint.
  destruct (parseInt value base) as [code|]; [|reflexivity].
  rewrite !land_65535, !Z.gtb_ltb. reflexivity.
Qed.

(** X4: [decodeNumericCharacterReference] always answers with one UTF-16
    unit.  When [parseInt] finds no digit its result is [NaN] and the answer
    is the unit 0, as for the empty string.  For a code point below 65536
    the answer is the code point itself, or the replacement character U+FFFD
    when the code point is a C0 control other than tab, line feed, form feed
    and carriage return, DEL or a C1 control, a surrogate or a noncharacter;
    so the answer is then never such a unit.  A code point from 65536 up to
    1114111 that is no noncharacter is cut down to its low sixteen bits,
    because the string is made with [String.fromCharCode]: the reference to
    the code point 65536 gives the unit 0.  A negative number and a number
    above 1114111 give U+FFFD.  A string of decimal digits that is not
    empty, which is what a decimal reference hands over, is read as the
    number it denotes and never as [NaN]. *)
Theorem decodeNumericCharacterReference_one_unit (value : jsstring) (base : Z) :
  let out := decodeNumericCharacterReference value base in
  (exists u, out = [u] /\ 0 <= u < 65536)
  /\ match parseInt value base with
     | None => out = [0]
     | Some code =>
         (0 <= code < 65536 ->
            out = (if dangerousCodePoint code then [65533] else [code])
            /\ forall u, out = [u] -> dangerousCodePoint u = false)
         /\ (65536 <= code <= 1114111 -> dangerousCodePoint code = false ->
             out = [code - 65536 * (code / 65536)])
         /\ (code < 0 \/ 1114111 < code -> out = [65533])
     end
  /\ (forall digits, digits <> [] -> Forall (fun c => isDigit c = true) digits ->
        parseInt digits 10 = Some (foldl (fun n c => n * 10 + (c - 48)) 0 digits))
  /\ decodeNumericCharacterReference [49; 48; 48; 48; 48] 16 = [0]
  /\ decodeNumericCharacterReference [] 10 = [0]
  /\ decodeNumericCharacterReference [120] 10 = [0].
Proof.
  cbv zeta. rewrite decodeNumericCharacterReference_cases.
  destruct (parseInt value base) as [code|].
  2:{ split; [exists 0; split; [reflexivity|lia]|].
      split; [reflexivity|]. split; [exact parseInt_decimal|].
      repeat split; reflexivity. }
  split; [|split; [split; [|split]|split; [exact parseInt_decimal|]]].
  - destruct (dangerousCodePoint code).
    + exists 65533. split; [reflexivity|lia].
    + exists (code mod 65536). split; [reflexivity|].
      apply Z.mod_pos_bound. lia.
  - intros Hcode. rewrite (Z.mod_small code 65536) by lia.
    split; [reflexivity|].
    destruct (dangerousCodePoint code) eqn:Hd; intros u [= <-]; [reflexivity|exact Hd].
  - intros Hcode ->. f_equal. rewrite Z.mod_eq by lia. reflexivity.
  - intros Hcode.
    assert (Hd : dangerousCodePoint code = true).
    { unfold dangerousCodePoint.
      destruct Hcode as [Hneg|Hbig].
      - destruct (Z.ltb_spec code 9); [reflexivity|lia].
      - destruct (Z.ltb_spec 1114111 code); [|lia]. rewrite !orb_true_r. reflexivity. }
    rewrite Hd. reflexivity.
  - repeat split; reflexivity.
Qed.

End Decoding.

Section Backslashes.
Context `{CE : CharacterEntities}.

Lemma backslashPositions_none (after : jsstring) :
  92 ∉ removelast after -> forall i, backslashPositions i after = [].
Proof.
  induction after as [|c rest IH]; intros Hno i; [reflexivity|].
  cbn [backslashPositions].
  destruct rest as [|p rest'].
  - rewrite andb_false_r. reflexivity.
  - assert (Hc : (c =? 92) = false).
    { apply Z.eqb_neq. intros ->. apply Hno. cbn. left. }
    rewrite Hc. cbn [andb app]. apply IH.
    intros Hin. apply Hno. cbn [removelast]. right. exact Hin.
Qed.

Lemma escapeBackslashes_from_doubled (after : jsstring) :
  92 ∉ removelast after ->
  forall (rest pre : jsstring) (s : nat),
    (s <= length pre)%nat ->
    escapeBackslashes_from (pre ++ rest) s (backslashPositions (length pre) (rest ++ after))
    = drop s pre ++ doubledBackslashes rest after.
Proof.
  intros Hafter. induction rest as [|c r IH]; intros pre s Hs.
  - cbn [app]. rewrite backslashPositions_none by exact Hafter.
    cbn [escapeBackslashes_from doubledBackslashes].
    rewrite !app_nil_r. reflexivity.
  - cbn [app backslashPositions doubledBackslashes].
    assert (Hvalue : pre ++ c :: r = (pre ++ [c]) ++ r)
      by (rewrite <- app_assoc; reflexivity).
    assert (Hnext : S (length pre) = length (pre ++ [c]))
      by (rewrite length_app; simpl; lia).
    destruct ((c =? 92) && match r ++ after with
                           | p :: _ => isAsciiPunctuation p
                           | [] => false
                           end) eqn:Hc.
    + apply andb_true_iff in Hc as [Hc _]. apply Z.eqb_eq in Hc. subst c.
      cbn [app escapeBackslashes_from].
      rewrite Hvalue at 2. rewrite Hnext.
      rewrite IH by (rewrite length_app; simpl; lia).
      rewrite drop_app_length.
      assert (Hslice : (if bool_decide (s ≠ length pre)
                        then jsslice (pre ++ 92 :: r) s (length pre) else [])
                       = drop s pre).
      { destruct (bool_decide_reflect (s ≠ length pre)) as [Hne|Heq].
        - unfold jsslice. rewrite drop_app_le by lia.
          apply take_app_length'. rewrite length_drop. reflexivity.
        - assert (s = length pre) by lia. subst s. rewrite drop_all. reflexivity. }
      rewrite Hslice. reflexivity.
    + cbn [app]. rewrite Hvalue, Hnext.
      rewrite IH by (rewrite length_app; simpl; lia).
      rewrite drop_app_le by lia. rewrite <- app_assoc. reflexivity.
Qed.

Lemma escapeBackslashes_doubled (value after : jsstring) :
  92 ∉ removelast after ->
  escapeBackslashes value after = doubledBackslashes value after.
Proof.
  intros Hafter. unfold escapeBackslashes.
  apply (escapeBackslashes_from_doubled after Hafter value [] 0%nat). simpl. lia.
Qed.

Lemma doubledBackslashes_head (value after : jsstring) :
  head (doubledBackslashes value after) = head value.
Proof.
  destruct value as [|c rest]; [reflexivity|]. cbn [doubledBackslashes].
  destruct ((c =? 92) && _) eqn:Hc; [|reflexivity].
  apply andb_true_iff in Hc as [Hc _]. apply Z.eqb_eq in Hc. subst c. reflexivity.
Qed.

Lemma decodeString_doubled (after : jsstring) (value : jsstring) :
  38 ∉ value -> decodeString (doubledBackslashes value after) = value.
Proof.
  unfold decodeString.
  induction value as [|c rest IH]; intros Hamp; [reflexivity|].
  assert (Hrest : 38 ∉ rest) by (intros H; apply Hamp; right; exact H).
  assert (Hc38 : (c =? 38) = false) by (apply Z.eqb_neq; intros ->; apply Hamp; left).
  cbn [doubledBackslashes].
  destruct (Z.eqb_spec c 92) as [->|Hc92]; cbn [andb].
  - destruct (match rest ++ after with p :: _ => isAsciiPunctuation p | [] => false end)
      eqn:Hp.
    + cbn [decodeString_from matchEscapeOrReference Z.eqb Pos.eqb isAsciiPunctuation].
      cbn. rewrite (IH Hrest). reflexivity.
    + cbn [decodeString_from matchEscapeOrReference Z.eqb Pos.eqb].
      pose proof (doubledBackslashes_head rest after) as Hhead.
      destruct (doubledBackslashes rest after) as [|p D] eqn:HD.
      * rewrite <- (IH Hrest). reflexivity.
      * destruct rest as [|c' rest']; [discriminate|].
        cbn [head app] in Hhead, Hp. injection Hhead as ->.
        rewrite Hp. rewrite <- (IH Hrest). reflexivity.
  - cbn [decodeString_from matchEscapeOrReference].
    rewrite (proj2 (Z.eqb_neq c 92) Hc92), Hc38. rewrite (IH Hrest). reflexivity.
Qed.

(** X5: decoding undoes the escaping of backslashes.  [escapeBackslashes]
    doubles every backslash of [value] that ASCII punctuation follows, in
    [value] or at the start of [after], and changes nothing else, so a value
    without a backslash comes back as it is; and [decodeString] reads the
    value back from the result, when the value holds no ampersand.  [after]
    may end with a backslash but holds none before its end, as in each
    of the calls for the label of a footnote. *)
Theorem decodeString_undoes_escapeBackslashes (value after : jsstring) :
  92 ∉ removelast after ->
  escapeBackslashes value after = doubledBackslashes value after
  /\ (92 ∉ value -> escapeBackslashes value after = value)
  /\ (38 ∉ value -> decodeString (escapeBackslashes value after) = value).
Proof.
  intros Hafter. rewrite escapeBackslashes_doubled by exact Hafter.
  split; [reflexivity|split].
  - clear Hafter. induction value as [|c rest IH]; intros Hno; [reflexivity|].
    cbn [doubledBackslashes].
    assert (Hc : (c =? 92) = false) by (apply Z.eqb_neq; intros ->; apply Hno; left).
    rewrite Hc. cbn [andb]. rewrite IH; [reflexivity|].
    intros H; apply Hno; right; exact H.
  - apply decodeString_doubled.
Qed.

End Backslashes.

Lemma decodeString_undoes_escapeBackslashes_witness :
  escapeBackslashes [97; 92; 42; 98; 92] [93] = [97; 92; 92; 42; 98; 92; 92]
  /\ @decodeString noEntities (escapeBackslashes [97; 92; 42; 98; 92] [93])
     = [97; 92; 42; 98; 92].
Proof.
  destruct (@decodeString_undoes_escapeBackslashes noEntities [97; 92; 42; 98; 92] [93])
    as (Hd & _ & Hround).
  - vm_compute. intros H. inversion H.
  - split; [rewrite Hd; vm_compute; reflexivity|].
    apply Hround.
    intros H. repeat (apply elem_of_cons in H as [H|H]; [discriminate H|]).
    inversion H.
Defined.

Section DecodeString.
Context `{CE : CharacterEntities}.

Lemma decodeString_from_skip (k : nat) :
  forall value, decodeString_from k value = decodeString_from 0 (drop k value).
Proof.
  induction k as [|k IH]; intros value; [rewrite drop_0; reflexivity|].
  destruct value as [|c rest]; [reflexivity|].
  cbn [decodeString_from drop]. apply IH.
Qed.

Lemma takeWhile_app_stop {A : Type} (p : A -> bool) (l : list A) (x : A) (rest : list A) :
  Forall (fun a => p a = true) l -> p x = false ->
  takeWhile p (l ++ x :: rest) = l.
Proof.
  intros Hl Hx. induction Hl as [|a l Ha _ IH]; cbn [app takeWhile].
  - rewrite Hx. reflexivity.
  - rewrite Ha, IH. reflexivity.
Qed.

(** X6: what [decodeString] does with a string.  Text without a backslash
    and without an ampersand is unchanged.  A backslash in front of ASCII
    punctuation is dropped and the punctuation is kept as text, so that it
    cannot start a further escape; a backslash in front of anything else
    stays.  A decimal reference of one to seven digits is replaced by what
    [decodeNumericCharacterReference] answers for its digits. *)
Theorem decodeString_escapes_and_references (rest : jsstring) :
  (forall value, 92 ∉ value -> 38 ∉ value -> decodeString value = value)
  /\ (forall p, isAsciiPunctuation p = true ->
        decodeString (92 :: p :: rest) = p :: decodeString rest)
  /\ (forall c, isAsciiPunctuation c = false ->
        decodeString (92 :: c :: rest) = 92 :: decodeString (c :: rest))
  /\ (forall digits, Forall (fun d => isDigit d = true) digits ->
        (1 <= length digits <= 7)%nat ->
        decodeString (38 :: 35 :: digits ++ 59 :: rest)
        = decodeNumericCharacterReference digits 10 ++ decodeString rest).
Proof.
  unfold decodeString. split; [|split; [|split]].
  - intros v. induction v as [|c v IH]; intros H92 H38; [reflexivity|].
    cbn [decodeString_from matchEscapeOrReference].
    rewrite (proj2 (Z.eqb_neq c 92)) by (intros ->; apply H92; left).
    rewrite (proj2 (Z.eqb_neq c 38)) by (intros ->; apply H38; left).
    rewrite IH; [reflexivity| |]; intros H; [apply H92|apply H38]; right; exact H.
  - intros p Hp. cbn [decodeString_from matchEscapeOrReference Z.eqb Pos.eqb].
    rewrite Hp. cbn [decode app Nat.sub decodeString_from]. reflexivity.
  - intros c Hc. cbn [decodeString_from matchEscapeOrReference Z.eqb Pos.eqb].
    rewrite Hc. reflexivity.
  - intros digits Hdigits Hlen.
    assert (Hfirst : exists d ds, digits = d :: ds /\ isDigit d = true).
    { destruct Hdigits as [|d ds Hd _]; [simpl in Hlen; lia|]. eauto. }
    destruct Hfirst as (d & ds & Hds & Hd).
    cbn [decodeString_from matchEscapeOrReference Z.eqb Pos.eqb].
    rewrite (takeWhile_app_stop isDigit digits 59 rest Hdigits eq_refl).
    rewrite (bool_decide_eq_true_2 _ Hlen). cbn [andb length].
    assert (Hclose : head (drop (S (length digits)) (35 :: digits ++ 59 :: rest)) = Some 59).
    { cbn [drop]. rewrite drop_app_length. reflexivity. }
    rewrite (bool_decide_eq_true_2 _ Hclose).
    cbn [decode head]. rewrite (bool_decide_eq_true_2 (Some 35 = Some 35) eq_refl).
    assert (Hhex : bool_decide ((35 :: digits) !! 1%nat = Some 120
                                ∨ (35 :: digits) !! 1%nat = Some 88) = false).
    { apply bool_decide_eq_false. rewrite Hds. cbn.
      intros [[= ->]|[= ->]]; discriminate Hd. }
    rewrite Hhex. cbn [drop]. rewrite drop_0. f_equal.
    replace (S (S (S (length digits))) - 1)%nat with (S (length digits + 1)) by lia.
    rewrite decodeString_from_skip.
    replace (digits ++ 59 :: rest) with ((digits ++ [59]) ++ rest)
      by (rewrite <- app_assoc; reflexivity).
    rewrite drop_app_length' by (rewrite length_app; reflexivity).
    reflexivity.
Qed.

End DecodeString.

(** ** Lines of the serializer *)

Section Lines.

Lemma eolAt_cases (c : Z) (rest : jsstring) :
  (eolAt (c :: rest) = 0%nat)
  \/ (eolAt (c :: rest) = 1%nat)
  \/ (eolAt (c :: rest) = 2%nat /\ exists rest', rest = 10 :: rest').
Proof.
  cbn [eolAt]. destruct (c =? 13).
  - destruct (bool_decide_reflect (head rest = Some 10)) as [H|H].
    + right. right. split; [reflexivity|].
      destruct rest as [|x rest']; [discriminate|]. injection H as ->. eauto.
    + right. left. reflexivity.
  - destruct (c =? 10); [right; left; reflexivity|left; reflexivity].
Qed.

Lemma indentLines_from_identity (value : jsstring) :
  forall (line : Z) (cur : jsstring),
    indentLines_from (fun l _ _ => l) false line cur value = cur ++ value
    /\ indentLines_from (fun l _ _ => l) true line cur value = cur ++ tail value.
Proof.
  induction value as [|c rest IH]; intros line cur.
  - cbn [indentLines_from tail]. rewrite app_nil_r. auto.
  - split; [|cbn [indentLines_from tail]; apply IH].
    cbn [indentLines_from].
    destruct (eolAt_cases c rest) as [H|[H|[H [rest' ->]]]]; rewrite H.
    + rewrite (proj1 (IH line (cur ++ [c]))), <- app_assoc. reflexivity.
    + rewrite bool_decide_eq_false_2 by lia.
      rewrite (proj1 (IH (line + 1) [])). cbn [take app].
      rewrite take_0. reflexivity.
    + rewrite bool_decide_eq_true_2 by reflexivity.
      rewrite (proj2 (IH (line + 1) [])). cbn [take app tail].
      rewrite take_0. reflexivity.
Qed.

(** X7: [indentLines] loses nothing of its input: with a map that hands
    every line back as it is, the result is the input, whatever line
    endings (line feed, carriage return, or both) it holds. *)
Theorem indentLines_identity (value : jsstring) :
  indentLines value (fun l _ _ => l) = value.
Proof. apply (indentLines_from_identity value 0 []). Qed.

End Lines.

(** ** The position tracker *)

Section Tracker.

Lemma split_eol_acc (value : jsstring) :
  forall (skip : bool) (cur : jsstring),
    split_eol skip cur value
    = (cur ++ hd [] (split_eol skip [] value)) :: tail (split_eol skip [] value).
Proof.
  induction value as [|c rest IH]; intros skip cur.
  - cbn [split_eol hd tail]. rewrite app_nil_r. reflexivity.
  - cbn [split_eol]. destruct skip; [apply IH|].
    destruct (eolAt (c :: rest)) as [|n].
    + rewrite (IH false (cur ++ [c])), (IH false ([] ++ [c])).
      cbn [hd tail app]. rewrite <- app_assoc. reflexivity.
    + cbn [hd tail]. rewrite app_nil_r. reflexivity.
Qed.

Lemma split_eol_nonempty (value : jsstring) (skip : bool) (cur : jsstring) :
  split_eol skip cur value <> [].
Proof. rewrite split_eol_acc. discriminate. Qed.

Lemma eolAt_app (c : Z) (a b : jsstring) :
  ~ (last (c :: a) = Some 13 /\ head b = Some 10) ->
  eolAt (c :: a ++ b) = eolAt (c :: a).
Proof.
  intros Hno. cbn [eolAt]. destruct (Z.eqb_spec c 13) as [->|]; [|reflexivity].
  destruct a as [|x a]; [|reflexivity].
  cbn [app head].
  destruct (bool_decide_reflect (head b = Some 10)) as [Hb|_]; [|reflexivity].
  exfalso. apply Hno. split; [reflexivity|exact Hb].
Qed.

Lemma last_cons_cons {A : Type} (x y : A) (l : list A) : last (x :: y :: l) = last (y :: l).
Proof. reflexivity. Qed.

Lemma split_eol_app (b : jsstring) (n : nat) :
  forall a : jsstring,
    (length a <= n)%nat ->
    ~ (last a = Some 13 /\ head b = Some 10) ->
    split_eol false [] (a ++ b)
    = removelast (split_eol false [] a)
      ++ (List.last (split_eol false [] a) [] ++ hd [] (split_eol false [] b))
         :: tail (split_eol false [] b).
Proof.
  induction n as [|n IH]; intros a Hn Hno.
  - destruct a; [|simpl in Hn; lia].
    cbn [app split_eol removelast List.last].
    pose proof (split_eol_nonempty b false []) as Hne.
    destruct (split_eol false [] b); [contradiction|reflexivity].
  - destruct a as [|c a].
    { cbn [app split_eol removelast List.last].
      pose proof (split_eol_nonempty b false []) as Hne.
      destruct (split_eol false [] b); [contradiction|reflexivity]. }
    assert (Htail : ~ (last a = Some 13 /\ head b = Some 10)).
    { intros [Hl Hb]. apply Hno. split; [|exact Hb].
      destruct a; [discriminate|]. rewrite last_cons_cons. exact Hl. }
    cbn [app]. cbn [split_eol]. rewrite (eolAt_app c a b Hno).
    destruct (eolAt_cases c a) as [H|[H|[H [a' ->]]]]; rewrite H.
    + rewrite (split_eol_acc (a ++ b)), (split_eol_acc a).
      rewrite (IH a) by (try exact Htail; simpl in Hn; lia).
      pose proof (split_eol_nonempty a false []) as Hne.
      destruct (split_eol false [] a) as [|f [|g o]]; [contradiction| |]; reflexivity.
    + rewrite bool_decide_eq_false_2 by lia.
      rewrite (IH a) by (try exact Htail; simpl in Hn; lia).
      pose proof (split_eol_nonempty a false []) as Hne.
      destruct (split_eol false [] a) as [|f o]; [contradiction|]. reflexivity.
    + rewrite bool_decide_eq_true_2 by reflexivity.
      cbn [app split_eol].
      assert (Htail' : ~ (last a' = Some 13 /\ head b = Some 10)).
      { intros [Hl Hb]. apply Htail. split; [|exact Hb].
        destruct a'; [discriminate|]. rewrite last_cons_cons. exact Hl. }
      rewrite (IH a') by (try exact Htail'; simpl in Hn; lia).
      pose proof (split_eol_nonempty a' false []) as Hne.
      destruct (split_eol false [] a') as [|f o]; [contradiction|]. reflexivity.
Qed.

Lemma last_removelast_app {A : Type} (l : list A) (x : A) (more : list A) :
  last (removelast l ++ x :: more) = last (x :: more).
Proof.
  induction (removelast l) as [|y r IH]; [reflexivity|].
  cbn [app]. destruct (r ++ x :: more) eqn:E; [destruct r; discriminate|].
  rewrite last_cons_cons. exact IH.
Qed.

Lemma length_removelast_cons {A : Type} (x : A) (l : list A) :
  length (removelast (x :: l)) = length l.
Proof.
  revert x. induction l as [|y l IH]; intros x; [reflexivity|].
  change (removelast (x :: y :: l)) with (x :: removelast (y :: l)).
  cbn [length]. rewrite IH. reflexivity.
Qed.

Lemma last_List_last {A : Type} (l : list A) (d : A) :
  default d (last l) = List.last l d.
Proof.
  induction l as [|x l IH]; [reflexivity|].
  destruct l as [|y l]; [reflexivity|].
  rewrite last_cons_cons. exact IH.
Qed.

(** X8: moving the tracker over two pieces of text one after the other is
    moving it over their concatenation, unless the first piece ends with a
    carriage return and the second starts with a line feed, which together
    count as one line ending. *)
Theorem move_app (a b : jsstring) (t : Tracker) :
  ~ (last a = Some 13 /\ head b = Some 10) ->
  move (a ++ b) t = move b (move a t).
Proof.
  intros Hno. unfold move. cbv zeta.
  rewrite (split_eol_app b (length a) a (le_n _) Hno).
  rewrite !last_List_last.
  pose proof (split_eol_nonempty a false []) as Ha.
  pose proof (split_eol_nonempty b false []) as Hb.
  destruct (split_eol false [] a) as [|fa oa]; [contradiction|].
  destruct (split_eol false [] b) as [|fb ob]; [contradiction|].
  clear Ha Hb. cbn [hd tail line column lineShift].
  rewrite <- !last_List_last, last_removelast_app.
  rewrite length_app, length_removelast_cons. cbn [length].
  f_equal.
  - lia.
  - destruct ob as [|gb ob].
    + cbn [last default]. unfold id. rewrite length_app.
      destruct oa as [|ga oa].
      * cbn [length last default].
        rewrite !bool_decide_eq_true_2 by reflexivity. lia.
      * rewrite bool_decide_eq_false_2 by (cbn [length]; lia).
        rewrite bool_decide_eq_true_2 by reflexivity.
        rewrite bool_decide_eq_false_2 by (cbn [length]; lia).
        lia.
    + rewrite last_cons_cons.
      rewrite bool_decide_eq_false_2 by (cbn [length]; lia).
      rewrite (bool_decide_eq_false_2 (length (fb :: gb :: ob) = 1%nat))
        by (cbn [length]; lia).
      rewrite last_cons_cons. reflexivity.
Qed.

End Tracker.

Lemma move_app_witness :
  move (str "ab" ++ [10] ++ str "c") {| line := 1; column := 1; lineShift := 4 |}
  = move ([10] ++ str "c") (move (str "ab") {| line := 1; column := 1; lineShift := 4 |}).
Proof.
  apply (move_app (str "ab") ([10] ++ str "c")).
  intros [H _]. vm_compute in H. discriminate H.
Defined.

(** ** The events of the tokenizers *)

Section TokenizerEvents.
Context `{CM : CaseMapping}.

Lemma iter_consume_eq (k : nat) (c : Context) :
  Nat.iter k effects_consume c
  = {| chunks := chunks c; heap := heap c; events := events c; stack := stack c;
       now := (now c + k)%nat |}.
Proof.
  induction k as [|k IH]; simpl.
  - destruct c; cbn. f_equal. lia.
  - rewrite IH. unfold effects_consume. cbn. f_equal. lia.
Qed.

Lemma types_alter_setEnd (p : Point) (r : nat) (h : list Token) :
  type <$> alter (setEnd p) r h = type <$> h.
Proof.
  revert r. induction h as [|t h IH]; intros r; [reflexivity|].
  destruct r as [|r]; cbn; [reflexivity|]. f_equal. apply IH.
Qed.

Lemma call_accepted_context (d : list jsstring) (c c' : Context) :
  tokenizeFootnoteCall d c = Ok c' ->
  c' = callEnd (callClose (Nat.iter (length (callLabel c c')) effects_consume
                             (callPrefix c))).1.
Proof.
  intros Hrun. destruct (tokenizeFootnoteCall_Ok_inv _ _ _ Hrun) as (x & input & E).
  pose proof Hrun as Hrun'.
  rewrite (tokenizeFootnoteCall_prefix _ _ _ _ E) in Hrun'.
  destruct (call_scan d input false _ _ _ _ Hrun') as (k & Hk & _ & Hc' & _).
  assert (Hlabel : callLabel c c' = take k input).
  { unfold callLabel. rewrite (drop_drop_cons _ _ _ _ _ E). f_equal.
    rewrite Hc', callEnd_now, callClose_now, iter_consume_now.
    unfold callPrefix. autorewrite with ctx. lia. }
  rewrite Hlabel, length_take.
  apply lookup_lt_Some in Hk.
  replace (k `min` length input)%nat with k by lia. exact Hc'.
Qed.

(** X9: what an accepted call leaves behind.  The position has moved over
    [[^], the label and []] and no further; the codes and the stack of open
    tokens are as before; six tokens have been added, of the types
    footnoteCall, footnoteCallLabelMarker, footnoteCallMarker,
    footnoteCallString, chunkString and footnoteCallLabelMarker, and the
    types of the earlier tokens are unchanged; and the twelve new events are
    properly nested. *)
Theorem tokenizeFootnoteCall_leaves_nested_events (d : list jsstring) (c c' : Context) :
  tokenizeFootnoteCall d c = Ok c' ->
  let L := length (heap c) in
  now c' = (now c + length (callLabel c c') + 3)%nat
  /\ chunks c' = chunks c
  /\ stack c' = stack c
  /\ type <$> heap c'
     = (type <$> heap c)
       ++ ["footnoteCall"; "footnoteCallLabelMarker"; "footnoteCallMarker";
           "footnoteCallString"; "chunkString"; "footnoteCallLabelMarker"]%string
  /\ events c'
     = events c
       ++ [(enter, L); (enter, L + 1); (exit, L + 1); (enter, L + 2); (exit, L + 2);
           (enter, L + 3); (enter, L + 4); (exit, L + 4); (exit, L + 3);
           (enter, L + 5); (exit, L + 5); (exit, L)]%nat
  /\ nested [] (drop (length (events c)) (events c')) = true.
Proof.
  intros Hrun. cbv zeta.
  pose proof (call_accepted_context d c c' Hrun) as Hc.
  set (k := length (callLabel c c')) in *. clearbody k. clear Hrun. subst c'.
  rewrite iter_consume_eq.
  destruct c as [ch h ev st p].
  cbn [callEnd callClose callPrefix effects_enter effects_enter_with
       effects_consume effects_exit chunks heap events stack now fst snd].
  assert (Hev : forall (A : Type) (l : list A) (x : A), length (l ++ [x]) = S (length l))
    by (intros; rewrite length_app; simpl; lia).
  repeat (rewrite ?length_alter, ?Hev).
  split; [lia|]. split; [reflexivity|]. split; [reflexivity|].
  split.
  { repeat (rewrite ?types_alter_setEnd, ?fmap_app). cbn [fmap list_fmap type].
    rewrite <- !app_assoc. reflexivity. }
  assert (Hevents :
    ((((((((((((ev ++ [(enter, length h)]) ++ [(enter, S (length h))])
      ++ [(exit, S (length h))]) ++ [(enter, S (S (length h)))])
      ++ [(exit, S (S (length h)))]) ++ [(enter, S (S (S (length h))))])
      ++ [(enter, S (S (S (S (length h)))))]) ++ [(exit, S (S (S (S (length h)))))])
      ++ [(exit, S (S (S (length h))))]) ++ [(enter, S (S (S (S (S (length h))))))])
      ++ [(exit, S (S (S (S (S (length h))))))]) ++ [(exit, length h)])
    = ev ++ [(enter, length h); (enter, length h + 1); (exit, length h + 1);
             (enter, length h + 2); (exit, length h + 2); (enter, length h + 3);
             (enter, length h + 4); (exit, length h + 4); (exit, length h + 3);
             (enter, length h + 5); (exit, length h + 5); (exit, length h)]%nat).
  { rewrite <- !app_assoc. cbn [app].
    replace (length h + 1)%nat with (S (length h)) by lia.
    replace (length h + 2)%nat with (S (S (length h))) by lia.
    replace (length h + 3)%nat with (S (S (S (length h)))) by lia.
    replace (length h + 4)%nat with (S (S (S (S (length h))))) by lia.
    replace (length h + 5)%nat with (S (S (S (S (S (length h)))))) by lia.
    reflexivity. }
  rewrite Hevents. split; [reflexivity|].
  rewrite drop_app_length. cbn [nested].
  rewrite !bool_decide_eq_true_2 by reflexivity. reflexivity.
Qed.

End TokenizerEvents.

Lemma tokenizeFootnoteCall_leaves_nested_events_witness :
  exists c',
    @tokenizeFootnoteCall asciiCase [str "A"] (initialContext (str "[^a] x")) = Ok c'
    /\ stack c' = []
    /\ nested [] (drop 0 (events c')) = true.
Proof.
  destruct (@tokenizeFootnoteCall asciiCase [str "A"] (initialContext (str "[^a] x")))
    as [c'|] eqn:E; [|vm_compute in E; discriminate].
  exists c'. split; [reflexivity|].
  destruct (@tokenizeFootnoteCall_leaves_nested_events asciiCase [str "A"]
              (initialContext (str "[^a] x")) c' E) as (_ & _ & Hst & _ & _ & Hnest).
  split; [exact Hst|exact Hnest].
Defined.

Section NoteMarkers.

Lemma length_snoc {A : Type} (l : list A) (x : A) : length (l ++ [x]) = S (length l).
Proof. rewrite length_app. simpl. lia. Qed.

(** X10: the two markers of an inline note.  [tokenizeNoteStart] accepts
    exactly when a left square bracket follows the current code, and then
    has moved over two codes and added the tokens inlineNoteStart,
    inlineNoteMarker and inlineNoteStartMarker.  [tokenizeNoteEnd] refuses
    exactly when no event so far carries a token of type inlineNoteStart,
    and otherwise moves over one code and adds the tokens inlineNoteEnd and
    inlineNoteEndMarker.  Both leave the stack of open tokens as it was and
    their new events properly nested. *)
Theorem note_markers_leave_nested_events (c : Context) :
  let L := length (heap c) in
  ((exists c', tokenizeNoteStart c = Ok c')
   <-> exists x rest, drop (now c) (chunks c) = x :: 91 :: rest)
  /\ (forall c', tokenizeNoteStart c = Ok c' ->
        now c' = (now c + 2)%nat /\ stack c' = stack c
        /\ type <$> heap c'
           = (type <$> heap c)
             ++ ["inlineNoteStart"; "inlineNoteMarker"; "inlineNoteStartMarker"]%string
        /\ events c'
           = events c ++ [(enter, L); (enter, L + 1); (exit, L + 1);
                          (enter, L + 2); (exit, L + 2); (exit, L)]%nat
        /\ nested [] (drop (length (events c)) (events c')) = true)
  /\ (tokenizeNoteEnd c = Nok
      <-> forall e, e ∈ events c -> isType (heap c) e "inlineNoteStart" = false)
  /\ (forall c', tokenizeNoteEnd c = Ok c' ->
        now c' = (now c + 1)%nat /\ stack c' = stack c
        /\ type <$> heap c'
           = (type <$> heap c) ++ ["inlineNoteEnd"; "inlineNoteEndMarker"]%string
        /\ events c'
           = events c ++ [(enter, L); (enter, L + 1); (exit, L + 1); (exit, L)]%nat
        /\ nested [] (drop (length (events c)) (events c')) = true).
Proof.
  cbv zeta. split; [|split; [|split]].
  - unfold tokenizeNoteStart. destruct (drop (now c) (chunks c)) as [|x rest].
    + split; [intros [c' H]; discriminate|intros (x & rest & H); discriminate].
    + cbv zeta. destruct rest as [|y rest]; cbn [codeAt head].
      * rewrite bool_decide_eq_false_2 by discriminate. cbn [negb].
        split; [intros [c' H]; discriminate|intros (x' & rest' & H); discriminate].
      * destruct (bool_decide_reflect (Some y = Some 91)) as [[= ->]|Hy]; cbn [negb].
        -- split; eauto.
        -- split; [intros [c' H]; discriminate|].
           intros (x' & rest' & [= _ -> _]). contradiction.
  - intros c'. unfold tokenizeNoteStart.
    destruct (drop (now c) (chunks c)) as [|x rest]; [discriminate|].
    cbv zeta. destruct (negb _); [discriminate|]. intros [= <-].
    destruct c as [ch h ev st p].
    cbn [effects_enter effects_enter_with effects_consume effects_exit
         chunks heap events stack now fst snd].
    repeat (rewrite ?length_alter, ?length_snoc).
    split; [lia|]. split; [reflexivity|]. split.
    { repeat (rewrite ?types_alter_setEnd, ?fmap_app). cbn [fmap list_fmap type].
      rewrite <- !app_assoc. reflexivity. }
    replace (length h + 1)%nat with (S (length h)) by lia.
    replace (length h + 2)%nat with (S (S (length h))) by lia.
    rewrite <- !app_assoc. cbn [app]. split; [reflexivity|].
    rewrite drop_app_length. cbn [nested].
    rewrite !bool_decide_eq_true_2 by reflexivity. reflexivity.
  - unfold tokenizeNoteEnd. cbv zeta.
    destruct (existsb _ (events c)) eqn:Hex; cbn [negb].
    + split; [discriminate|]. intros Hall. exfalso.
      apply existsb_exists in Hex as (e & Hin & He).
      rewrite (Hall e) in He by (apply list_elem_of_In; exact Hin). discriminate.
    + split; [|reflexivity]. intros _ e Hin.
      destruct (isType (heap c) e "inlineNoteStart") eqn:He; [|reflexivity].
      assert (Htrue : existsb (fun e => isType (heap c) e "inlineNoteStart") (events c) = true).
      { apply existsb_exists. exists e. split; [apply list_elem_of_In; exact Hin|exact He]. }
      congruence.
  - intros c'. unfold tokenizeNoteEnd. cbv zeta.
    destruct (negb _); [discriminate|]. intros [= <-].
    destruct c as [ch h ev st p].
    cbn [effects_enter effects_enter_with effects_consume effects_exit
         chunks heap events stack now fst snd].
    repeat (rewrite ?length_alter, ?length_snoc).
    split; [lia|]. split; [reflexivity|]. split.
    { repeat (rewrite ?types_alter_setEnd, ?fmap_app). cbn [fmap list_fmap type].
      rewrite <- !app_assoc. reflexivity. }
    replace (length h + 1)%nat with (S (length h)) by lia.
    rewrite <- !app_assoc. cbn [app]. split; [reflexivity|].
    rewrite drop_app_length. cbn [nested].
    rewrite !bool_decide_eq_true_2 by reflexivity. reflexivity.
Qed.

End NoteMarkers.

Section NoteEndResolution.

Lemma tokenizeNoteEnd_shape (c c' : Context) :
  tokenizeNoteEnd c = Ok c' ->
  events c' = events c ++ [(enter, length (heap c)); (enter, S (length (heap c)));
                           (exit, S (length (heap c))); (exit, length (heap c))]
  /\ type <$> heap c'
     = (type <$> heap c) ++ ["inlineNoteEnd"; "inlineNoteEndMarker"]%string.
Proof.
  unfold tokenizeNoteEnd. cbv zeta.
  destruct (negb _); [discriminate|]. intros [= <-].
  destruct c as [ch h ev st p].
  cbn [effects_enter effects_enter_with effects_consume effects_exit
       chunks heap events stack now fst snd].
  repeat (rewrite ?length_alter, ?length_snoc). split.
  - rewrite <- !app_assoc. reflexivity.
  - repeat (rewrite ?types_alter_setEnd, ?fmap_app). cbn [fmap list_fmap type].
    rewrite <- !app_assoc. reflexivity.
Qed.

Lemma findOpening_Some_inv (h : list Token) (events : list Event) (n i : nat) :
  findOpening h events n = Some i ->
  exists e, events !! i = Some e /\ e.1 = enter /\ isType h e "inlineNoteStart" = true.
Proof.
  induction n as [|n IH]; [discriminate|]. cbn [findOpening].
  destruct (events !! n) as [e|] eqn:He; [|discriminate].
  destruct (bool_decide (e.1 = enter) && isType h e "inlineNoteStart") eqn:Hc.
  - intros [= <-]. exists e. apply andb_true_iff in Hc as [H1 H2].
    apply bool_decide_eq_true in H1. auto.
  - exact IH.
Qed.

Lemma findOpening_complete (h : list Token) (events : list Event) (n : nat) :
  (n <= length events)%nat ->
  (exists i e, (i < n)%nat /\ events !! i = Some e /\ e.1 = enter
               /\ isType h e "inlineNoteStart" = true) ->
  exists j, findOpening h events n = Some j.
Proof.
  induction n as [|n IH]; intros Hn (i & e & Hi & He & Hph & Hty); [lia|].
  cbn [findOpening].
  destruct (lookup_lt_is_Some_2 events n ltac:(lia)) as [e' He']. rewrite He'.
  destruct (bool_decide (e'.1 = enter) && isType h e' "inlineNoteStart") eqn:Hc; [eauto|].
  apply IH; [lia|].
  destruct (decide (i = n)) as [->|Hne].
  - rewrite He in He'. injection He' as <-.
    rewrite Hty, (bool_decide_eq_true_2 _ Hph) in Hc. discriminate.
  - exists i, e. repeat split; try assumption. lia.
Qed.

Lemma isType_old_token (c c' : Context) (e : Event) :
  type <$> heap c' = (type <$> heap c) ++ ["inlineNoteEnd"; "inlineNoteEndMarker"]%string ->
  isType (heap c') e "inlineNoteStart" = isType (heap c) e "inlineNoteStart".
Proof.
  intros Hty. unfold isType, eventType.
  rewrite <- !list_lookup_fmap, Hty.
  destruct (decide (e.2 < length (type <$> heap c))%nat) as [Hlt|Hge].
  - rewrite lookup_app_l by exact Hlt. reflexivity.
  - rewrite lookup_app_r by lia.
    rewrite (lookup_ge_None_2 (type <$> heap c)) by lia.
    destruct (e.2 - length (type <$> heap c))%nat as [|[|k]]; reflexivity.
Qed.

(** X11: after [tokenizeNoteEnd] has accepted, [resolveToNoteEnd] finds an
    opening and builds a span exactly when the events before the note end
    hold the enter event of a token of type inlineNoteStart; when they hold
    none, which the exit event of such a token alone does not prevent
    [tokenizeNoteEnd] from accepting, the resolver runs into the error of
    reading an event that does not exist. *)
Theorem resolveToNoteEnd_finds_the_opening (insideSpan : list Construct)
    (c c' : Context) :
  tokenizeNoteEnd c = Ok c' ->
  (exists e, e ∈ events c /\ e.1 = enter /\ isType (heap c) e "inlineNoteStart" = true)
  <-> is_Some (resolveToNoteEnd insideSpan (heap c', events c')).
Proof.
  intros Hend. destruct (tokenizeNoteEnd_shape c c' Hend) as [Hev Hty].
  assert (Hlen : length (events c') = (length (events c) + 4)%nat)
    by (rewrite Hev, length_app; reflexivity).
  unfold resolveToNoteEnd. rewrite Hlen.
  destruct (Nat.ltb_spec (length (events c) + 4) 4) as [?|_]; [lia|].
  replace (length (events c) + 4 - 4)%nat with (length (events c)) by lia.
  split.
  - intros (e & Hin & Hph & He).
    apply list_elem_of_lookup in Hin as [i Hi].
    pose proof (lookup_lt_Some _ _ _ Hi) as Hlt.
    destruct (findOpening_complete (heap c') (events c') (length (events c)))
      as [j Hj]; [lia| |].
    { exists i, e. repeat split; [exact Hlt| |exact Hph|].
      - rewrite Hev, lookup_app_l by exact Hlt. exact Hi.
      - rewrite (isType_old_token c c' e Hty). exact He. }
    rewrite Hj. pose proof (findOpening_lt _ _ _ _ Hj) as Hjlt.
    repeat match goal with
    | |- context [events c' !! ?k] =>
        let E := fresh "E" in
        destruct (lookup_lt_is_Some_2 (events c') k ltac:(lia)) as [? E]; rewrite E
    end.
    cbv zeta. destruct (resolveAll insideSpan _). eauto.
  - intros Hsome.
    destruct (findOpening (heap c') (events c') (length (events c))) as [j|] eqn:Hj;
      [|destruct Hsome; discriminate].
    pose proof (findOpening_lt _ _ _ _ Hj) as Hjlt.
    destruct (findOpening_Some_inv _ _ _ _ Hj) as (e & He & Hph & Hst).
    exists e. rewrite Hev, lookup_app_l in He by exact Hjlt.
    split; [apply list_elem_of_lookup; eauto|]. split; [exact Hph|].
    rewrite <- (isType_old_token c c' e Hty). exact Hst.
Qed.

End NoteEndResolution.

Lemma resolveToNoteEnd_finds_the_opening_witness :
  exists c, inlineNoteExample = Some c
            /\ is_Some (resolveToNoteEnd [] (heap c, events c)).
Proof.
  destruct inlineNoteExample as [c|] eqn:E; [|vm_compute in E; discriminate].
  exists c. split; [reflexivity|].
  unfold inlineNoteExample in E.
  destruct (tokenizeNoteStart (initialContext (str "^[a]"))) as [c1|] eqn:E1;
    [|discriminate].
  destruct (tokenizeNoteEnd (hostData c1)) as [c2|] eqn:E2; [|discriminate].
  injection E as <-.
  apply (resolveToNoteEnd_finds_the_opening [] (hostData c1) c2 E2).
  vm_compute in E1. injection E1 as <-.
  exists (enter, 0%nat). split; [vm_compute; left|split; reflexivity].
Defined.

(** ** The list of defined identifiers *)

Section Defined.
Context `{CM : CaseMapping}.

(** X12: an accepted definition start registers the identifier of its
    label, and nothing else: the identifier is in the list afterwards, the
    list is the old one with at most this identifier added at its end, a
    list without duplicates stays without duplicates, and an identifier that
    was known is not added again.  The container token of the definition is
    left open, on top of the tokens that were open before. *)
Theorem tokenizeDefinitionStart_registers_identifier_once
    (d : list jsstring) (cs : ContainerState) (c : Context) (st : Started) :
  tokenizeDefinitionStart d cs c = Ok st ->
  let id := normalizeIdentifier (serializeChunks false false (definitionLabel c st)) in
  id ∈ footnotes st
  /\ footnotes st = (if bool_decide (id ∈ d) then d else d ++ [id])
  /\ (forall x, x ∈ d -> x ∈ footnotes st)
  /\ (forall x, x ∈ footnotes st -> x ∈ d \/ x = id)
  /\ (NoDup d -> NoDup (footnotes st))
  /\ stack (context st) = length (heap c) :: stack c
  /\ chunks (context st) = chunks c.
Proof.
  intros Hrun. cbv zeta.
  destruct (definition_token_slice _ _ _ _ Hrun) as (_ & _ & _ & Hfoot).
  destruct (tokenizeDefinitionStart_accepted _ _ _ _ Hrun)
    as (Hch & k & (Hst & _) & _).
  set (id := normalizeIdentifier (serializeChunks false false (definitionLabel c st))) in *.
  rewrite Hfoot.
  destruct (bool_decide_reflect (id ∈ d)) as [Hin|Hnin].
  - repeat split; auto.
  - repeat split; auto.
    + apply elem_of_app. right. left.
    + intros x Hx. apply elem_of_app. auto.
    + intros x Hx. apply elem_of_app in Hx as [Hx|Hx]; [auto|].
      right. apply elem_of_cons in Hx as [Hx|Hx]; [exact Hx|inversion Hx].
    + intros Hnd. apply NoDup_app. split; [exact Hnd|]. split.
      * intros x Hx Hx'. apply elem_of_cons in Hx' as [->|Hx']; [contradiction|inversion Hx'].
      * apply NoDup_singleton.
Qed.

End Defined.

Lemma tokenizeDefinitionStart_registers_identifier_once_witness :
  exists st,
    @tokenizeDefinitionStart asciiCase [str "B"] emptyContainerState
      (initialContext (str "[^a]: x")) = Ok st
    /\ NoDup (footnotes st).
Proof.
  destruct (@tokenizeDefinitionStart asciiCase [str "B"] emptyContainerState
              (initialContext (str "[^a]: x"))) as [st|] eqn:E;
    [|vm_compute in E; discriminate].
  exists st. split; [reflexivity|].
  destruct (@tokenizeDefinitionStart_registers_identifier_once asciiCase [str "B"]
              emptyContainerState (initialContext (str "[^a]: x")) st E)
    as (_ & _ & _ & _ & Hnd & _).
  apply Hnd. apply NoDup_singleton.
Defined.

(** ** Note starts that are left over *)

Section LeftOverNoteStarts.

Lemma resolveAllNote_retype (h : list Token) (events : list Event) :
  resolveAllNote (h, events) = retypeNoteStarts (length events) h events.
Proof.
  unfold resolveAllNote. cbn [fst snd].
  pose proof (resolveAllNote_from_spec (length events) events [] h (le_n _)) as H.
  cbn [app length] in H. rewrite H.
  destruct (retypeNoteStarts (length events) h events); reflexivity.
Qed.

Lemma retypeNoteStarts_none (n : nat) :
  forall (h : list Token) (events : list Event),
    (forall e, e ∈ events ->
       bool_decide (e.1 = enter) && isType h e "inlineNoteStart" = false) ->
    retypeNoteStarts n h events = (h, events).
Proof.
  induction n as [|n IH]; intros h events Hall; [reflexivity|].
  destruct events as [|e rest]; [reflexivity|].
  cbn [retypeNoteStarts]. rewrite (Hall e) by left.
  rewrite IH; [reflexivity|]. intros e' He'. apply Hall. right. exact He'.
Qed.

Lemma retypeNoteStarts_sublist (n : nat) :
  forall (h : list Token) (events : list Event),
    (retypeNoteStarts n h events).2 `sublist_of` events
    /\ length (retypeNoteStarts n h events).1 = length h.
Proof.
  induction n as [|n IH]; intros h events; [split; reflexivity|].
  destruct events as [|e rest]; [split; reflexivity|].
  cbn [retypeNoteStarts].
  destruct (bool_decide (e.1 = enter) && isType h e "inlineNoteStart").
  - destruct (IH (alter (retype "data") e.2 h) (drop 4 rest)) as [Hs Hl].
    destruct (retypeNoteStarts n _ (drop 4 rest)) as [h' r]. cbn [fst snd] in *.
    split; [|rewrite Hl; apply length_alter].
    apply sublist_skip. etransitivity; [exact Hs|]. apply sublist_drop.
  - destruct (IH h rest) as [Hs Hl].
    destruct (retypeNoteStarts n h rest) as [h' r]. cbn [fst snd] in *.
    split; [apply sublist_skip; exact Hs|exact Hl].
Qed.

(** X13: [resolveAllNote] changes nothing when no enter event carries a
    token of type inlineNoteStart; running it a second time changes nothing
    more; and in any case it only drops events, keeping the others in their
    order, and keeps the number of tokens. *)
Theorem resolveAllNote_idempotent (h : list Token) (events : list Event) :
  ((forall e, e ∈ events -> e.1 = enter -> isType h e "inlineNoteStart" = false) ->
   resolveAllNote (h, events) = (h, events))
  /\ resolveAllNote (resolveAllNote (h, events)) = resolveAllNote (h, events)
  /\ (resolveAllNote (h, events)).2 `sublist_of` events
  /\ length (resolveAllNote (h, events)).1 = length h.
Proof.
  rewrite resolveAllNote_retype. split; [|split].
  - intros Hall. apply retypeNoteStarts_none. intros e He.
    destruct (bool_decide_reflect (e.1 = enter)) as [Hph|_]; [|reflexivity].
    cbn [andb]. apply Hall; assumption.
  - pose proof (retypeNoteStarts_clean (length events) h events) as Hclean.
    destruct (retypeNoteStarts (length events) h events) as [h' ev'] eqn:E.
    cbn [fst snd] in Hclean.
    rewrite resolveAllNote_retype. apply retypeNoteStarts_none.
    intros e He. apply Hclean; [lia|exact He].
  - apply retypeNoteStarts_sublist.
Qed.

End LeftOverNoteStarts.

(** ** Unsafe patterns *)

Section Safe.
Context `{Host : ToMarkdownHost}.

Lemma recordMatch_positions (pattern : Unsafe) (acc : list nat * gmap nat (bool * bool))
    (m : nat * nat) (p : nat) :
  p ∈ (recordMatch pattern acc m).1 -> p ∈ acc.1 \/ p = matchPosition pattern m.
Proof.
  destruct acc as [positions infos]. unfold recordMatch, matchPosition. cbv zeta.
  destruct (bool_decide _).
  - destruct (infos !! _) as [[b a]|]; cbn [fst]; auto.
  - cbn [fst]. intros [H|H]%elem_of_app; [auto|].
    apply elem_of_cons in H as [H|H]; [auto|inversion H].
Qed.

Lemma foldl_recordMatch_positions (pattern : Unsafe) (ms : list (nat * nat)) :
  forall acc p,
    p ∈ (foldl (recordMatch pattern) acc ms).1 ->
    p ∈ acc.1 \/ exists m, m ∈ ms /\ p = matchPosition pattern m.
Proof.
  induction ms as [|m ms IH]; intros acc p Hp; [auto|].
  cbn [foldl] in Hp. destruct (IH _ _ Hp) as [H|(m' & Hm' & ->)].
  - destruct (recordMatch_positions _ _ _ _ H) as [H' | ->]; [auto|].
    right. exists m. split; [left|reflexivity].
  - right. exists m'. split; [right; exact Hm'|reflexivity].
Qed.

Lemma collectPositions_from (stack : list string) (value : jsstring)
    (patterns : list Unsafe) :
  forall acc p,
    p ∈ (foldl (fun acc pattern =>
                  if patternInScope stack pattern
                  then foldl (recordMatch pattern) acc (patternCompile pattern value)
                  else acc) acc patterns).1 ->
    p ∈ acc.1
    \/ exists pattern m, pattern ∈ patterns /\ patternInScope stack pattern = true
                         /\ m ∈ patternCompile pattern value
                         /\ p = matchPosition pattern m.
Proof.
  induction patterns as [|pattern patterns IH]; intros acc p Hp; [auto|].
  cbn [foldl] in Hp. destruct (IH _ _ Hp) as [H|(q & m & Hq & Hs & Hm & ->)].
  - destruct (patternInScope stack pattern) eqn:Hscope; [|auto].
    destruct (foldl_recordMatch_positions _ _ _ _ H) as [H'|(m & Hm & ->)]; [auto|].
    right. exists pattern, m. repeat split; [left|assumption..].
  - right. exists q, m. repeat split; [right; exact Hq|assumption..].
Qed.

Lemma insertNumerical_elem (p x : nat) (sorted : list nat) :
  x ∈ insertNumerical p sorted -> x = p \/ x ∈ sorted.
Proof.
  induction sorted as [|q more IH]; cbn [insertNumerical].
  - intros H. apply elem_of_cons in H as [H|H]; [auto|inversion H].
  - destruct (p <=? q)%nat.
    + intros H. apply elem_of_cons in H as [H|H]; auto.
    + intros H. apply elem_of_cons in H as [->|H]; [right; left|].
      destruct (IH H) as [H'|H']; [auto|right; right; exact H'].
Qed.

Lemma sortNumerical_elem (x : nat) (positions : list nat) :
  x ∈ sortNumerical positions -> x ∈ positions.
Proof.
  induction positions as [|p positions IH]; cbn [sortNumerical foldr]; [auto|].
  intros H. destruct (insertNumerical_elem _ _ _ H) as [->|H']; [left|right; auto].
Qed.

Lemma safe_from_outside (value : jsstring) (infos : gmap nat (bool * bool))
    (encode : list Z) (after : jsstring) (end' start : nat) (positions : list nat) :
  forall prev,
    (forall p, p ∈ positions -> (p < start)%nat \/ (end' <= p)%nat) ->
    safe_from value infos encode after end' prev positions start
    = escapeBackslashes (jsslice value start end') after.
Proof.
  induction positions as [|p positions IH]; intros prev Hout; [reflexivity|].
  cbn [safe_from]. cbv zeta.
  assert (Hp : (p <? start)%nat || (end' <=? p)%nat = true).
  { destruct (Hout p ltac:(left)) as [H|H].
    - apply orb_true_iff. left. apply Nat.ltb_lt. exact H.
    - apply orb_true_iff. right. apply Nat.leb_le. exact H. }
  rewrite Hp. apply IH. intros q Hq. apply Hout. right. exact Hq.
Qed.

Lemma safe_no_match_inside (st : State) (input : jsstring) (config : Info)
    (encode : list Z) :
  (forall pattern m,
      pattern ∈ unsafe -> patternInScope (constructs st) pattern = true ->
      m ∈ patternCompile pattern (before config ++ input ++ after config) ->
      (matchPosition pattern m < length (before config))%nat
      \/ (length (before config) + length input <= matchPosition pattern m)%nat) ->
  safe st input config encode = escapeBackslashes input (after config).
Proof.
  intros Hout. unfold safe. cbv zeta.
  destruct (collectPositions (constructs st) (before config ++ input ++ after config))
    as [positions infos] eqn:Hcollect.
  rewrite safe_from_outside.
  - f_equal. unfold jsslice. rewrite drop_app_length.
    rewrite !length_app.
    replace (length (before config) + (length input + length (after config))
             - length (after config) - length (before config))%nat
      with (length input) by lia.
    apply take_app_length.
  - intros p Hp. apply sortNumerical_elem in Hp.
    assert (Hp' : p ∈ (collectPositions (constructs st)
                         (before config ++ input ++ after config)).1)
      by (rewrite Hcollect; exact Hp).
    unfold collectPositions in Hp'.
    destruct (collectPositions_from _ _ _ _ _ Hp') as [H|(pattern & m & Hq & Hs & Hm & ->)];
      [inversion H|].
    destruct (Hout pattern m Hq Hs Hm) as [H|H]; [left; exact H|].
    right. rewrite !length_app. lia.
Qed.


(** X14: [safe] escapes nothing but backslashes when no unsafe pattern that
    is in scope matches inside the input: if every match of such a pattern
    on [before + input + after] has its position in [before] or in [after],
    the result is [escapeBackslashes(input, after)]. *)
Theorem safe_without_match_inside (st : State) (input : jsstring) (config : Info)
    (encode : list Z) :
  (forall pattern m,
      pattern ∈ unsafe -> patternInScope (constructs st) pattern = true ->
      m ∈ patternCompile pattern (before config ++ input ++ after config) ->
      (matchPosition pattern m < length (before config))%nat
      \/ (length (before config) + length input <= matchPosition pattern m)%nat) ->
  safe st input config encode = escapeBackslashes input (after config).
Proof. exact (safe_no_match_inside st input config encode). Qed.

End Safe.

Lemma unitMatches_elem (c : Z) (value : jsstring) :
  forall (index : nat) (m : nat * nat),
    m ∈ unitMatches c index value ->
    m.2 = 0%nat /\ (index <= m.1)%nat /\ value !! (m.1 - index)%nat = Some c.
Proof.
  induction value as [|x rest IH]; intros index m Hm; [inversion Hm|].
  cbn [unitMatches] in Hm. apply elem_of_app in Hm as [Hm|Hm].
  - destruct (Z.eqb_spec x c) as [->|]; [|inversion Hm].
    apply elem_of_cons in Hm as [->|Hm]; [|inversion Hm].
    cbn [fst snd]. rewrite Nat.sub_diag. auto.
  - destruct (IH _ _ Hm) as (H0 & Hle & Hl). split; [exact H0|]. split; [lia|].
    replace (m.1 - index)%nat with (S (m.1 - S index)) by lia. exact Hl.
Qed.

Lemma safe_without_match_inside_witness :
  @safe footnoteHost
    {| constructs := ["footnoteReference"; "reference"]%string; indexStack := [];
       bulletLastUsed := None |}
    (str "a1")
    {| before := str "[^"; after := str "]"; now_line := 1; now_column := 3;
       info_lineShift := 0 |} []
  = escapeBackslashes (str "a1") (str "]").
Proof.
  apply (@safe_without_match_inside footnoteHost).
  intros pattern m Hp _ Hm.
  apply elem_of_cons in Hp as [->|Hp]; [|inversion Hp].
  apply unitMatches_elem in Hm as (H0 & _ & Hl).
  unfold matchPosition. cbn [u_before atBreak footnoteUnsafe before after length str] in *.
  rewrite bool_decide_eq_false_2 by (intros [? H]; discriminate H).
  cbn [orb]. rewrite Nat.add_0_r, Nat.sub_0_r in *.
  destruct (m.1) as [|[|[|[|[|k]]]]]; cbn in Hl; try discriminate; cbn; lia.
Defined.

(** ** References *)

Section References.
Context `{CM : CaseMapping} `{CE : CharacterEntities} `{Host : ToMarkdownHost}.

Lemma serializeChunks_plain (lbl : list Z) (atTab : bool) :
  Forall (fun u => plainUnit u = true) lbl -> serializeChunks atTab false lbl = lbl.
Proof.
  intros Hplain. revert atTab.
  induction Hplain as [|u lbl Hu _ IH]; intros atTab; [reflexivity|].
  cbn [serializeChunks].
  assert (Hpos : 0 <= u).
  { unfold plainUnit, markdownLineEndingOrSpace in Hu.
    apply andb_true_iff in Hu as [Hu _]. apply negb_true_iff in Hu.
    apply orb_false_iff in Hu as [Hu _]. lia. }
  destruct (Z.eqb_spec u (-5)); [lia|]. destruct (Z.eqb_spec u (-4)); [lia|].
  destruct (Z.eqb_spec u (-3)); [lia|]. destruct (Z.eqb_spec u (-2)); [lia|].
  destruct (Z.eqb_spec u (-1)); [lia|]. cbn [app orb andb]. rewrite IH. reflexivity.
Qed.

Lemma call_plain_accepted (d : list jsstring) (c : Context) (x : Z) (lbl rest : list Z) :
  Forall (fun u => plainUnit u = true) lbl -> lbl <> [] ->
  Z.of_nat (length lbl) <= 999 ->
  drop (now c) (chunks c) = x :: 94 :: lbl ++ 93 :: rest ->
  normalizeIdentifier lbl ∈ d ->
  exists c', tokenizeFootnoteCall d c = Ok c' /\ callLabel c c' = lbl
             /\ now c' = (now c + length lbl + 3)%nat.
Proof.
  intros Hplain Hne Hlen E Hin.
  rewrite (tokenizeFootnoteCall_prefix _ _ _ _ E).
  rewrite call_plain_run by (try assumption; lia).
  rewrite run_callData_close by lia.
  assert (Hid : callIdentifier (Nat.iter (length lbl) effects_consume (callPrefix c))
                = normalizeIdentifier lbl).
  { unfold callIdentifier, sliceSerialize. rewrite callPrefix_slice.
    rewrite (drop_drop_cons _ _ _ _ _ E), take_app_length.
    rewrite serializeChunks_plain by exact Hplain. reflexivity. }
  rewrite Hid, (bool_decide_eq_true_2 _ Hin).
  destruct lbl as [|u lbl]; [congruence|]. cbn [andb].
  eexists. split; [reflexivity|].
  unfold callLabel. rewrite callEnd_now, callClose_now, iter_consume_now.
  replace (now (callPrefix c)) with (now c + 2)%nat
    by (unfold callPrefix; autorewrite with ctx; lia).
  rewrite (drop_drop_cons _ _ _ _ _ E).
  replace (S (now c + 2 + length (u :: lbl)) - now c - 3)%nat with (length (u :: lbl)) by lia.
  split; [apply take_app_length|lia].
Qed.

Lemma doubledBackslashes_plain (lbl after : jsstring) :
  Forall (fun u => plainUnit u = true) lbl -> doubledBackslashes lbl after = lbl.
Proof.
  induction 1 as [|u lbl Hu _ IH]; [reflexivity|].
  cbn [doubledBackslashes].
  destruct (plainUnit_spec u Hu) as (_ & H92 & _).
  rewrite (proj2 (Z.eqb_neq u 92) H92). cbn [andb]. rewrite IH. reflexivity.
Qed.

Lemma state_exit_enter (name : string) (st : State) :
  state_exit (state_enter name st) = st.
Proof.
  destruct st as [cs ix b]. unfold state_exit, state_enter. cbn.
  rewrite removelast_last. reflexivity.
Qed.

(** X15: the text of a reference is [[^], the escaped association of the
    node and []], it starts with what [footnoteReferencePeek] announces, and
    the state of the serializer is handed back as it was.  When the
    association is a label of at most 999 plain units, inside which no
    unsafe pattern in scope matches, the text is [[^], the label and []],
    and the call tokenizer reads this text back: it accepts it when the
    identifier of the label is defined, with this label. *)
Theorem footnoteReference_is_read_back (node : Node) (st : State) (safeOptions : Info)
    (d : list jsstring) (rest : list Z) :
  let lbl := association node in
  let text := (footnoteReference node st safeOptions).1 in
  Forall (fun u => plainUnit u = true) lbl -> lbl <> [] ->
  Z.of_nat (length lbl) <= 999 ->
  (forall pattern m,
      pattern ∈ unsafe ->
      m ∈ patternCompile pattern (str "[^" ++ lbl ++ str "]") ->
      (matchPosition pattern m < 2)%nat \/ (2 + length lbl <= matchPosition pattern m)%nat) ->
  normalizeIdentifier lbl ∈ d ->
  text = str "[^" ++ lbl ++ str "]"
  /\ take 1 text = footnoteReferencePeek
  /\ (footnoteReference node st safeOptions).2 = st
  /\ exists c', tokenizeFootnoteCall d (initialContext (text ++ rest)) = Ok c'
                /\ callLabel (initialContext (text ++ rest)) c' = lbl
                /\ now c' = length text.
Proof.
  cbv zeta. intros Hplain Hne Hlen Hout Hin.
  assert (Htext : (footnoteReference node st safeOptions).1
                  = str "[^" ++ association node ++ str "]").
  { unfold footnoteReference. cbn [fst].
    rewrite safe_no_match_inside.
    - cbn [after current].
      rewrite escapeBackslashes_doubled by (cbn; intros H; inversion H).
      rewrite doubledBackslashes_plain by exact Hplain.
      rewrite <- app_assoc. reflexivity.
    - intros pattern m Hp _ Hm. cbn [before after current length str] in *.
      apply (Hout pattern m Hp Hm). }
  rewrite Htext. split; [reflexivity|]. split; [reflexivity|]. split.
  { unfold footnoteReference. cbn [snd]. rewrite !state_exit_enter. reflexivity. }
  destruct (call_plain_accepted d (initialContext ((str "[^" ++ association node ++ str "]") ++ rest))
              91 (association node) rest Hplain Hne Hlen) as (c' & Hc' & Hl & Hnow).
  - cbn [initialContext now chunks drop]. rewrite drop_0, <- !app_assoc. reflexivity.
  - exact Hin.
  - exists c'. split; [exact Hc'|]. split; [exact Hl|].
    rewrite Hnow. cbn [initialContext now]. rewrite !length_app.
    change (length (str "[^")) with 2%nat. change (length (str "]")) with 1%nat. lia.
Qed.

End References.

Lemma footnoteReference_is_read_back_witness :
  (@footnoteReference noEntities footnoteHost
     {| ntype := "footnoteReference"; identifier := str "a1"; label := str "a1";
        value := []; children := [] |} emptyState emptyInfo).1 = str "[^a1]".
Proof.
  refine (proj1 (@footnoteReference_is_read_back asciiCase noEntities footnoteHost
                   {| ntype := "footnoteReference"; identifier := str "a1";
                      label := str "a1"; value := []; children := [] |}
                   emptyState emptyInfo [str "A1"] (str " x") _ _ _ _ _)).
  - repeat constructor.
  - discriminate.
  - vm_compute. discriminate.
  - intros pattern m Hp Hm.
    apply elem_of_cons in Hp as [->|Hp]; [|inversion Hp].
    apply unitMatches_elem in Hm as (H0 & _ & Hl).
    unfold matchPosition. cbn [u_before atBreak footnoteUnsafe].
    rewrite bool_decide_eq_false_2 by (intros [? H]; discriminate H).
    cbn [orb]. rewrite Nat.add_0_r. rewrite Nat.sub_0_r in Hl.
    destruct (m.1) as [|[|[|[|[|k]]]]]; cbn in Hl; try discriminate; cbn; lia.
  - vm_compute. left.
Defined.

(** ** Lines that continue a definition *)

Section ContinuationLines.

Lemma spacesUpTo_le_length (n : nat) :
  forall input, (spacesUpTo n input <= length input)%nat.
Proof.
  induction n as [|n IH]; intros [|u rest]; cbn [spacesUpTo length]; try lia.
  destruct (markdownSpace (Some u)); [|lia]. specialize (IH rest). lia.
Qed.

Lemma tokenizeIndent_Ok (c c' : Context) :
  markdownSpace (codeAt (drop (now c) (chunks c))) = true ->
  tokenizeIndent c (drop (now c) (chunks c)) = Ok c' ->
  spacesUpTo 4 (drop (now c) (chunks c)) = 4%nat
  /\ c' = (effects_exit "footnoteDefinitionIndent"
             (Nat.iter 4 effects_consume (effects_enter "footnoteDefinitionIndent" c))).1.
Proof.
  intros Hsp. set (input := drop (now c) (chunks c)) in *.
  unfold tokenizeIndent, factorySpace. rewrite Hsp.
  change (if 4 + 1 =? 0 then None else Some (4 + 1 - 1)) with (Some 4).
  rewrite (factorySpace_prefix_spec _ 4) by (reflexivity || lia).
  set (j := spacesUpTo 4 input).
  set (c1 := Nat.iter j effects_consume (effects_enter "footnoteDefinitionIndent" c)).
  assert (Hst : stack c1 = length (heap c) :: stack c).
  { subst c1. rewrite iter_consume_stack. reflexivity. }
  assert (Hheap : heap (effects_exit "footnoteDefinitionIndent" c1).1 !! length (heap c)
                  = Some {| type := "footnoteDefinitionIndent"; start := Some (now c);
                            end_ := Some (now c + j)%nat; contentType := None;
                            _container := false |}).
  { rewrite (exit_heap_eq _ _ _ _ Hst). subst c1.
    rewrite iter_consume_heap, iter_consume_now. unfold effects_enter.
    rewrite enter_heap_new by reflexivity. reflexivity. }
  rewrite (exit_events _ _ _ _ Hst), last_snoc.
  unfold isType, eventType, sliceSerialize, sliceStream. cbn [snd].
  rewrite Hheap. cbn [fmap option_fmap option_map type start end_].
  rewrite bool_decide_eq_true_2 by reflexivity. cbn [andb].
  rewrite exit_chunks. subst c1. rewrite iter_consume_chunks. cbn [chunks effects_enter
    effects_enter_with].
  replace (now c + j - now c)%nat with j by lia. fold input.
  subst j. rewrite spacesUpTo_serialize.
  destruct (bool_decide_reflect (spacesUpTo 4 input = 4%nat)) as [H4|H4]; [|discriminate].
  intros Heq. split; [exact H4|]. rewrite H4 in Heq. congruence.
Qed.

(** X16: what an accepted continuation line costs.  A blank line is
    accepted as it stands: nothing is consumed and no event is added.  A
    line that is not blank is accepted only with four markdown spaces in
    front, and then exactly these four codes are consumed, as one
    footnoteDefinitionIndent token that is entered and exited, the stack of
    open tokens is as before, and both blank-line flags of the container
    are reset. *)
Theorem tokenizeDefinitionContinuation_consumes_four (cs cs' : ContainerState)
    (c c' : Context) :
  tokenizeDefinitionContinuation cs c = (Ok c', cs') ->
  let input := drop (now c) (chunks c) in
  (check_blankLine c input = true /\ c' = c)
  \/ (check_blankLine c input = false
      /\ Forall (fun u => markdownSpace (Some u) = true) (take 4 input)
      /\ (4 <= length input)%nat
      /\ now c' = (now c + 4)%nat
      /\ chunks c' = chunks c
      /\ stack c' = stack c
      /\ events c' = events c ++ [(enter, length (heap c)); (exit, length (heap c))]
      /\ sliceStream c' (length (heap c)) = take 4 input
      /\ cs' = emptyContainerState).
Proof.
  unfold tokenizeDefinitionContinuation. cbv zeta.
  set (input := drop (now c) (chunks c)).
  destruct (check_blankLine c input) eqn:Hblank.
  - intros [= <- _]. left. auto.
  - destruct (furtherBlankLines cs || negb (markdownSpace (codeAt input))) eqn:Hno;
      [discriminate|].
    apply orb_false_iff in Hno as [_ Hsp]. apply negb_false_iff in Hsp.
    intros [= Hindent <-]. right.
    destruct (tokenizeIndent_Ok c c' Hsp Hindent) as [H4 ->]. fold input in H4.
    split; [reflexivity|].
    split; [rewrite <- H4; apply spacesUpTo_spaces|].
    assert (Hlen : (4 <= length input)%nat)
      by (rewrite <- H4; apply spacesUpTo_le_length).
    split; [exact Hlen|].
    set (c1 := Nat.iter 4 effects_consume (effects_enter "footnoteDefinitionIndent" c)).
    assert (Hst : stack c1 = length (heap c) :: stack c)
      by (subst c1; rewrite iter_consume_stack; reflexivity).
    assert (Hheap : heap (effects_exit "footnoteDefinitionIndent" c1).1 !! length (heap c)
                    = Some {| type := "footnoteDefinitionIndent"; start := Some (now c);
                              end_ := Some (now c + 4)%nat; contentType := None;
                              _container := false |}).
    { rewrite (exit_heap_eq _ _ _ _ Hst). subst c1.
      rewrite iter_consume_heap, iter_consume_now. unfold effects_enter.
      rewrite enter_heap_new by reflexivity. reflexivity. }
    assert (Hev : forall k x, events (Nat.iter k effects_consume x) = events x)
      by (intros k x; induction k; simpl; auto).
    split; [rewrite exit_now; subst c1; rewrite iter_consume_now; reflexivity|].
    split; [rewrite exit_chunks; subst c1; rewrite iter_consume_chunks; reflexivity|].
    split; [rewrite exit_stack, Hst; reflexivity|].
    split.
    { rewrite (exit_events _ _ _ _ Hst). subst c1. rewrite Hev.
      unfold effects_enter. rewrite enter_events, <- app_assoc. reflexivity. }
    split; [|reflexivity].
    unfold sliceStream. rewrite Hheap. cbn [start end_].
    rewrite exit_chunks. subst c1. rewrite iter_consume_chunks.
    cbn [chunks effects_enter effects_enter_with]. fold input. f_equal. lia.
Qed.

End ContinuationLines.

Lemma tokenizeDefinitionContinuation_consumes_four_witness :
  exists c',
    tokenizeDefinitionContinuation emptyContainerState (initialContext (str "    foo"))
    = (Ok c', emptyContainerState)
    /\ now c' = 4%nat.
Proof.
  destruct (tokenizeDefinitionContinuation emptyContainerState
              (initialContext (str "    foo"))) as [[c'|] cs'] eqn:E;
    [|vm_compute in E; discriminate].
  assert (Hcs : cs' = emptyContainerState)
    by (vm_compute in E; injection E as _ Hcs; rewrite <- Hcs; reflexivity).
  subst cs'. exists c'. split; [reflexivity|].
  destruct (tokenizeDefinitionContinuation_consumes_four _ _ _ _ E)
    as [[Hblank _]|(_ & _ & _ & Hnow & _)].
  - vm_compute in Hblank. discriminate.
  - exact Hnow.
Defined.

(** ** Activation *)

Section Activation.

Lemma Array_indexOf_spec {A : Type} `{EqDecision A} (items : list A) (value : A) :
  ((value ∉ items) /\ Array_indexOf items value = -1)
  \/ exists pre post,
       items = pre ++ value :: post /\ (value ∉ pre)
       /\ Array_indexOf items value = Z.of_nat (length pre).
Proof.
  induction items as [|x rest IH].
  - left. split; [apply not_elem_of_nil|reflexivity].
  - cbn [Array_indexOf]. destruct (decide (x = value)) as [->|Hne].
    + right. exists [], rest. split; [reflexivity|]. split; [apply not_elem_of_nil|reflexivity].
    + destruct IH as [[Hnot ->]|(pre & post & -> & Hpre & ->)].
      * left. split; [|reflexivity]. intros Hin.
        apply elem_of_cons in Hin as [->|Hin]; contradiction.
      * right. exists (x :: pre), post. split; [reflexivity|]. split.
        -- intros Hin. apply elem_of_cons in Hin as [->|Hin]; contradiction.
        -- destruct (Z.ltb_spec (Z.of_nat (length pre)) 0); [lia|].
           cbn [length]. lia.
Qed.

(** X17: [deactivate] does not take back what [activate] has put in.
    [activate] appends the plugin together with its options, as one array;
    [deactivate] looks for the plugin function itself, so it removes the
    first entry that is the bare function and no other: every entry that is
    not the bare function stays, the array of [activate] among them, and on
    a list that holds no bare function, activating and then deactivating
    leaves the list with the array in it.  Without a renderer both do
    nothing. *)
Theorem deactivate_keeps_the_entry_of_activate (plugins : list PluginEntry) :
  activate (Some plugins) = Some (plugins ++ [PluginWithOptions remarkFootnotes true])
  /\ (exists left, deactivate (activate (Some plugins)) = Some left
                   /\ PluginWithOptions remarkFootnotes true ∈ left
                   /\ forall e, e <> PluginFunction remarkFootnotes ->
                        (e ∈ left <-> e ∈ plugins ++ [PluginWithOptions remarkFootnotes true]))
  /\ (PluginFunction remarkFootnotes ∉ plugins ->
      deactivate (activate (Some plugins)) = activate (Some plugins))
  /\ (forall pre post, PluginFunction remarkFootnotes ∉ pre ->
        deactivate (Some (pre ++ PluginFunction remarkFootnotes :: post)) = Some (pre ++ post))
  /\ activate None = None /\ deactivate None = None.
Proof.
  split; [reflexivity|].
  assert (Hdeact : forall l,
            ((PluginFunction remarkFootnotes ∉ l) /\ deactivate (Some l) = Some l)
            \/ exists pre post, l = pre ++ PluginFunction remarkFootnotes :: post
                 /\ (PluginFunction remarkFootnotes ∉ pre)
                 /\ deactivate (Some l) = Some (pre ++ post)).
  { intros l. unfold deactivate. cbv zeta.
    destruct (Array_indexOf_spec l (PluginFunction remarkFootnotes))
      as [[Hnot ->]|(pre & post & -> & Hpre & ->)].
    - left. split; [exact Hnot|reflexivity].
    - right. exists pre, post. split; [reflexivity|]. split; [exact Hpre|].
      destruct (Z.leb_spec 0 (Z.of_nat (length pre))); [|lia].
      f_equal. rewrite Array_splice_clamped by (rewrite length_app; simpl; lia).
      rewrite Nat2Z.id, take_app_length. cbn [app]. f_equal.
      rewrite length_app. cbn [length].
      replace (Z.to_nat (Z.of_nat (length pre)
                 + Z.min (Z.max 1 0) (Z.of_nat (length pre + S (length post))
                                      - Z.of_nat (length pre))))
        with (length pre + 1)%nat by lia.
      rewrite drop_app_add. reflexivity. }
  split; [|split; [|split; [|split; reflexivity]]].
  - cbn [activate].
    destruct (Hdeact (plugins ++ [PluginWithOptions remarkFootnotes true]))
      as [[_ ->]|(pre & post & Heq & _ & ->)].
    + eexists. split; [reflexivity|]. split; [|tauto].
      apply elem_of_app. right. left.
    + eexists. split; [reflexivity|].
      assert (Hiff : forall e, e <> PluginFunction remarkFootnotes ->
                       (e ∈ pre ++ post <-> e ∈ plugins ++ [PluginWithOptions remarkFootnotes true])).
      { intros e He. rewrite Heq, !elem_of_app, elem_of_cons. tauto. }
      split; [|exact Hiff].
      apply Hiff; [discriminate|]. apply elem_of_app. right. left.
  - intros Hnot. cbn [activate].
    destruct (Hdeact (plugins ++ [PluginWithOptions remarkFootnotes true]))
      as [[_ ->]|(pre & post & Heq & _ & _)]; [reflexivity|].
    exfalso. assert (Hin : PluginFunction remarkFootnotes ∈ plugins ++ [PluginWithOptions remarkFootnotes true])
      by (rewrite Heq; apply elem_of_app; right; left).
    apply elem_of_app in Hin as [Hin|Hin]; [contradiction|].
    apply elem_of_cons in Hin as [Hin|Hin]; [discriminate|inversion Hin].
  - intros pre post Hpre.
    destruct (Hdeact (pre ++ PluginFunction remarkFootnotes :: post))
      as [[Hnot _]|(pre' & post' & Heq & Hpre' & ->)].
    + exfalso. apply Hnot, elem_of_app. right. left.
    + f_equal.
      assert (Hlen : length pre = length pre').
      { destruct (Nat.lt_trichotomy (length pre) (length pre')) as [Hlt|[Heq'|Hgt]];
          [exfalso|exact Heq'|exfalso].
        - apply Hpre'.
          assert (Hl : (pre' ++ PluginFunction remarkFootnotes :: post') !! length pre
                       = Some (PluginFunction remarkFootnotes))
            by (rewrite <- Heq; apply list_lookup_middle; reflexivity).
          rewrite lookup_app_l in Hl by exact Hlt.
          apply list_elem_of_lookup. eauto.
        - apply Hpre.
          assert (Hl : (pre ++ PluginFunction remarkFootnotes :: post) !! length pre'
                       = Some (PluginFunction remarkFootnotes))
            by (rewrite Heq; apply list_lookup_middle; reflexivity).
          rewrite lookup_app_l in Hl by exact Hgt.
          apply list_elem_of_lookup. eauto. }
      apply app_inj_1 in Heq as [-> Heq]; [|exact Hlen].
      injection Heq as ->. reflexivity.
Qed.

End Activation.

(** ** The state of the serializer *)

Section SerializerState.
Context `{CE : CharacterEntities} `{Host : ToMarkdownHost}.

Lemma removelast_snoc {A} (l : list A) (x : A) : removelast (l ++ [x]) = l.
Proof. apply removelast_last. Qed.

(** The loop of [containerFlow] writes only the top of the stack of
    indices. *)
Lemma containerFlow_from_stacks (Hkeep : handleKeepsStacks) (parent : Node)
    (kids : list Node) :
  forall index tracker st base top,
    indexStack st = base ++ [top] ->
    constructs (containerFlow_from parent kids index tracker st).2 = constructs st
    /\ exists top', indexStack (containerFlow_from parent kids index tracker st).2
                    = base ++ [top'].
Proof.
  induction kids as [|child rest IH]; intros index tracker st base top Hst.
  - cbn. split; [reflexivity | eauto].
  - cbn [containerFlow_from].
    set (st1 := {| constructs := constructs st;
                   indexStack := removelast (indexStack st) ++ [index];
                   bulletLastUsed := bulletLastUsed st |}).
    destruct (Hkeep child parent st1 (current tracker [10] [10])) as [Hc Hi].
    destruct (handle child parent st1 (current tracker [10] [10])) as [text st2] eqn:Hh.
    cbn [snd] in Hc, Hi.
    set (st3 := if negb (String.eqb (ntype child) "list")
                then {| constructs := constructs st2; indexStack := indexStack st2;
                        bulletLastUsed := None |}
                else st2).
    assert (Hc3 : constructs st3 = constructs st)
      by (subst st3; destruct (negb _); cbn; rewrite Hc; reflexivity).
    assert (Hi3 : indexStack st3 = base ++ [index]).
    { subst st3; destruct (negb _); cbn; rewrite Hi; subst st1; cbn;
        rewrite Hst, removelast_snoc; reflexivity. }
    destruct rest as [|next rest'].
    + cbn [snd]. split; [exact Hc3 | eauto].
    + set (tracker' := move (between child next parent st3) (move text tracker)).
      destruct (IH (index + 1) tracker' st3 base index Hi3) as [Hc4 [top' Hi4]].
      destruct (containerFlow_from parent (next :: rest') (index + 1) tracker' st3)
        as [more st4] eqn:Hmore.
      cbn [snd] in *. split; [congruence | eauto].
Qed.

Lemma containerFlow_stacks (Hkeep : handleKeepsStacks) (parent : Node) (st : State)
    (info : Info) :
  constructs (containerFlow parent st info).2 = constructs st
  /\ indexStack (containerFlow parent st info).2 = indexStack st.
Proof.
  unfold containerFlow.
  set (st0 := {| constructs := constructs st; indexStack := indexStack st ++ [-1];
                 bulletLastUsed := bulletLastUsed st |}).
  destruct (containerFlow_from_stacks Hkeep parent (children parent) 0 (track info)
              st0 (indexStack st) (-1) eq_refl) as [Hc [top' Hi]].
  destruct (containerFlow_from parent (children parent) 0 (track info) st0)
    as [text st1] eqn:Hrun.
  cbn [snd] in *. split; [exact Hc |].
  rewrite Hi. apply removelast_snoc.
Qed.

(** X18: when the handlers of the host hand the stack of constructs and the
    stack of indices back as they received them, so do [containerFlow] and
    the handler of a footnote definition: every construct they enter they
    leave, and the index they push they pop. *)
Theorem footnoteDefinition_restores_the_stacks (Hkeep : handleKeepsStacks)
    (node : Node) (st : State) (safeOptions : Info) :
  (constructs (containerFlow node st safeOptions).2 = constructs st
   /\ indexStack (containerFlow node st safeOptions).2 = indexStack st)
  /\ constructs (footnoteDefinition node st safeOptions).2 = constructs st
  /\ indexStack (footnoteDefinition node st safeOptions).2 = indexStack st.
Proof.
  split; [apply containerFlow_stacks; exact Hkeep |].
  unfold footnoteDefinition.
  match goal with
  | |- context [containerFlow node ?s ?i] =>
      destruct (containerFlow_stacks Hkeep node s i) as [Hc Hi];
      destruct (containerFlow node s i) as [flow st1] eqn:Hflow
  end.
  cbn [snd] in *. unfold state_exit, state_enter in *. cbn in *.
  rewrite Hc, !removelast_snoc. split; [reflexivity | exact Hi].
Qed.

End SerializerState.

Lemma footnoteDefinition_restores_the_stacks_witness :
  @handleKeepsStacks plainHost
  /\ constructs (@footnoteDefinition noEntities plainHost
                   (paragraphNode (str "a")) emptyState emptyInfo).2 = []
  /\ indexStack (@footnoteDefinition noEntities plainHost
                   (paragraphNode (str "a")) emptyState emptyInfo).2 = [].
Proof.
  assert (Hkeep : @handleKeepsStacks plainHost)
    by (intros child parent st info; split; reflexivity).
  split; [exact Hkeep |].
  exact (proj2 (@footnoteDefinition_restores_the_stacks noEntities plainHost Hkeep
                  (paragraphNode (str "a")) emptyState emptyInfo)).
Defined.

(** ** The normal form of an identifier *)

Section Normalization.

Lemma words_good (s : jsstring) :
  Forall (fun w => w <> [] /\ Forall (fun c => isWhitespaceUnit c = false) w) (words s).
Proof.
  induction s as [|c rest IH]; [constructor|].
  destruct (isWhitespaceUnit c) eqn:Hc.
  { cbn [words]. rewrite Hc. exact IH. }
  destruct rest as [|c' r].
  { cbn [words]. rewrite Hc. repeat constructor; [discriminate | exact Hc]. }
  destruct (isWhitespaceUnit c') eqn:Hc'.
  - rewrite (words_sep c c' r Hc Hc'). constructor; [|exact IH].
    split; [discriminate | repeat constructor; exact Hc].
  - destruct (words_inside c c' r Hc Hc') as (w & ws & Hw & ->).
    rewrite Hw in IH. inversion IH as [|? ? [_ Hgood] Hrest]; subst.
    constructor; [|exact Hrest].
    split; [discriminate | constructor; assumption].
Qed.

Lemma words_word (w : jsstring) :
  w <> [] -> Forall (fun c => isWhitespaceUnit c = false) w -> words w = [w].
Proof.
  induction w as [|c r IH]; [contradiction|]. intros _ Hgood.
  inversion Hgood as [|? ? Hc Hr]; subst.
  destruct r as [|c' r'].
  { cbn [words]. rewrite Hc. reflexivity. }
  inversion Hr as [|? ? Hc' _]; subst.
  destruct (words_inside c c' r' Hc Hc') as (w & ws & Hw & ->).
  rewrite (IH ltac:(discriminate) Hr) in Hw. congruence.
Qed.

Lemma words_word_space (w t : jsstring) :
  w <> [] -> Forall (fun c => isWhitespaceUnit c = false) w ->
  words (w ++ 32 :: t) = w :: words t.
Proof.
  induction w as [|c r IH]; [contradiction|]. intros _ Hgood.
  inversion Hgood as [|? ? Hc Hr]; subst.
  destruct r as [|c' r'].
  { cbn [app]. rewrite (words_sep c 32 t Hc eq_refl).
    cbn [words]. replace (isWhitespaceUnit 32) with true by reflexivity. reflexivity. }
  inversion Hr as [|? ? Hc' _]; subst.
  cbn [app].
  destruct (words_inside c c' (r' ++ 32 :: t) Hc Hc') as (w & ws & Hw & ->).
  change (c' :: r' ++ 32 :: t) with ((c' :: r') ++ 32 :: t) in Hw.
  rewrite (IH ltac:(discriminate) Hr) in Hw. congruence.
Qed.

Lemma words_unwords (ws : list jsstring) :
  Forall (fun w => w <> [] /\ Forall (fun c => isWhitespaceUnit c = false) w) ws ->
  words (unwords ws) = ws.
Proof.
  induction ws as [|w more IH]; [reflexivity|]. intros Hgood.
  inversion Hgood as [|? ? [Hne Hw] Hmore]; subst.
  destruct more as [|w' more'].
  { cbn [unwords]. apply words_word; assumption. }
  rewrite unwords_cons, (words_word_space _ _ Hne Hw), (IH Hmore). reflexivity.
Qed.

(** Collapsing and trimming a second time changes nothing. *)
Lemma trimSpace_collapseWhitespace_fixed (s : jsstring) :
  trimSpace (collapseWhitespace (trimSpace (collapseWhitespace s)))
  = trimSpace (collapseWhitespace s).
Proof.
  rewrite !trimSpace_collapseWhitespace, (words_unwords _ (words_good s)).
  reflexivity.
Qed.

(** A map on code units that sends whitespace units, and only them, to
    whitespace units and keeps the space commutes with collapsing. *)
Lemma collapseFrom_map (g : Z -> Z) (inRun : bool) (s : jsstring) :
  (forall c, isWhitespaceUnit (g c) = isWhitespaceUnit c) -> g 32 = 32 ->
  collapseFrom inRun (map g s) = map g (collapseFrom inRun s).
Proof.
  intros Hws H32. revert inRun.
  induction s as [|c r IH]; intros inRun; [reflexivity|].
  cbn [map collapseFrom]. rewrite Hws.
  destruct (isWhitespaceUnit c); [destruct inRun|]; cbn [map]; rewrite ?IH, ?H32;
    reflexivity.
Qed.

Lemma trimSpace_map (g : Z -> Z) (s : jsstring) :
  (forall c, (g c =? 32) = (c =? 32)) ->
  trimSpace (map g s) = map g (trimSpace s).
Proof.
  intros H32. unfold trimSpace.
  assert (Htrail : forall t, trimTrailingSpace (map g t) = map g (trimTrailingSpace t)).
  { induction t as [|c r IH]; [reflexivity|].
    destruct r as [|c' r'].
    - cbn. rewrite H32. destruct (c =? 32); reflexivity.
    - change (map g (c :: c' :: r')) with (g c :: map g (c' :: r')).
      rewrite !trimTrailingSpace_cons by discriminate.
      rewrite IH. reflexivity. }
  destruct s as [|c r]; [reflexivity|].
  cbn [map trimLeadingSpace]. rewrite H32.
  destruct (c =? 32); [apply Htrail | apply (Htrail (c :: r))].
Qed.

Lemma asciiCase_whitespace (c : Z) :
  isWhitespaceUnit (asciiLower c) = isWhitespaceUnit c
  /\ isWhitespaceUnit (asciiUpper c) = isWhitespaceUnit c
  /\ (asciiLower c =? 32) = (c =? 32)
  /\ (asciiUpper c =? 32) = (c =? 32).
Proof.
  unfold isWhitespaceUnit, asciiLower, asciiUpper.
  destruct (Z.leb_spec 65 c), (Z.leb_spec c 90), (Z.leb_spec 97 c), (Z.leb_spec c 122);
    cbn [andb]; repeat split; try reflexivity;
    repeat match goal with
           | |- context [?a =? ?b] => destruct (Z.eqb_spec a b)
           end; try reflexivity; lia.
Qed.

Lemma asciiLower_cases (x : Z) :
  (65 <= x <= 90 -> asciiLower x = x + 32) /\ (~ 65 <= x <= 90 -> asciiLower x = x).
Proof.
  unfold asciiLower.
  destruct (Z.leb_spec 65 x), (Z.leb_spec x 90); cbn [andb]; split; intros; lia.
Qed.

Lemma asciiUpper_cases (x : Z) :
  (97 <= x <= 122 -> asciiUpper x = x - 32) /\ (~ 97 <= x <= 122 -> asciiUpper x = x).
Proof.
  unfold asciiUpper.
  destruct (Z.leb_spec 97 x), (Z.leb_spec x 122); cbn [andb]; split; intros; lia.
Qed.

Lemma asciiCase_idempotent (c : Z) :
  asciiUpper (asciiLower (asciiUpper (asciiLower c))) = asciiUpper (asciiLower c).
Proof.
  destruct (decide (65 <= c <= 90)); [|destruct (decide (97 <= c <= 122))];
    repeat match goal with
           | |- context [asciiLower ?x] =>
               lazymatch x with
               | context [asciiLower _] => fail
               | context [asciiUpper _] => fail
               | _ => first [ rewrite (proj1 (asciiLower_cases x)) by lia
                            | rewrite (proj2 (asciiLower_cases x)) by lia ]
               end
           | |- context [asciiUpper ?x] =>
               lazymatch x with
               | context [asciiLower _] => fail
               | context [asciiUpper _] => fail
               | _ => first [ rewrite (proj1 (asciiUpper_cases x)) by lia
                            | rewrite (proj2 (asciiUpper_cases x)) by lia ]
               end
           end; lia.
Qed.

Lemma asciiCase_keeps_normal_form (s : jsstring) :
  trimSpace (collapseWhitespace s) = s ->
  trimSpace (collapseWhitespace (map asciiUpper (map asciiLower s)))
  = map asciiUpper (map asciiLower s).
Proof.
  intros Hs. unfold collapseWhitespace.
  rewrite (collapseFrom_map asciiUpper), (collapseFrom_map asciiLower);
    try reflexivity; try (intros c; apply (asciiCase_whitespace c)).
  rewrite (trimSpace_map asciiUpper), (trimSpace_map asciiLower);
    try (intros c; apply (asciiCase_whitespace c)).
  fold (collapseWhitespace s). rewrite Hs. reflexivity.
Qed.

Lemma asciiCase_map_idempotent (s : jsstring) :
  map asciiUpper (map asciiLower (map asciiUpper (map asciiLower s)))
  = map asciiUpper (map asciiLower s).
Proof.
  induction s as [|c r IH]; [reflexivity|].
  cbn [map]. rewrite asciiCase_idempotent, IH. reflexivity.
Qed.

Context `{CM : CaseMapping}.

(** X19: normalizing an identifier a second time changes nothing, when the
    case mappings keep a string in which the whitespace is collapsed and
    trimmed in that form, and lowering and raising the case a second time
    changes nothing. *)
Theorem normalizeIdentifier_idempotent
    (Hws : forall s, trimSpace (collapseWhitespace s) = s ->
             trimSpace (collapseWhitespace (toUpperCase (toLowerCase s)))
             = toUpperCase (toLowerCase s))
    (Hcase : forall s, toUpperCase (toLowerCase (toUpperCase (toLowerCase s)))
                       = toUpperCase (toLowerCase s))
    (s : jsstring) :
  normalizeIdentifier (normalizeIdentifier s) = normalizeIdentifier s.
Proof.
  unfold normalizeIdentifier.
  rewrite (Hws _ (trimSpace_collapseWhitespace_fixed s)).
  apply Hcase.
Qed.

End Normalization.

Lemma normalizeIdentifier_idempotent_witness :
  @normalizeIdentifier asciiCase (@normalizeIdentifier asciiCase (str "  Ab   c "))
  = str "AB C".
Proof.
  rewrite (@normalizeIdentifier_idempotent asciiCase asciiCase_keeps_normal_form
             asciiCase_map_idempotent).
  vm_compute. reflexivity.
Defined.

(** ** A definition, parsed and written again *)

Section RoundTrip.
Context `{CM : CaseMapping}.
























Section Flow.
Context `{Flow : FlowParser}.



End Flow.






Section Serialized.
Context `{CE : CharacterEntities} `{Host : ToMarkdownHost} `{Flow : FlowParser}.




End Serialized.

End RoundTrip.

